(** * vox-engine: the data collection and reconciliation pipeline

    A shallow embedding of the fetch layer (rate-limited fetch, LRU cache with
    a stale fallback store, tweet ingestion, handle fix-up) and of the vote
    scraper's upserts, followed by the properties proved about them.

    Conventions.
    - JavaScript strings are [string]s of 8-bit characters; only the ASCII
      white space and ASCII letters are classified by [trim] and
      [toLowerCase].
    - A JavaScript number that comes out of [parseInt] is a [num]: [None]
      stands for NaN.
    - Asynchronous functions are computations in the monad [M]: a state
      transformer over [world] that either returns or throws. *)

From Stdlib Require Import ZArith Ascii String List Bool Lia DecimalString.
From stdpp Require Import base option list gmap strings.

Local Open Scope string_scope.
Local Open Scope list_scope.
Local Open Scope Z_scope.

(** ** JavaScript strings and numbers *)

Module JS.

(** [s.includes(sub)] *)
Fixpoint includes (sub s : string) : bool :=
  String.prefix sub s ||
  match s with
  | EmptyString => false
  | String _ s' => includes sub s'
  end.

(** [s.startsWith(p)] *)
Definition startsWith (p s : string) : bool := String.prefix p s.

(** [s.substring(1)] *)
Definition substring1 (s : string) : string :=
  match s with
  | EmptyString => EmptyString
  | String _ s' => s'
  end.

(** [s.split(sep)] for a non-empty separator: the scan goes left to right,
    and [skip] counts the characters of a matched separator still to drop. *)
Fixpoint split_from (sep : string) (skip : nat) (s : string) : list string :=
  match s with
  | EmptyString => [EmptyString]
  | String c s' =>
      match skip with
      | S k => split_from sep k s'
      | O =>
          if String.prefix sep s
          then EmptyString :: split_from sep (String.length sep - 1) s'
          else match split_from sep 0 s' with
               | h :: t => String c h :: t
               | [] => [String c EmptyString]
               end
      end
  end.

Definition split (sep s : string) : list string := split_from sep 0 s.

(** [arr.pop()] on the array a split returns, which is never empty: its last
    element. *)
Definition pop (l : list string) : string := List.last l EmptyString.

(** [arr[0]] on the array a split returns. *)
Definition first (l : list string) : string := List.hd EmptyString l.

(** White space that [trim] removes, among the 8-bit characters: TAB, LF, VT,
    FF, CR and SPACE. *)
Definition is_space (c : ascii) : bool :=
  let n := nat_of_ascii c in
  (Nat.eqb n 32 || (Nat.leb 9 n && Nat.leb n 13))%bool.

Fixpoint trimStart (s : string) : string :=
  match s with
  | EmptyString => EmptyString
  | String c s' => if is_space c then trimStart s' else s
  end.

Fixpoint trimEnd (s : string) : string :=
  match s with
  | EmptyString => EmptyString
  | String c s' =>
      match trimEnd s' with
      | EmptyString => if is_space c then EmptyString else String c EmptyString
      | t => String c t
      end
  end.

(** [s.trim()] *)
Definition trim (s : string) : string := trimEnd (trimStart s).

(** [s.replace(c, '')] with a one-character pattern: only the first
    occurrence goes. *)
Fixpoint remove_first (c : ascii) (s : string) : string :=
  match s with
  | EmptyString => EmptyString
  | String d s' => if Ascii.eqb c d then s' else String d (remove_first c s')
  end.

Definition lower_ascii (c : ascii) : ascii :=
  let n := nat_of_ascii c in
  if (Nat.leb 65 n && Nat.leb n 90)%bool then ascii_of_nat (n + 32) else c.

(** [s.toLowerCase()], also SQL's [lower(s)] *)
Fixpoint toLowerCase (s : string) : string :=
  match s with
  | EmptyString => EmptyString
  | String c s' => String (lower_ascii c) (toLowerCase s')
  end.

(** A number that may be NaN. *)
Definition num := option Z.

Definition digit_of (c : ascii) : option Z :=
  let n := nat_of_ascii c in
  if (Nat.leb 48 n && Nat.leb n 57)%bool then Some (Z.of_nat (n - 48)) else None.

Fixpoint digits (acc : num) (s : string) : num :=
  match s with
  | EmptyString => acc
  | String c s' =>
      match digit_of c with
      | Some d => digits (Some (10 * default 0 acc + d)) s'
      | None => acc
      end
  end.

(** [parseInt(s, 10)]: leading white space, an optional sign, then the
    longest run of decimal digits; NaN when there is none. *)
Definition parseInt (s : string) : num :=
  match trimStart s with
  | String "-"%char s' => Z.opp <$> digits None s'
  | String "+"%char s' => digits None s'
  | s' => digits None s'
  end.

(** A string in a condition: the empty string is falsy. *)
Definition truthy (s : string) : bool :=
  match s with
  | EmptyString => false
  | _ => true
  end.

End JS.

(** ** The relational store

    The tables as the statements of the ingestion code read and write them.
    A table is the list of its rows in insertion order; a [serial] column
    draws from the table's sequence. *)

Record politician := {
  p_id : Z;
  p_name : string;
  p_party : option string;
  p_twitter_handle : option string;
  p_created_at : Z
}.

Record voting_session := {
  s_id : Z;
  s_session_id : string;
  s_title : string;
  s_date : string;
  s_vote_count : Z;
  s_created_at : Z
}.

Record vote := {
  v_id : Z;
  v_session_id : Z;
  v_politician_id : Z;
  v_vote : string;
  v_created_at : Z
}.

Record tweet := {
  t_id : Z;
  t_tweet_id : string;
  t_politician_id : Z;
  t_text : string;
  t_created_at : string
}.

Record database := {
  politicians : list politician;
  politicians_seq : Z;
  voting_sessions : list voting_session;
  votes : list vote;
  votes_seq : Z;
  tweets : list tweet;
  tweets_seq : Z
}.

Definition empty_database : database :=
  {| politicians := []; politicians_seq := 1; voting_sessions := [];
     votes := []; votes_seq := 1; tweets := []; tweets_seq := 1 |}.

Definition with_politicians (d : database) (l : list politician) (q : Z) : database :=
  {| politicians := l; politicians_seq := q;
     voting_sessions := voting_sessions d;
     votes := votes d; votes_seq := votes_seq d;
     tweets := tweets d; tweets_seq := tweets_seq d |}.

Definition with_voting_sessions (d : database) (l : list voting_session) : database :=
  {| politicians := politicians d; politicians_seq := politicians_seq d;
     voting_sessions := l;
     votes := votes d; votes_seq := votes_seq d;
     tweets := tweets d; tweets_seq := tweets_seq d |}.

Definition with_votes (d : database) (l : list vote) (q : Z) : database :=
  {| politicians := politicians d; politicians_seq := politicians_seq d;
     voting_sessions := voting_sessions d;
     votes := l; votes_seq := q;
     tweets := tweets d; tweets_seq := tweets_seq d |}.

Definition with_tweets (d : database) (l : list tweet) (q : Z) : database :=
  {| politicians := politicians d; politicians_seq := politicians_seq d;
     voting_sessions := voting_sessions d;
     votes := votes d; votes_seq := votes_seq d;
     tweets := l; tweets_seq := q |}.

(** *** Statements of the vote scraper *)

(** [select id from politicians where lower(name) = lower($1) limit 1] *)
Definition name_matches (name : string) (p : politician) : bool :=
  bool_decide (JS.toLowerCase (p_name p) = JS.toLowerCase name).

Definition select_politician_by_name (name : string) (d : database) : list Z :=
  take 1 (p_id <$> filter (fun p => name_matches name p = true) (politicians d)).

(** [insert into politicians (name, party, created_at) values (...) returning id] *)
Definition insert_politician (name party : string) (ts : Z) (d : database) : Z * database :=
  let id := politicians_seq d in
  (id, with_politicians d
         (politicians d ++
          [{| p_id := id; p_name := name; p_party := Some party;
              p_twitter_handle := None; p_created_at := ts |}])
         (id + 1)).

Definition set_party (id : Z) (party : string) (p : politician) : politician :=
  if bool_decide (p_id p = id)
  then {| p_id := p_id p; p_name := p_name p; p_party := Some party;
          p_twitter_handle := p_twitter_handle p; p_created_at := p_created_at p |}
  else p.

(** [update politicians set party = $1 where id = $2] *)
Definition update_party (id : Z) (party : string) (d : database) : database :=
  with_politicians d (set_party id party <$> politicians d) (politicians_seq d).

Definition vote_matches (sessionId politicianId : Z) (v : vote) : bool :=
  bool_decide (v_session_id v = sessionId) && bool_decide (v_politician_id v = politicianId).

(** [select id from votes where session_id = $1 and politician_id = $2 limit 1] *)
Definition select_vote (sessionId politicianId : Z) (d : database) : list Z :=
  take 1 (v_id <$> filter (fun v => vote_matches sessionId politicianId v = true) (votes d)).

Definition set_vote (id : Z) (value : string) (v : vote) : vote :=
  if bool_decide (v_id v = id)
  then {| v_id := v_id v; v_session_id := v_session_id v;
          v_politician_id := v_politician_id v; v_vote := value;
          v_created_at := v_created_at v |}
  else v.

(** [update votes set vote = $1 where id = $2] *)
Definition update_vote (id : Z) (value : string) (d : database) : database :=
  with_votes d (set_vote id value <$> votes d) (votes_seq d).

(** [insert into votes (session_id, politician_id, vote, created_at) values (...)] *)
Definition insert_vote (sessionId politicianId : Z) (value : string) (ts : Z)
    (d : database) : database :=
  with_votes d
    (votes d ++
     [{| v_id := votes_seq d; v_session_id := sessionId;
         v_politician_id := politicianId; v_vote := value; v_created_at := ts |}])
    (votes_seq d + 1).

Definition bump_vote_count (id : Z) (s : voting_session) : voting_session :=
  if bool_decide (s_id s = id)
  then {| s_id := s_id s; s_session_id := s_session_id s; s_title := s_title s;
          s_date := s_date s; s_vote_count := s_vote_count s + 1;
          s_created_at := s_created_at s |}
  else s.

(** [update voting_sessions set vote_count = vote_count + 1 where id = $1] *)
Definition increment_vote_count (id : Z) (d : database) : database :=
  with_voting_sessions d (bump_vote_count id <$> voting_sessions d).

(** [select id from voting_sessions where id = $1 limit 1] *)
Definition select_session (id : Z) (d : database) : list Z :=
  take 1 (s_id <$> filter (fun s => s_id s = id) (voting_sessions d)).

(** [insert into voting_sessions (id, session_id, title, date, vote_count,
    created_at) values (...) returning id] *)
Definition insert_session (id : Z) (sessionId title date : string) (ts : Z)
    (d : database) : Z * database :=
  (id, with_voting_sessions d
         (voting_sessions d ++
          [{| s_id := id; s_session_id := sessionId; s_title := title;
              s_date := date; s_vote_count := 0; s_created_at := ts |}])).

(** *** Statements of the tweet ingestion and of the handle fix-up *)

(** What the API hands over for one tweet. *)
Record api_tweet := {
  a_id : string;
  a_text : string;
  a_created_at : string;
  a_url : string
}.

(** [SELECT tweet_id FROM tweets WHERE politician_id = $1] *)
Definition select_tweet_ids (politicianId : Z) (d : database) : list string :=
  t_tweet_id <$> filter (fun t => t_politician_id t = politicianId) (tweets d).

(** One [(tweet_id, politician_id, text, created_at)] tuple of the insert. *)
Definition tweet_values : Type := string * Z * string * string.

Fixpoint number_tweets (q : Z) (values : list tweet_values) : list tweet :=
  match values with
  | [] => []
  | (tid, pid, text, created) :: rest =>
      {| t_id := q; t_tweet_id := tid; t_politician_id := pid; t_text := text;
         t_created_at := created |} :: number_tweets (q + 1) rest
  end.

(** [INSERT INTO tweets (tweet_id, politician_id, text, created_at) VALUES
    (...), (...), ...] *)
Definition insert_tweets (values : list tweet_values) (d : database) : database :=
  with_tweets d (tweets d ++ number_tweets (tweets_seq d) values)
    (tweets_seq d + Z.of_nat (length values)).

(** A row of [SELECT id, name, twitter_handle FROM politicians WHERE
    twitter_handle IS NOT NULL]. *)
Record handle_row := {
  h_id : Z;
  h_name : string;
  h_twitter_handle : string
}.

Definition select_handles (d : database) : list handle_row :=
  omap (fun p => match p_twitter_handle p with
                 | Some h => Some {| h_id := p_id p; h_name := p_name p;
                                     h_twitter_handle := h |}
                 | None => None
                 end) (politicians d).

(** An entry of the batch of queued handle updates. *)
Record handle_update := {
  u_id : Z;
  u_handle : string;
  u_original : string
}.

Definition set_handle (updates : list handle_update) (p : politician) : politician :=
  match List.find (fun u => bool_decide (u_id u = p_id p)) updates with
  | Some u => {| p_id := p_id p; p_name := p_name p; p_party := p_party p;
                 p_twitter_handle := Some (u_handle u);
                 p_created_at := p_created_at p |}
  | None => p
  end.

(** [UPDATE politicians AS p SET twitter_handle = c.handle FROM (VALUES ...)
    AS c(id, handle) WHERE p.id = c.id::integer]: a row joined by several
    tuples takes the first. *)
Definition update_handles (updates : list handle_update) (d : database) : database :=
  with_politicians d (set_handle updates <$> politicians d) (politicians_seq d).

(** ** The process state *)

(** A value the cache holds or a lookup returns ([any] in the source). *)
Inductive any :=
  | Null
  | Str (s : string)
  | TweetList (l : list api_tweet).

(** [interface CacheItem<T>] *)
Record CacheItem := {
  data : any;
  timestamp : Z
}.

Definition CACHE_TTL : Z := 10 * 60 * 1000.
Definition CACHE_MAX : nat := 500.
Definition MAX_RETRIES : nat := 3.
Definition INITIAL_RETRY_DELAY : Z := 5000.

(** *** The LRU cache (the [lru-cache] package, options [max] and [ttl])

    The entries, most recently used first, each with the time it was set. *)
Record lru_entry := {
  l_key : string;
  l_value : CacheItem;
  l_start : Z
}.

Definition lru := list lru_entry.

Definition lru_without (k : string) (c : lru) : lru :=
  filter (fun e => l_key e ≠ k) c.

Definition lru_find (k : string) (c : lru) : option lru_entry :=
  List.find (fun e => bool_decide (l_key e = k)) c.

Definition is_stale (now : Z) (e : lru_entry) : bool :=
  CACHE_TTL <? now - l_start e.

(** [cache.get(k)]: an entry past its time to live is dropped and reads as
    absent; a live one moves to the front. *)
Definition lru_get (now : Z) (k : string) (c : lru) : option CacheItem * lru :=
  match lru_find k c with
  | None => (None, c)
  | Some e =>
      if is_stale now e then (None, lru_without k c)
      else (Some (l_value e), e :: lru_without k c)
  end.

(** [cache.set(k, v)]: the entry goes to the front with a fresh start time;
    a new key in a full cache evicts the least recently used entry. *)
Definition lru_set (now : Z) (k : string) (v : CacheItem) (c : lru) : lru :=
  let rest := lru_without k c in
  let rest := if (CACHE_MAX <=? length rest)%nat then removelast rest else rest in
  {| l_key := k; l_value := v; l_start := now |} :: rest.

(** [cache.delete(k)] *)
Definition lru_delete (k : string) (c : lru) : lru := lru_without k c.

(** *** The external API *)

(** An entry of the [errors] array of an error payload. *)
Record api_error := {
  e_title : option string;
  e_message : option string
}.

(** A parsed response body: the [errors] array and [data.id], when there. *)
Record payload := {
  errors : option (list api_error);
  data_id : option string
}.

(** A response: the status, the three headers the client reads, and the
    body ([None] when [response.json()] rejects). *)
Record response := {
  status : Z;
  statusText : string;
  x_rate_limit_remaining : option string;
  x_rate_limit_reset : option string;
  retry_after : option string;
  body : option payload
}.

Definition ok (r : response) : bool := (200 <=? status r) && (status r <=? 299).

(** [rateLimitInfo] *)
Record rate_limit := {
  remaining : JS.num;
  reset : JS.num;
  lastUpdated : Z
}.

(** *** What a run does, in order *)

Inductive table := Politicians | VotingSessions | Votes | Tweets.

Inductive sql :=
  | BEGIN
  | COMMIT
  | ROLLBACK
  | SELECT (t : table)
  | INSERT (t : table) (rows : nat)
  | UPDATE (t : table).

Inductive event :=
  | Connect
  | Release
  | Query (q : sql)
  | Fetch (url : string)
  | Sleep (ms : JS.num)
  | Compute (key : string)
  | Warn (msg : string).

Inductive error :=
  | DbError (k : nat)
  | NetError (k : nat)
  | TypeError
  | JsError (msg : string).

(** The module-level state of the two scrapers, the store behind them and
    the environment: [db_fails k] says whether the [k]-th round trip to the
    database raises (connection loss, constraint violation), [network k] is
    the outcome of the [k]-th outbound request ([None]: the request itself
    fails). [tx] is the working copy of the transaction open on the pooled
    client, if any; other connections see [committed]. *)
Record world := {
  committed : database;
  tx : option database;
  db_fails : nat -> bool;
  stmts : nat;
  now : Z;
  cache : lru;
  staleCache : gmap string CacheItem;
  rateLimitInfo : rate_limit;
  network : nat -> option response;
  calls : nat;
  TWITTER_API_KEY : option string;
  log : list event
}.

Definition set_store (d : database) (t : option database) (w : world) : world :=
  {| committed := d; tx := t; db_fails := db_fails w; stmts := stmts w;
     now := now w; cache := cache w; staleCache := staleCache w;
     rateLimitInfo := rateLimitInfo w; network := network w; calls := calls w;
     TWITTER_API_KEY := TWITTER_API_KEY w; log := log w |}.

Definition round_trip (w : world) : world :=
  {| committed := committed w; tx := tx w; db_fails := db_fails w;
     stmts := S (stmts w);
     now := now w; cache := cache w; staleCache := staleCache w;
     rateLimitInfo := rateLimitInfo w; network := network w; calls := calls w;
     TWITTER_API_KEY := TWITTER_API_KEY w; log := log w |}.

Definition set_now (t : Z) (w : world) : world :=
  {| committed := committed w; tx := tx w; db_fails := db_fails w; stmts := stmts w;
     now := t; cache := cache w; staleCache := staleCache w;
     rateLimitInfo := rateLimitInfo w; network := network w; calls := calls w;
     TWITTER_API_KEY := TWITTER_API_KEY w; log := log w |}.

Definition set_caches (c : lru) (s : gmap string CacheItem) (w : world) : world :=
  {| committed := committed w; tx := tx w; db_fails := db_fails w; stmts := stmts w;
     now := now w; cache := c; staleCache := s;
     rateLimitInfo := rateLimitInfo w; network := network w; calls := calls w;
     TWITTER_API_KEY := TWITTER_API_KEY w; log := log w |}.

Definition set_rateLimitInfo (r : rate_limit) (w : world) : world :=
  {| committed := committed w; tx := tx w; db_fails := db_fails w; stmts := stmts w;
     now := now w; cache := cache w; staleCache := staleCache w;
     rateLimitInfo := r; network := network w; calls := calls w;
     TWITTER_API_KEY := TWITTER_API_KEY w; log := log w |}.

Definition called (w : world) : world :=
  {| committed := committed w; tx := tx w; db_fails := db_fails w; stmts := stmts w;
     now := now w; cache := cache w; staleCache := staleCache w;
     rateLimitInfo := rateLimitInfo w; network := network w; calls := S (calls w);
     TWITTER_API_KEY := TWITTER_API_KEY w; log := log w |}.

Definition logged (e : event) (w : world) : world :=
  {| committed := committed w; tx := tx w; db_fails := db_fails w; stmts := stmts w;
     now := now w; cache := cache w; staleCache := staleCache w;
     rateLimitInfo := rateLimitInfo w; network := network w; calls := calls w;
     TWITTER_API_KEY := TWITTER_API_KEY w; log := log w ++ [e] |}.

(** ** Computations that return or throw *)

Inductive outcome (A : Type) :=
  | Returned (a : A)
  | Thrown (e : error).

Arguments Returned {A} a.
Arguments Thrown {A} e.

Definition M (A : Type) : Type := world -> outcome A * world.

Definition ret {A} (a : A) : M A := fun w => (Returned a, w).

Definition throw {A} (e : error) : M A := fun w => (Thrown e, w).

Definition bind {A B} (m : M A) (k : A -> M B) : M B := fun w =>
  match m w with
  | (Returned a, w') => k a w'
  | (Thrown e, w') => (Thrown e, w')
  end.

(** [try { m } catch (error) { h error }] *)
Definition try_catch {A} (m : M A) (h : error -> M A) : M A := fun w =>
  match m w with
  | (Returned a, w') => (Returned a, w')
  | (Thrown e, w') => h e w'
  end.

(** [try { m } finally { f }] with a handler that does not throw. *)
Definition finally {A} (m : M A) (f : world -> world) : M A := fun w =>
  let (r, w') := m w in (r, f w').

Definition get : M world := fun w => (Returned w, w).

Definition modify (f : world -> world) : M unit := fun w => (Returned tt, f w).

Declare Scope M_scope.
Delimit Scope M_scope with M.
Notation "'let*' x ':=' m 'in' k" := (bind m (fun x => k))
  (at level 10, x name, m at level 100, k at level 200) : M_scope.
Notation "m ';;' k" := (bind m (fun _ => k))
  (at level 100, k at level 200, right associativity) : M_scope.
Local Open Scope M_scope.

(** [console.warn] and the other marks a run leaves in [log]. *)
Definition emit (e : event) : M unit := modify (logged e).

(** [await sleep(ms)]: the clock moves on by [ms]; a NaN delay fires at once. *)
Definition sleep (ms : JS.num) : M unit :=
  modify (fun w => set_now (now w + Z.max 0 (default 0 ms)) (logged (Sleep ms) w)).

(** *** Round trips to the database *)

(** A statement through the ORM's pool: it sees and changes the committed
    state at once. *)
Definition statement {A} (q : sql) (f : database -> A * database) : M A := fun w =>
  let w1 := round_trip (logged (Query q) w) in
  if db_fails w (stmts w) then (Thrown (DbError (stmts w)), w1)
  else let (a, d) := f (committed w) in (Returned a, set_store d (tx w1) w1).

(** A statement the server rejects whatever the state (a NaN where an
    integer is expected). *)
Definition rejected {A} (q : sql) : M A := fun w =>
  (Thrown (DbError (stmts w)), round_trip (logged (Query q) w)).

(** [await getClient()] *)
Definition getClient : M unit := fun w =>
  let w1 := round_trip (logged Connect w) in
  if db_fails w (stmts w) then (Thrown (DbError (stmts w)), w1)
  else (Returned tt, w1).

(** [await client.query(...)]: inside a transaction it works on the
    transaction's copy, outside it commits at once. *)
Definition query {A} (q : sql) (f : database -> A * database) : M A := fun w =>
  let w1 := round_trip (logged (Query q) w) in
  if db_fails w (stmts w) then (Thrown (DbError (stmts w)), w1)
  else match tx w with
       | Some t => let (a, t') := f t in (Returned a, set_store (committed w1) (Some t') w1)
       | None => let (a, d) := f (committed w) in (Returned a, set_store d None w1)
       end.

(** [await client.query('BEGIN')] *)
Definition begin : M unit := fun w =>
  let w1 := round_trip (logged (Query BEGIN) w) in
  if db_fails w (stmts w) then (Thrown (DbError (stmts w)), w1)
  else match tx w with
       | Some _ => (Returned tt, w1)
       | None => (Returned tt, set_store (committed w1) (Some (committed w1)) w1)
       end.

(** [await client.query('COMMIT')]: a commit that fails leaves the
    transaction open, for the rollback that follows. *)
Definition commit : M unit := fun w =>
  let w1 := round_trip (logged (Query COMMIT) w) in
  if db_fails w (stmts w) then (Thrown (DbError (stmts w)), w1)
  else match tx w with
       | Some t => (Returned tt, set_store t None w1)
       | None => (Returned tt, w1)
       end.

(** [await client.query('ROLLBACK')]: the working copy is dropped, also when
    the statement itself raises (the server aborts a transaction whose
    connection broke). *)
Definition rollback : M unit := fun w =>
  let w1 := set_store (committed w) None (round_trip (logged (Query ROLLBACK) w)) in
  if db_fails w (stmts w) then (Thrown (DbError (stmts w)), w1)
  else (Returned tt, w1).

(** [client.release()] *)
Definition release (w : world) : world := logged Release w.

(** A read-only statement. *)
Definition reading {A} (f : database -> A) (d : database) : A * database := (f d, d).

(** A statement that returns nothing. *)
Definition writing (f : database -> database) (d : database) : unit * database := (tt, f d).

(** ** The vote scraper ([lib/vote-scraper.ts]) *)

Module VoteScraper.

(** [sessionExists]: any error of the lookup reads as "does not exist". *)
Definition sessionExists (sessionId : JS.num) : M bool :=
  try_catch
    (let* session :=
       match sessionId with
       | Some id => statement (SELECT VotingSessions) (reading (select_session id))
       | None => rejected (SELECT VotingSessions)
       end in
     ret (0 <? length session)%nat)
    (fun _ => ret false).

(** [saveVotingSession] *)
Definition saveVotingSession (sessionId title date : string) : M Z :=
  try_catch
    (let numericSessionId := JS.parseInt sessionId in
     let* exists_ := sessionExists numericSessionId in
     if exists_ : bool then
       let* session :=
         match numericSessionId with
         | Some id => statement (SELECT VotingSessions) (reading (select_session id))
         | None => rejected (SELECT VotingSessions)
         end in
       match session with
       | id :: _ => ret id
       | [] => throw TypeError
       end
     else
       let* w := get in
       match numericSessionId with
       | Some id =>
           statement (INSERT VotingSessions 1)
             (insert_session id sessionId title date (now w))
       | None => rejected (INSERT VotingSessions 1)
       end)
    (fun _ => throw (JsError "Failed to save voting session")).

(** [saveVote] *)
Definition saveVote (sessionId : Z) (politicianName party vote : string) : M bool :=
  try_catch
    (let* politician :=
       statement (SELECT Politicians) (reading (select_politician_by_name politicianName)) in
     let* politicianId :=
       match politician with
       | [] =>
           let* w := get in
           statement (INSERT Politicians 1) (insert_politician politicianName party (now w))
       | id :: _ =>
           statement (UPDATE Politicians) (writing (update_party id party));;
           ret id
       end in
     let* existingVote :=
       statement (SELECT Votes) (reading (select_vote sessionId politicianId)) in
     match existingVote with
     | id :: _ =>
         statement (UPDATE Votes) (writing (update_vote id vote))
     | [] =>
         let* w := get in
         statement (INSERT Votes 1)
           (writing (insert_vote sessionId politicianId vote (now w)));;
         statement (UPDATE VotingSessions) (writing (increment_vote_count sessionId))
     end;;
     ret true)
    (fun _ => throw (JsError "Failed to save vote")).

End VoteScraper.

(** ** The fetch layer and the tweet store ([unnamed/part_001]) *)

Module TwitterApi.

Definition TWITTER_API_BASE : string := "https://api.twitter.com/2".

(** [`${n}`] for an integer. *)
Definition show (n : Z) : string := NilZero.string_of_int (Z.to_int n).

(** [response.headers.get(name)] in a condition. *)
Definition present (h : option string) : bool :=
  match h with
  | Some s => JS.truthy s
  | None => false
  end.

Definition times1000 (n : JS.num) : JS.num := (fun v => v * 1000) <$> n.

(** [rateLimitInfo.remaining <= 0 && now < rateLimitInfo.reset]; a
    comparison with NaN is false. *)
Definition quota_exhausted (t : Z) (r : rate_limit) : bool :=
  match remaining r, reset r with
  | Some n, Some at_ => (n <=? 0) && (t <? at_)
  | _, _ => false
  end.

(** The bookkeeping after a response: each header overwrites its field only
    when it is there and not empty. *)
Definition update_rate_limit (t : Z) (resp : response) (r : rate_limit) : rate_limit :=
  {| remaining := if present (x_rate_limit_remaining resp)
                  then JS.parseInt (default "" (x_rate_limit_remaining resp))
                  else remaining r;
     reset := if present (x_rate_limit_reset resp)
              then times1000 (JS.parseInt (default "" (x_rate_limit_reset resp)))
              else reset r;
     lastUpdated := t |}.

(** The wait before a retry: the [retry-after] header in seconds when it is
    there, else the exponential backoff. *)
Definition retry_delay (resp : response) (retryCount : nat) : JS.num :=
  if present (retry_after resp)
  then times1000 (JS.parseInt (default "" (retry_after resp)))
  else Some (INITIAL_RETRY_DELAY * 2 ^ Z.of_nat retryCount).

(** [await fetch(url, options)] *)
Definition fetch (url : string) : M response := fun w =>
  let w1 := called (logged (Fetch url) w) in
  match network w (calls w) with
  | Some r => (Returned r, w1)
  | None => (Thrown (NetError (calls w)), w1)
  end.

Definition rate_limit_exceeded : error :=
  JsError "Twitter API rate limit exceeded. Maximum retries (3) reached.".

(** [rateLimitedFetch], by recursion on the retries that are left:
    [left = MAX_RETRIES - retryCount], so that [left = 0] is the source's
    [retryCount >= MAX_RETRIES]. *)
Fixpoint rateLimitedFetch_from (left : nat) (url : string) (retryCount : nat) : M response :=
  let* w := get in
  let now_ := now w in
  (if quota_exhausted now_ (rateLimitInfo w)
   then sleep ((fun at_ => at_ - now_ + 1000) <$> reset (rateLimitInfo w))
   else ret tt);;
  try_catch
    (let* response := fetch url in
     modify (fun w => set_rateLimitInfo (update_rate_limit now_ response (rateLimitInfo w)) w);;
     if bool_decide (status response = 429) then
       match left with
       | O => throw rate_limit_exceeded
       | S left' =>
           sleep (retry_delay response retryCount);;
           rateLimitedFetch_from left' url (S retryCount)
       end
     else ret response)
    (fun error => throw error).

Definition rateLimitedFetch (url : string) (retryCount : nat) : M response :=
  rateLimitedFetch_from (MAX_RETRIES - retryCount) url retryCount.

(** [getCachedOrFetch]; [Compute key] marks the call of [fetchFn]. *)
Definition getCachedOrFetch (key : string) (fetchFn : M any) : M any :=
  let* w := get in
  let (cachedValue, c) := lru_get (now w) key (cache w) in
  modify (set_caches c (staleCache w));;
  match cachedValue with
  | Some item =>
      modify (fun w => set_caches (cache w) (<[key := item]> (staleCache w)) w);;
      ret (data item)
  | None =>
      try_catch
        (emit (Compute key);;
         let* d := fetchFn in
         let* w := get in
         let cacheItem := {| data := d; timestamp := now w |} in
         modify (fun w => set_caches (lru_set (now w) key cacheItem (cache w))
                            (<[key := cacheItem]> (staleCache w)) w);;
         ret d)
        (fun error =>
           let* w := get in
           match staleCache w !! key with
           | Some staleValue =>
               emit (Warn ("Using stale cached data for " ++ key ++ " due to fetch error")%string);;
               ret (data staleValue)
           | None => throw error
           end)
  end.

(** [await response.json()] *)
Definition json (r : response) : M payload :=
  match body r with
  | Some p => ret p
  | None => throw TypeError
  end.

Definition has_title (t : string) (e : api_error) : bool :=
  bool_decide (e_title e = Some t).

(** [error.message?.includes(s)] *)
Definition message_includes (s : string) (e : api_error) : bool :=
  match e_message e with
  | Some m => JS.includes s m
  | None => false
  end.

(** The loop over the [errors] of a failed user lookup: the first entry that
    is an authorization failure throws, the first that is a "not found"
    returns null; [None] when the loop runs to its end. *)
Fixpoint classify_errors (l : list api_error) : option (outcome any) :=
  match l with
  | [] => None
  | e :: rest =>
      if has_title "Unauthorized" e || message_includes "authorization" e
      then Some (Thrown (JsError "Twitter API authorization failed. Please check your API key."))
      else if has_title "Not Found" e || message_includes "not found" e
      then Some (Returned Null)
      else classify_errors rest
  end.

(** [e.message || e.title] *)
Definition message_or_title (e : api_error) : string :=
  match e_message e with
  | Some m => if JS.truthy m then m else default "" (e_title e)
  | None => default "" (e_title e)
  end.

Definition join (sep : string) (l : list string) : string :=
  match l with
  | [] => ""
  | s :: rest => fold_left (fun acc x => (acc ++ sep ++ x)%string) rest s
  end.

Definition api_failure (r : response) : error :=
  JsError ("Twitter API error: " ++ show (status r) ++ " " ++ statusText r)%string.

(** The cleaned user name of [getUserIdFromUsername]. *)
Definition cleanUsername (username : string) : string :=
  JS.first (JS.split "?" (JS.pop (JS.split "/" (JS.remove_first "@" (JS.trim username))))).

(** The fetch function [getUserIdFromUsername] hands to the cache. *)
Definition lookupUserId (cleanUsername : string) : M any :=
  try_catch
    (let* w := get in
     if negb (present (TWITTER_API_KEY w))
     then throw (JsError "Twitter API key is not configured")
     else
       let url := (TWITTER_API_BASE ++ "/users/by/username/" ++ cleanUsername)%string in
       let* response := rateLimitedFetch url 0 in
       if negb (ok response) then
         let* errorData := json response in
         match errors errorData with
         | Some (e :: rest) =>
             match classify_errors (e :: rest) with
             | Some (Returned v) => ret v
             | Some (Thrown err) => throw err
             | None =>
                 throw (JsError ("Twitter API error: " ++
                                 join ", " (message_or_title <$> (e :: rest)))%string)
             end
         | _ => throw (api_failure response)
         end
       else
         let* data := json response in
         ret (match data_id data with
              | Some id => if JS.truthy id then Str id else Null
              | None => Null
              end))
    (fun _ => ret Null).

(** [getUserIdFromUsername] *)
Definition getUserIdFromUsername (username : string) : M any :=
  let cleanUsername := cleanUsername username in
  if negb (JS.truthy cleanUsername) then ret Null
  else
    let cacheKey := ("twitter_user_" ++ JS.toLowerCase cleanUsername)%string in
    getCachedOrFetch cacheKey (lookupUserId cleanUsername).

(** [new Set(existingTweetsResult.rows.map(row => row.tweet_id))] *)
Definition id_set (ids : list string) : gset string := list_to_set ids.

(** The tuples queued for the insert: the tweets of the batch whose id is
    not in the set, in the order of the batch. *)
Definition new_values (existingTweetIds : gset string) (politicianId : Z)
    (tweetData : list api_tweet) : list tweet_values :=
  (fun t => (a_id t, politicianId, a_text t, a_created_at t)) <$>
  filter (fun t => a_id t ∉ existingTweetIds) tweetData.

(** [saveTweetsToDatabase] *)
Definition saveTweetsToDatabase (tweetData : list api_tweet) (politicianId : Z) : M Z :=
  match tweetData with
  | [] => ret 0
  | _ =>
      getClient;;
      finally
        (try_catch
           (begin;;
            let* existingTweetsResult :=
              query (SELECT Tweets) (reading (select_tweet_ids politicianId)) in
            let existingTweetIds := id_set existingTweetsResult in
            let values := new_values existingTweetIds politicianId tweetData in
            let* savedCount :=
              match values with
              | [] => ret 0
              | _ =>
                  query (INSERT Tweets (length values)) (writing (insert_tweets values));;
                  ret (Z.of_nat (length values))
              end in
            commit;;
            modify (fun w => set_caches
                               (lru_delete "tweet_stats" (lru_delete "recent_tweets_10" (cache w)))
                               (staleCache w) w);;
            ret savedCount)
           (fun error => rollback;; throw error))
        release
  end.

(** The clean-up of one stored handle: the cleaned handle and whether any
    step fired. *)
Definition fixHandle (original : string) : string * bool :=
  let twitterHandle := original in
  let fixed := false in
  let '(twitterHandle, fixed) :=
    if JS.includes "twitter.com/" twitterHandle
    then (JS.pop (JS.split "twitter.com/" twitterHandle), true)
    else (twitterHandle, fixed) in
  let '(twitterHandle, fixed) :=
    if JS.includes "x.com/" twitterHandle
    then (JS.pop (JS.split "x.com/" twitterHandle), true)
    else (twitterHandle, fixed) in
  let '(twitterHandle, fixed) :=
    if JS.includes "/" twitterHandle || JS.includes "?" twitterHandle
    then (JS.first (JS.split "?" (JS.first (JS.split "/" twitterHandle))), true)
    else (twitterHandle, fixed) in
  let '(twitterHandle, fixed) :=
    if JS.startsWith "@" twitterHandle
    then (JS.substring1 twitterHandle, true)
    else (twitterHandle, fixed) in
  if bool_decide (twitterHandle ≠ JS.trim twitterHandle)
  then (JS.trim twitterHandle, true)
  else (twitterHandle, fixed).

(** An entry of [results.details]. *)
Record detail := {
  d_id : Z;
  d_name : string;
  d_original : string;
  d_fixed : option string;
  d_status : string
}.

(** The report of the handle fix-up. *)
Record fix_results := {
  r_total : nat;
  r_fixed : nat;
  r_errors : nat;
  r_details : list detail
}.

(** One turn of the loop over the selected rows. *)
Definition check_row (acc : list handle_update * list detail) (politician : handle_row)
    : list handle_update * list detail :=
  let '(updates, details) := acc in
  let originalHandle := h_twitter_handle politician in
  let '(twitterHandle, fixed) := fixHandle originalHandle in
  let updates :=
    if fixed && JS.truthy twitterHandle
    then updates ++ [{| u_id := h_id politician; u_handle := twitterHandle;
                        u_original := originalHandle |}]
    else updates in
  (updates,
   details ++ [{| d_id := h_id politician; d_name := h_name politician;
                  d_original := originalHandle;
                  d_fixed := if fixed then Some twitterHandle else None;
                  d_status := if fixed then "fixed" else "ok" |}]).

(** [checkAndFixTwitterHandles] *)
Definition checkAndFixTwitterHandles : M fix_results :=
  getClient;;
  finally
    (try_catch
       (begin;;
        let* politiciansResult := query (SELECT Politicians) (reading select_handles) in
        let '(updates, details) := fold_left check_row politiciansResult ([], []) in
        match updates with
        | [] => ret tt
        | _ => query (UPDATE Politicians) (writing (update_handles updates))
        end;;
        commit;;
        modify (fun w => set_caches (lru_delete "politicians_with_twitter" (cache w))
                           (staleCache w) w);;
        ret {| r_total := length politiciansResult; r_fixed := length updates;
               r_errors := 0; r_details := details |})
       (fun error => rollback;; throw error))
    release.

(** [`${v}`] for a value that came out of the cache: an array prints its
    elements separated by commas, an object as [[object Object]]. *)
Definition to_string (v : any) : string :=
  match v with
  | Null => "null"
  | Str s => s
  | TweetList l => join "," ((fun _ => "[object Object]") <$> l)
  end.

(** A value in a condition. *)
Definition truthy_any (v : any) : bool :=
  match v with
  | Null => false
  | Str s => JS.truthy s
  | TweetList _ => true
  end.

(** A tweet as the API sends it. *)
Record raw_tweet := {
  w_id : string;
  w_text : string;
  w_created_at : string
}.

Section Tweets.

(** [data.data] of the body of a tweets response, which [payload] does not
    record: [None] when the body has none. *)
Variable data_data : payload -> option (list raw_tweet).

(** The fetch function [fetchUserTweets] hands to the cache. *)
Definition fetchTweetsOf (username : string) (userId : any) (maxResults : Z) : M any :=
  let url := (TWITTER_API_BASE ++ "/users/" ++ to_string userId ++ "/tweets")%string in
  let params := ("max_results=" ++ show (Z.min maxResults 100) ++
                 "&tweet.fields=created_at&exclude=retweets%2Creplies")%string in
  let* response := rateLimitedFetch (url ++ "?" ++ params)%string 0 in
  if negb (ok response) then
    let* errorData := json response in
    match errors errorData with
    | Some (e :: rest) =>
        throw (JsError ("Twitter API error: " ++
                        join ", " (message_or_title <$> (e :: rest)))%string)
    | _ => throw (api_failure response)
    end
  else
    let* data := json response in
    match data_data data with
    | None => ret (TweetList [])
    | Some l =>
        ret (TweetList
               ((fun tweet =>
                   {| a_id := w_id tweet; a_text := w_text tweet;
                      a_created_at := w_created_at tweet;
                      a_url := ("https://twitter.com/" ++ username ++ "/status/" ++
                                w_id tweet)%string |}) <$> l))
    end.

(** [fetchUserTweets] *)
Definition fetchUserTweets (username : string) (maxResults : Z) : M any :=
  try_catch
    (let* w := get in
     if negb (present (TWITTER_API_KEY w))
     then throw (JsError ("Twitter API key is not configured. " ++
                          "Please set the TWITTER_API_KEY environment variable.")%string)
     else
       let* userId := getUserIdFromUsername username in
       if negb (truthy_any userId)
       then throw (JsError ("Could not find user ID for username: " ++ username ++
                            ". This may be due to an invalid Twitter API key or " ++
                            "the username doesn't exist.")%string)
       else
         let cacheKey := ("tweets_" ++ to_string userId ++ "_" ++ show maxResults)%string in
         getCachedOrFetch cacheKey (fetchTweetsOf username userId maxResults))
    (fun error => throw error).

End Tweets.

End TwitterApi.

(** ** The twitter scraper module ([lib/twitter-scraper.ts]) *)

Module TwitterScraper.

(** [interface Politician] *)
Record Politician := {
  id : Z;
  name : string;
  twitter : string
}.

(** [select id, name, twitter from politicians where twitter is not null and
    twitter != ''] *)
Definition select_with_twitter (d : database) : list Politician :=
  omap (fun p => match p_twitter_handle p with
                 | Some h => if JS.truthy h
                             then Some {| id := p_id p; name := p_name p; twitter := h |}
                             else None
                 | None => None
                 end) (politicians d).

(** [fetchPoliticiansWithTwitter] *)
Definition fetchPoliticiansWithTwitter : M (list Politician) :=
  try_catch
    (statement (SELECT Politicians) (reading select_with_twitter))
    (fun _ => throw (JsError "Failed to fetch politicians with Twitter handles")).

(** A [for ... of] loop with [await] in its body. *)
Fixpoint for_each {A S : Type} (l : list A) (f : S -> A -> M S) (s : S) : M S :=
  match l with
  | [] => ret s
  | x :: rest => let* s' := f s x in for_each rest f s'
  end.

(** The clean-up of one handle in this module: the trim is unconditional and
    does not count as a fix. *)
Definition fixHandle (original : string) : string * bool :=
  let twitterHandle := original in
  let fixed := false in
  let '(twitterHandle, fixed) :=
    if JS.includes "twitter.com/" twitterHandle
    then (JS.pop (JS.split "twitter.com/" twitterHandle), true)
    else (twitterHandle, fixed) in
  let '(twitterHandle, fixed) :=
    if JS.includes "x.com/" twitterHandle
    then (JS.pop (JS.split "x.com/" twitterHandle), true)
    else (twitterHandle, fixed) in
  let '(twitterHandle, fixed) :=
    if JS.includes "/" twitterHandle || JS.includes "?" twitterHandle
    then (JS.first (JS.split "?" (JS.first (JS.split "/" twitterHandle))), true)
    else (twitterHandle, fixed) in
  let '(twitterHandle, fixed) :=
    if JS.startsWith "@" twitterHandle
    then (JS.substring1 twitterHandle, true)
    else (twitterHandle, fixed) in
  (JS.trim twitterHandle, fixed).

(** An entry of [results.details] of the fix-up. *)
Record fix_detail := {
  f_id : Z;
  f_name : string;
  f_original : string;
  f_fixed : string
}.

Record fix_results := {
  total : nat;
  fixed : nat;
  details : list fix_detail
}.

Definition set_twitter (pid : Z) (handle : string) (p : politician) : politician :=
  if bool_decide (p_id p = pid)
  then {| p_id := p_id p; p_name := p_name p; p_party := p_party p;
          p_twitter_handle := Some handle; p_created_at := p_created_at p |}
  else p.

(** [update politicians set twitter = $1 where id = $2] *)
Definition update_twitter (pid : Z) (handle : string) (d : database) : database :=
  with_politicians d (set_twitter pid handle <$> politicians d) (politicians_seq d).

(** [checkAndFixTwitterHandles]: one update statement per changed row. *)
Definition checkAndFixTwitterHandles : M fix_results :=
  try_catch
    (let* politiciansWithTwitter := fetchPoliticiansWithTwitter in
     for_each politiciansWithTwitter
       (fun results politician =>
          let originalHandle := twitter politician in
          let '(twitterHandle, fixed_) := fixHandle originalHandle in
          if fixed_ && bool_decide (twitterHandle ≠ originalHandle) then
            statement (UPDATE Politicians)
              (writing (update_twitter (id politician) twitterHandle));;
            ret {| total := total results; fixed := S (fixed results);
                   details := details results ++
                     [{| f_id := id politician; f_name := name politician;
                         f_original := originalHandle; f_fixed := twitterHandle |}] |}
          else ret results)
       {| total := length politiciansWithTwitter; fixed := 0; details := [] |})
    (fun _ => throw (JsError "Failed to check and fix Twitter handles")).

(** [error.message] *)
Definition message (e : error) : string :=
  match e with
  | JsError m => m
  | DbError _ => "database error"
  | NetError _ => "fetch failed"
  | TypeError => "Cannot read properties of undefined"
  end.

(** An entry of [FetchResults.details]. *)
Record fetch_detail := {
  politicianId : Z;
  politicianName : string;
  twitterHandle : string;
  newTweets : Z;
  skippedTweets : Z;
  totalTweets : Z;
  error_ : option string
}.

(** [interface FetchResults] *)
Record FetchResults := {
  totalPoliticians : Z;
  processedPoliticians : Z;
  totalNewTweets : Z;
  totalSkippedTweets : Z;
  fetch_details : list fetch_detail;
  rateLimited : bool
}.

(** The handle as [fetchTweetsForAllPoliticians] cleans it before the fetch. *)
Definition extractHandle (h : string) : string :=
  let h := if JS.includes "twitter.com/" h then JS.pop (JS.split "twitter.com/" h) else h in
  let h := if JS.includes "x.com/" h then JS.pop (JS.split "x.com/" h) else h in
  JS.trim (JS.first (JS.split "?" (JS.first (JS.split "/" h)))).

Section Batch.

(** The two collaborators of the batch run. In this module both are
    placeholders ([placeholder_fetchUserTweets], [placeholder_save]); the
    batch run is stated over any pair. *)
Variable fetchUserTweets : string -> Z -> M (list api_tweet).
Variable saveTweetsToDatabase : list api_tweet -> Z -> M Z.

(** The body of the loop: one politician's fetch and save. *)
Definition ingest_one (maxTweetsPerPolitician : Z) (results : FetchResults)
    (politician : Politician) : M FetchResults :=
  try_catch
    (let twitterHandle := twitter politician in
     if negb (JS.truthy twitterHandle) then throw (JsError "Twitter handle is empty")
     else
       let twitterHandle := extractHandle twitterHandle in
       if negb (JS.truthy twitterHandle)
       then throw (JsError "Could not extract valid Twitter handle")
       else
         let* tweets := fetchUserTweets twitterHandle maxTweetsPerPolitician in
         let* savedCount := saveTweetsToDatabase tweets (id politician) in
         let n := Z.of_nat (length tweets) in
         ret {| totalPoliticians := totalPoliticians results;
                processedPoliticians := processedPoliticians results + 1;
                totalNewTweets := totalNewTweets results + savedCount;
                totalSkippedTweets := totalSkippedTweets results + (n - savedCount);
                fetch_details := fetch_details results ++
                  [{| politicianId := id politician; politicianName := name politician;
                      twitterHandle := twitterHandle; newTweets := savedCount;
                      skippedTweets := n - savedCount; totalTweets := n;
                      error_ := None |}];
                rateLimited := rateLimited results |})
    (fun error =>
       ret {| totalPoliticians := totalPoliticians results;
              processedPoliticians := processedPoliticians results;
              totalNewTweets := totalNewTweets results;
              totalSkippedTweets := totalSkippedTweets results;
              fetch_details := fetch_details results ++
                [{| politicianId := id politician; politicianName := name politician;
                    twitterHandle := twitter politician; newTweets := 0;
                    skippedTweets := 0; totalTweets := 0;
                    error_ := Some (message error) |}];
              rateLimited := if JS.truthy (message error) &&
                                JS.includes "rate limit" (message error)
                             then true else rateLimited results |}).

(** [fetchTweetsForAllPoliticians] *)
Definition fetchTweetsForAllPoliticians (maxTweetsPerPolitician : Z) : M FetchResults :=
  try_catch
    (let* politicians := fetchPoliticiansWithTwitter in
     for_each politicians (ingest_one maxTweetsPerPolitician)
       {| totalPoliticians := Z.of_nat (length politicians);
          processedPoliticians := 0; totalNewTweets := 0; totalSkippedTweets := 0;
          fetch_details := []; rateLimited := false |})
    (fun _ => throw (JsError "Failed to fetch tweets for all politicians")).

End Batch.

(** [fetchUserTweets] of this module: a placeholder that waits and returns
    no tweet. *)
Definition placeholder_fetchUserTweets (twitterHandle : string) (maxTweets : Z)
    : M (list api_tweet) :=
  sleep (Some 500);; ret [].

(** [saveTweetsToDatabase] of this module: a placeholder that stores nothing
    and returns the size of the batch. *)
Definition placeholder_save (tweets : list api_tweet) (politicianId : Z) : M Z :=
  ret (Z.of_nat (length tweets)).

(** [updateTwitterHandle] *)
Definition updateTwitterHandle (politicianId : Z) (twitterHandle : string) : M bool :=
  try_catch
    (let cleanHandle :=
       if JS.startsWith "@" twitterHandle then JS.substring1 twitterHandle
       else twitterHandle in
     statement (UPDATE Politicians) (writing (update_twitter politicianId cleanHandle));;
     ret true)
    (fun _ => throw (JsError "Failed to update Twitter handle")).

End TwitterScraper.

(** ** The database utilities ([src/db/utils.ts]) *)

Module DbUtils.

(** [executeTransaction]: the callback is handed the client the transaction
    is open on; what it does through that client is [query], what it does
    through the pool is [statement]. *)
Definition executeTransaction {A} (callback : M A) : M A :=
  getClient;;
  finally
    (try_catch
       (begin;;
        let* result := callback in
        commit;;
        ret result)
       (fun error => rollback;; throw error))
    release.

End DbUtils.

(** ** Vocabulary of the statements *)

Import TwitterApi.

(** *** The rate-limited fetch, one request at a time *)

Definition quota_wait (w : world) : list event :=
  if quota_exhausted (now w) (rateLimitInfo w)
  then [Sleep ((fun at_ => at_ - now w + 1000) <$> reset (rateLimitInfo w))]
  else [].

Definition waited (w : world) : world :=
  if quota_exhausted (now w) (rateLimitInfo w)
  then let ms := (fun at_ => at_ - now w + 1000) <$> reset (rateLimitInfo w) in
       set_now (now w + Z.max 0 (default 0 ms)) (logged (Sleep ms) w)
  else w.

Definition answered (url : string) (t : Z) (r : response) (w : world) : world :=
  let w1 := called (logged (Fetch url) w) in
  set_rateLimitInfo (update_rate_limit t r (rateLimitInfo w1)) w1.

Definition backed_off (ms : JS.num) (w : world) : world :=
  set_now (now w + Z.max 0 (default 0 ms)) (logged (Sleep ms) w).

Definition quota_pause (q : list event) : Prop :=
  q = [] ∨ ∃ ms, q = [Sleep ms].

Definition retried (url : string) (r : response) (n : nat) (w : world) : world :=
  backed_off (retry_delay r n) (answered url (now w) r (waited w)).

(** *** The two stores of the fetch layer *)

(** What [cache.get(key)] answers at time [t]. *)
Definition cached (t : Z) (key : string) (w : world) : option CacheItem :=
  (lru_get t key (cache w)).1.

(** The world after the [cache.get(key)] that opens [getCachedOrFetch]. *)
Definition looked_up (key : string) (w : world) : world :=
  set_caches (lru_get (now w) key (cache w)).2 (staleCache w) w.

(** The world in which [fetchFn] starts on a miss. *)
Definition marked (key : string) (w : world) : world :=
  logged (Compute key) (looked_up key w).

(** The world after a hit: the item is copied to the stale store. *)
Definition served (key : string) (item : CacheItem) (w : world) : world :=
  let w1 := looked_up key w in
  set_caches (cache w1) (<[key := item]> (staleCache w1)) w1.

(** The world after a fresh value [d] was stored in both stores; [w] is the
    world in which [fetchFn] returned. *)
Definition stored (key : string) (d : any) (w : world) : world :=
  let cacheItem := {| data := d; timestamp := now w |} in
  set_caches (lru_set (now w) key cacheItem (cache w))
    (<[key := cacheItem]> (staleCache w)) w.

Definition stale_warning (key : string) : event :=
  Warn ("Using stale cached data for " ++ key ++ " due to fetch error")%string.

(** Every entry of the primary cache has its item in the stale store. *)
Definition cache_inv (w : world) : Prop :=
  ∀ e, e ∈ cache w → staleCache w !! l_key e = Some (l_value e).

(** A step that at most removes entries from the primary cache. *)
Definition shrinks (w w' : world) : Prop :=
  staleCache w' = staleCache w ∧ cache w' ⊆ cache w.

(** [m] relates the world it starts in to the world it ends in, whether it
    returns or throws. *)
Definition keeps {A} (R : world → world → Prop) (m : M A) : Prop :=
  ∀ w, R w (m w).2.

(** A step that leaves both stores as they are. *)
Definition same_stores (w w' : world) : Prop :=
  cache w' = cache w ∧ staleCache w' = staleCache w.

(** The runs of the fetch layer as far as the two stores go, each with the
    value last returned for every key. *)
Inductive run : world → gmap string any → Prop :=
  | run_start w :
      cache w = [] → staleCache w = ∅ → run w ∅
  | run_getCachedOrFetch w L key fetchFn :
      run w L → keeps same_stores fetchFn →
      run (getCachedOrFetch key fetchFn w).2
          (match (getCachedOrFetch key fetchFn w).1 with
           | Returned v => <[key := v]> L
           | Thrown _ => L
           end)
  | run_saveTweetsToDatabase w L tweetData politicianId :
      run w L → run (saveTweetsToDatabase tweetData politicianId w).2 L
  | run_checkAndFixTwitterHandles w L :
      run w L → run (checkAndFixTwitterHandles w).2 L
  | run_other w w' L :
      run w L → cache w' = cache w → staleCache w' = staleCache w → run w' L.


(** *** The user lookup *)

(** The cache key of a user lookup. *)
Definition user_key (username : string) : string :=
  ("twitter_user_" ++ JS.toLowerCase (cleanUsername username))%string.

(** The address of a user lookup. *)
Definition user_url (username : string) : string :=
  (TWITTER_API_BASE ++ "/users/by/username/" ++ cleanUsername username)%string.

(** A world whose first response is a 401 that names an authorization
    failure. *)
Definition unauthorized : response :=
  {| status := 401; statusText := "Unauthorized";
     x_rate_limit_remaining := None; x_rate_limit_reset := None; retry_after := None;
     body := Some {| errors := Some [{| e_title := Some "Unauthorized";
                                        e_message := Some "Unauthorized" |}];
                     data_id := None |} |}.

Definition fresh_world (net : nat → option response) : world :=
  {| committed := empty_database; tx := None; db_fails := fun _ => false; stmts := 0;
     now := 1000; cache := []; staleCache := ∅;
     rateLimitInfo := {| remaining := Some 300; reset := Some 901000; lastUpdated := 1000 |};
     network := net; calls := 0; TWITTER_API_KEY := Some "key"; log := [] |}.


(** *** The store under the ingestion *)

Definition no_faults (w : world) : Prop := ∀ k, db_fails w k = false.

(** The tuples [saveTweetsToDatabase] inserts for a batch, from the store
    it finds. *)
Definition tweets_to_insert (tweetData : list api_tweet) (politicianId : Z)
    (d : database) : list tweet_values :=
  new_values (id_set (select_tweet_ids politicianId d)) politicianId tweetData.

Definition saved_tweets_log (n : nat) : list event :=
  [Connect; Query BEGIN; Query (SELECT Tweets)] ++
  match n with
  | O => []
  | S _ => [Query (INSERT Tweets n)]
  end ++ [Query COMMIT; Release].

(** The batch of updates and the details the fix-up derives from the store. *)
Definition handle_fixes (d : database) : list handle_update * list detail :=
  fold_left check_row (select_handles d) ([], []).

Definition fixed_handles_log (n : nat) : list event :=
  [Connect; Query BEGIN; Query (SELECT Politicians)] ++
  match n with
  | O => []
  | S _ => [Query (UPDATE Politicians)]
  end ++ [Query COMMIT; Release].

Import VoteScraper.

(** The politician a vote is filed under: the first row with the name, case
    folded, its party overwritten; a new row when there is none. *)
Definition upsert_politician (name party : string) (ts : Z) (d : database) : Z * database :=
  match select_politician_by_name name d with
  | [] => insert_politician name party ts d
  | id :: _ => (id, update_party id party d)
  end.

(** What a [saveVote] whose statements all succeed does to the store. *)
Definition saveVote_db (sessionId : Z) (name party value : string) (ts : Z)
    (d : database) : database :=
  let '(politicianId, d1) := upsert_politician name party ts d in
  match select_vote sessionId politicianId d1 with
  | id :: _ => update_vote id value d1
  | [] => increment_vote_count sessionId (insert_vote sessionId politicianId value ts d1)
  end.

(** What a [saveVotingSession] whose statements all succeed does to the
    store; a session id that is not a number is rejected. *)
Definition saveVotingSession_db (sessionId title date : string) (ts : Z)
    (d : database) : database :=
  match JS.parseInt sessionId with
  | Some id =>
      match select_session id d with
      | [] => (insert_session id sessionId title date ts d).2
      | _ => d
      end
  | None => d
  end.

(** At most one vote per politician and session. *)
Definition unique_votes (d : database) : Prop :=
  NoDup ((fun v => (v_politician_id v, v_session_id v)) <$> votes d).

(** The vote rows of a politician in a session. *)
Definition vote_rows (sessionId politicianId : Z) (d : database) : list vote :=
  filter (fun v => vote_matches sessionId politicianId v = true) (votes d).

(** The states the ingestion can reach from an empty votes table, whatever
    fails on the way. *)
Inductive reachable : world → Prop :=
  | reach_empty w :
      votes (committed w) = [] → reachable w
  | reach_saveVote w sessionId name party value :
      reachable w → reachable (saveVote sessionId name party value w).2
  | reach_saveVotingSession w sessionId title date :
      reachable w → reachable (saveVotingSession sessionId title date w).2
  | reach_other w w' :
      reachable w → votes (committed w') = votes (committed w) → reachable w'.

(** The world [w] with a database that fails the [k]-th round trip from
    now on and no other. *)
Definition failing_at (k : nat) (w : world) : world :=
  {| committed := committed w; tx := tx w;
     db_fails := fun i => Nat.eqb i (k + stmts w);
     stmts := stmts w; now := now w; cache := cache w; staleCache := staleCache w;
     rateLimitInfo := rateLimitInfo w; network := network w; calls := calls w;
     TWITTER_API_KEY := TWITTER_API_KEY w; log := log w |}.

(** A store with session 12 and no vote yet. *)
Definition session_12 : world :=
  (saveVotingSession "12" "Budget" "2024-01-01" (fresh_world (fun _ => None))).2.

(** *** The tweets table and the batch report *)

(** The columns an insert supplies for a tweet row. *)
Definition tweet_columns (t : tweet) : tweet_values :=
  (t_tweet_id t, t_politician_id t, t_text t, t_created_at t).

(** The rows of the tweets table with a given politician and external id. *)
Definition tweet_rows (politicianId : Z) (tweetId : string) (d : database) : list tweet :=
  filter (fun t => t_politician_id t = politicianId ∧ t_tweet_id t = tweetId) (tweets d).

(** An entry of the batch report counts as skipped what the batch held and
    the save did not insert. *)
Definition detail_balanced (d : TwitterScraper.fetch_detail) : Prop :=
  TwitterScraper.skippedTweets d = TwitterScraper.totalTweets d - TwitterScraper.newTweets d.

Definition sum_of (l : list Z) : Z := foldr Z.add 0 l.

(** The number of politicians whose entry carries no error. *)
Definition without_error (l : list TwitterScraper.fetch_detail) : Z :=
  Z.of_nat (length (filter (fun d => TwitterScraper.error_ d = None) l)).

(** The totals of a batch report add up its entries. *)
Definition report_consistent (r : TwitterScraper.FetchResults) : Prop :=
  Forall detail_balanced (TwitterScraper.fetch_details r) ∧
  TwitterScraper.totalSkippedTweets r =
    sum_of (TwitterScraper.skippedTweets <$> TwitterScraper.fetch_details r) ∧
  TwitterScraper.totalNewTweets r =
    sum_of (TwitterScraper.newTweets <$> TwitterScraper.fetch_details r) ∧
  TwitterScraper.processedPoliticians r = without_error (TwitterScraper.fetch_details r).

(** A batch of two tweets for politician 1, the first of them stored
    already. *)
Definition two_tweets : list api_tweet :=
  [{| a_id := "100"; a_text := "first"; a_created_at := "2024-01-01T00:00:00Z";
      a_url := "https://twitter.com/a/status/100" |};
   {| a_id := "101"; a_text := "second"; a_created_at := "2024-01-02T00:00:00Z";
      a_url := "https://twitter.com/a/status/101" |}].

Definition one_stored : world :=
  (saveTweetsToDatabase (take 1 two_tweets) 1 (fresh_world (fun _ => None))).2.

(** *** The handle fix-up *)

(** The character [c] occurs in [s]. *)
Fixpoint has (c : ascii) (s : string) : bool :=
  match s with
  | EmptyString => false
  | String d s' => bool_decide (c = d) || has c s'
  end.

(** The steps of the handle clean-up, one by one. *)
Definition after_prefix (sep s : string) : string :=
  if JS.includes sep s then JS.pop (JS.split sep s) else s.

Definition before_path (s : string) : string :=
  if JS.includes "/" s || JS.includes "?" s
  then JS.first (JS.split "?" (JS.first (JS.split "/" s)))
  else s.

Definition without_at (s : string) : string :=
  if JS.startsWith "@" s then JS.substring1 s else s.

(** A bare user name: no path, no query, no leading [@], no white space
    around it. *)
Definition bare_handle (s : string) : Prop :=
  has "/" s = false ∧ has "?" s = false ∧ JS.startsWith "@" s = false ∧ JS.trim s = s.

(** The update the fix-up queues for a selected row, if any. *)
Definition queued (row : handle_row) : option handle_update :=
  let '(twitterHandle, fixed) := fixHandle (h_twitter_handle row) in
  if fixed && JS.truthy twitterHandle
  then Some {| u_id := h_id row; u_handle := twitterHandle;
               u_original := h_twitter_handle row |}
  else None.

(** The entry the fix-up reports for a selected row. *)
Definition reported (row : handle_row) : detail :=
  let '(twitterHandle, fixed) := fixHandle (h_twitter_handle row) in
  {| d_id := h_id row; d_name := h_name row; d_original := h_twitter_handle row;
     d_fixed := if fixed then Some twitterHandle else None;
     d_status := if fixed then "fixed" else "ok" |}.

(** A politician's row after the fix-up. *)
Definition fixed_row (p : politician) : politician :=
  match p_twitter_handle p with
  | Some h =>
      let '(twitterHandle, fixed) := fixHandle h in
      if fixed && JS.truthy twitterHandle
      then {| p_id := p_id p; p_name := p_name p; p_party := p_party p;
              p_twitter_handle := Some twitterHandle; p_created_at := p_created_at p |}
      else p
  | None => p
  end.

(** The update queued for a politician's own row. *)
Definition own_update (p : politician) : option handle_update :=
  match p_twitter_handle p with
  | Some h => queued {| h_id := p_id p; h_name := p_name p; h_twitter_handle := h |}
  | None => None
  end.

(** A store with three politicians: a handle given as a link to a post, a
    handle that is in order, and no handle. *)
Definition three_politicians : world :=
  set_store
    (with_politicians empty_database
       [{| p_id := 1; p_name := "John Doe"; p_party := Some "A";
           p_twitter_handle := Some "https://x.com/JohnDoe/status/123?x=1";
           p_created_at := 0 |};
        {| p_id := 2; p_name := "Jane Doe"; p_party := Some "B";
           p_twitter_handle := Some "janedoe"; p_created_at := 0 |};
        {| p_id := 3; p_name := "Jim Doe"; p_party := None;
           p_twitter_handle := None; p_created_at := 0 |}] 4)
    None (fresh_world (fun _ => None)).

(** *** Worlds for the instances *)

(** A 429 that names a wait of two seconds, a 429 that names none, and a
    200 with a user id. *)
Definition too_many_requests (retryAfter : option string) : response :=
  {| status := 429; statusText := "Too Many Requests";
     x_rate_limit_remaining := Some "0"; x_rate_limit_reset := None;
     retry_after := retryAfter; body := None |}.

Definition found_user : response :=
  {| status := 200; statusText := "OK";
     x_rate_limit_remaining := Some "299"; x_rate_limit_reset := None;
     retry_after := None;
     body := Some {| errors := None; data_id := Some "12" |} |}.

(** Three 429 responses, then a success. *)
Definition throttled : world :=
  fresh_world (fun k => match k with
                        | O => Some (too_many_requests (Some "2"))
                        | 1%nat | 2%nat => Some (too_many_requests None)
                        | _ => Some found_user
                        end).

(** A world that holds a last known good value for a key and nothing in the
    primary cache. *)
Definition stale_only : world :=
  set_caches [] {[ "tweet_stats" := {| data := Str "last known good"; timestamp := 10 |} ]}
    (fresh_world (fun _ => None)).

(** Ten minutes and one millisecond later. *)
Definition later (t : Z) (w : world) : world := set_now (now w + t) w.

(** *** Ingestion batches *)

(** A call of an ingestion batch. *)
Inductive call :=
  | SaveVotingSession (sessionId title date : string)
  | SaveVote (sessionId : Z) (name party value : string)
  | SaveTweets (tweetData : list api_tweet) (politicianId : Z).

(** One call of a batch; a call that throws is skipped. *)
Definition perform (c : call) : M unit :=
  try_catch
    (match c with
     | SaveVotingSession sessionId title date =>
         saveVotingSession sessionId title date;; ret tt
     | SaveVote sessionId name party value =>
         saveVote sessionId name party value;; ret tt
     | SaveTweets tweetData politicianId =>
         saveTweetsToDatabase tweetData politicianId;; ret tt
     end)
    (fun _ => ret tt).

(** Applying a batch: its calls in order. *)
Fixpoint ingest (batch : list call) : M unit :=
  match batch with
  | [] => ret tt
  | c :: rest => perform c;; ingest rest
  end.

(** What a call whose statements all succeed does to the store. *)
Definition apply_call (ts : Z) (c : call) (d : database) : database :=
  match c with
  | SaveVotingSession sessionId title date => saveVotingSession_db sessionId title date ts d
  | SaveVote sessionId name party value => saveVote_db sessionId name party value ts d
  | SaveTweets tweetData politicianId =>
      insert_tweets (tweets_to_insert tweetData politicianId d) d
  end.

Fixpoint apply_batch (ts : Z) (batch : list call) (d : database) : database :=
  match batch with
  | [] => d
  | c :: rest => apply_batch ts rest (apply_call ts c d)
  end.

(** Rows with an identifier, columns that never change ([skel]) and one
    column that an upsert overwrites ([field]). *)
Section Rows.
Context {A K V : Type} (skel : A → K) (ident : A → Z) (field : A → V).

(** [f] is the row [d] later on: only rows with an identifier in [T] may
    differ in the field. *)
Definition kept (T : list Z) (d f : A) : Prop :=
  skel d = skel f ∧ (ident d ∈ T ∨ field f = field d).

(** [x] agrees with [f] but for the field of rows with an identifier in [T]. *)
Definition close (T : list Z) (x f : A) : Prop :=
  skel x = skel f ∧ (ident f ∈ T ∨ field x = field f).

(** The table [F] is the table [D] later on: the rows of [D] in place,
    followed by rows with identifiers from [q] on. *)
Inductive extends (T : list Z) (q : Z) : list A → list A → Prop :=
  | extends_new l :
      Forall (fun f => q ≤ ident f) l → extends T q [] l
  | extends_row d f ds fs :
      kept T d f → extends T q ds fs → extends T q (d :: ds) (f :: fs).

(** The identifiers of the first row a lookup with [limit 1] finds. *)
Definition sel (m : K → bool) (l : list A) : list Z :=
  take 1 (ident <$> filter (fun a => m (skel a) = true) l).

End Rows.

(** The columns of a politician that the ingestion never changes. *)
Definition skel_p (p : politician) : Z * string * option string * Z :=
  (p_id p, p_name p, p_twitter_handle p, p_created_at p).

(** The columns of a vote that the ingestion never changes. *)
Definition skel_v (v : vote) : Z * Z * Z * Z :=
  (v_id v, v_session_id v, v_politician_id v, v_created_at v).

Definition m_name (name : string) (k : Z * string * option string * Z) : bool :=
  bool_decide (JS.toLowerCase (snd (fst (fst k))) = JS.toLowerCase name).

Definition m_vote (sessionId politicianId : Z) (k : Z * Z * Z * Z) : bool :=
  bool_decide (snd (fst (fst k)) = sessionId) && bool_decide (snd (fst k) = politicianId).

(** The primary keys are below the sequences they are drawn from. *)
Definition sequences_ahead (d : database) : Prop :=
  Forall (fun p => p_id p < politicians_seq d) (politicians d) ∧
  Forall (fun v => v_id v < votes_seq d) (votes d).

(** The vote row a [saveVote] writes: the one it finds, or the next of the
    sequence. *)
Definition vote_target (sessionId politicianId : Z) (d : database) : Z :=
  match select_vote sessionId politicianId d with
  | id :: _ => id
  | [] => votes_seq d
  end.

(** The politician rows and the vote rows a call writes. *)
Definition targets_p (ts : Z) (c : call) (d : database) : list Z :=
  match c with
  | SaveVote sessionId name party value => [(upsert_politician name party ts d).1]
  | _ => []
  end.

Definition targets_v (ts : Z) (c : call) (d : database) : list Z :=
  match c with
  | SaveVote sessionId name party value =>
      [vote_target sessionId (upsert_politician name party ts d).1
         (upsert_politician name party ts d).2]
  | _ => []
  end.

Fixpoint batch_targets_p (ts : Z) (batch : list call) (d : database) : list Z :=
  match batch with
  | [] => []
  | c :: rest => targets_p ts c d ++ batch_targets_p ts rest (apply_call ts c d)
  end.

Fixpoint batch_targets_v (ts : Z) (batch : list call) (d : database) : list Z :=
  match batch with
  | [] => []
  | c :: rest => targets_v ts c d ++ batch_targets_v ts rest (apply_call ts c d)
  end.

(** The store [F] is the store [D] after more calls that write the rows
    [Tp] and [Tv]. *)
Definition db_extends (Tp Tv : list Z) (D F : database) : Prop :=
  extends skel_p p_id p_party Tp (politicians_seq D) (politicians D) (politicians F) ∧
  extends skel_v v_id v_vote Tv (votes_seq D) (votes D) (votes F) ∧
  politicians_seq D ≤ politicians_seq F ∧ votes_seq D ≤ votes_seq F ∧
  (∀ id, id ∈ s_id <$> voting_sessions D → id ∈ s_id <$> voting_sessions F) ∧
  (∀ t, t ∈ tweets D → t ∈ tweets F).

(** The store [X] is the store [F] but for the party of the politicians
    [Tp] and the value of the votes [Tv]. *)
Definition db_agree (Tp Tv : list Z) (X F : database) : Prop :=
  Forall2 (close skel_p p_id p_party Tp) (politicians X) (politicians F) ∧
  Forall2 (close skel_v v_id v_vote Tv) (votes X) (votes F) ∧
  politicians_seq X = politicians_seq F ∧ votes_seq X = votes_seq F ∧
  voting_sessions X = voting_sessions F ∧
  tweets X = tweets F ∧ tweets_seq X = tweets_seq F.

Definition tweet_of (i : string) : api_tweet :=
  {| a_id := i; a_text := "text"; a_created_at := "2024-01-01T00:00:00Z";
     a_url := "https://twitter.com/a/status/1" |}.

(** A batch that meets a politician under two spellings and two parties,
    votes before the session is there, a session id that is not a number,
    and tweets sent twice. *)
Definition mixed_batch : list call :=
  [SaveVote 12 "Alice" "ODS" "yes";
   SaveVotingSession "12" "Budget" "2024-01-01";
   SaveVote 12 "ALICE" "ANO" "no";
   SaveVote 12 "Bob" "ODS" "yes";
   SaveVotingSession "x" "Broken" "2024-01-01";
   SaveTweets [tweet_of "1"; tweet_of "2"] 1;
   SaveTweets [tweet_of "2"; tweet_of "3"] 1;
   SaveVote 12 "bob" "STAN" "abstain"].

(** *** The fix-up and the batch run of [lib/twitter-scraper.ts] *)

(** The update the module's fix-up issues for a selected politician, if
    any: the id and the cleaned handle. *)
Definition lib_queued (p : TwitterScraper.Politician) : option (Z * string) :=
  let '(twitterHandle, fixed_) := TwitterScraper.fixHandle (TwitterScraper.twitter p) in
  if fixed_ && bool_decide (twitterHandle ≠ TwitterScraper.twitter p)
  then Some (TwitterScraper.id p, twitterHandle)
  else None.

(** The entry the module's fix-up reports for a selected politician, if any. *)
Definition lib_reported (p : TwitterScraper.Politician) : option TwitterScraper.fix_detail :=
  (fun u => {| TwitterScraper.f_id := TwitterScraper.id p;
               TwitterScraper.f_name := TwitterScraper.name p;
               TwitterScraper.f_original := TwitterScraper.twitter p;
               TwitterScraper.f_fixed := u.2 |}) <$> lib_queued p.

(** The updates of a list, one statement each, in order. *)
Definition apply_updates (updates : list (Z * string)) (d : database) : database :=
  fold_left (fun d u => TwitterScraper.update_twitter u.1 u.2 d) updates d.

(** The body of the loop of the module's fix-up. *)
Definition lib_fix_body (results : TwitterScraper.fix_results)
    (politician : TwitterScraper.Politician) : M TwitterScraper.fix_results :=
  let originalHandle := TwitterScraper.twitter politician in
  let '(twitterHandle, fixed_) := TwitterScraper.fixHandle originalHandle in
  if fixed_ && bool_decide (twitterHandle ≠ originalHandle) then
    statement (UPDATE Politicians)
      (writing (TwitterScraper.update_twitter (TwitterScraper.id politician) twitterHandle));;
    ret {| TwitterScraper.total := TwitterScraper.total results;
           TwitterScraper.fixed := S (TwitterScraper.fixed results);
           TwitterScraper.details := TwitterScraper.details results ++
             [{| TwitterScraper.f_id := TwitterScraper.id politician;
                 TwitterScraper.f_name := TwitterScraper.name politician;
                 TwitterScraper.f_original := originalHandle;
                 TwitterScraper.f_fixed := twitterHandle |}] |}
  else ret results.

(** A politician's row after the module's fix-up. *)
Definition lib_fixed_row (p : politician) : politician :=
  match p_twitter_handle p with
  | Some h =>
      let '(twitterHandle, fixed_) := TwitterScraper.fixHandle h in
      if JS.truthy h && fixed_ && bool_decide (twitterHandle ≠ h)
      then {| p_id := p_id p; p_name := p_name p; p_party := p_party p;
              p_twitter_handle := Some twitterHandle; p_created_at := p_created_at p |}
      else p
  | None => p
  end.

(** The update the module's fix-up issues for a politician's own row. *)
Definition lib_own_update (p : politician) : option (Z * string) :=
  match p_twitter_handle p with
  | Some h =>
      if JS.truthy h
      then lib_queued {| TwitterScraper.id := p_id p; TwitterScraper.name := p_name p;
                         TwitterScraper.twitter := h |}
      else None
  | None => None
  end.

(** An entry of the batch report that carries an error with a given text
    in its message. *)
Definition error_includes (s : string) (d : TwitterScraper.fetch_detail) : bool :=
  match TwitterScraper.error_ d with
  | Some m => JS.includes s m
  | None => false
  end.

(** A store with two politicians whose handles are links. *)
Definition two_links : world :=
  set_store
    (with_politicians empty_database
       [{| p_id := 1; p_name := "John Doe"; p_party := Some "A";
           p_twitter_handle := Some "https://x.com/JohnDoe"; p_created_at := 0 |};
        {| p_id := 2; p_name := "Jane Doe"; p_party := Some "B";
           p_twitter_handle := Some "https://twitter.com/janedoe"; p_created_at := 0 |}] 3)
    None (fresh_world (fun _ => None)).

(** *** Transactions of [src/db/utils.ts] *)

(** A callback that works through the client of the transaction only:
    while a transaction is open on the client, it leaves the committed state
    alone and the transaction open. *)
Definition through_client {A} (callback : M A) : Prop :=
  ∀ w, tx w ≠ None → committed (callback w).2 = committed w ∧ tx (callback w).2 ≠ None.

(** The world in which the callback of [executeTransaction] starts, when
    the connection and the BEGIN succeeded. *)
Definition in_transaction (w : world) : world :=
  set_store (committed w) (Some (committed w))
    (round_trip (logged (Query BEGIN) (round_trip (logged Connect w)))).

(** A primary cache within its bounds: at most [CACHE_MAX] entries, one for
    a key. *)
Definition lru_ok (c : lru) : Prop :=
  (length c ≤ CACHE_MAX)%nat ∧ NoDup (l_key <$> c).

(** *** Fetching the tweets of a user *)

(** The message [fetchUserTweets] throws when the user lookup gave nothing. *)
Definition no_user_id (username : string) : error :=
  JsError ("Could not find user ID for username: " ++ username ++
           ". This may be due to an invalid Twitter API key or " ++
           "the username doesn't exist.")%string.

(** The cache key and the address of the request for the tweets of a user. *)
Definition tweets_key (userId : string) (maxResults : Z) : string :=
  ("tweets_" ++ userId ++ "_" ++ show maxResults)%string.

Definition tweets_url (userId : string) (maxResults : Z) : string :=
  ((TWITTER_API_BASE ++ "/users/" ++ userId ++ "/tweets") ++ "?" ++
   "max_results=" ++ show (Z.min maxResults 100) ++
   "&tweet.fields=created_at&exclude=retweets%2Creplies")%string.

(** A tweet of the API in the form the fetch layer hands on. *)
Definition shaped (username : string) (tweet : raw_tweet) : api_tweet :=
  {| a_id := w_id tweet; a_text := w_text tweet; a_created_at := w_created_at tweet;
     a_url := ("https://twitter.com/" ++ username ++ "/status/" ++ w_id tweet)%string |}.

(** *** Worlds for the further instances *)

(** A world whose tracked quota is used up until time 5000. *)
Definition exhausted : world :=
  set_rateLimitInfo {| remaining := Some 0; reset := Some 5000; lastUpdated := 0 |}
    (fresh_world (fun _ => Some found_user)).

(** A world without an API key. *)
Definition no_key : world :=
  {| committed := empty_database; tx := None; db_fails := fun _ => false; stmts := 0;
     now := 1000; cache := []; staleCache := ∅;
     rateLimitInfo := {| remaining := Some 300; reset := Some 901000; lastUpdated := 1000 |};
     network := fun _ => None; calls := 0; TWITTER_API_KEY := None; log := [] |}.

(** A world that has statistics in its cache. *)
Definition with_stats : world :=
  (getCachedOrFetch "tweet_stats" (ret (Str "41 tweets")) (fresh_world (fun _ => None))).2.

(** A tweets response with one tweet, and the reading of its body. *)
Definition one_tweet : response :=
  {| status := 200; statusText := "OK";
     x_rate_limit_remaining := Some "298"; x_rate_limit_reset := None;
     retry_after := None;
     body := Some {| errors := None; data_id := None |} |}.

Definition one_tweet_data (p : payload) : option (list raw_tweet) :=
  Some [{| w_id := "7"; w_text := "hello"; w_created_at := "2024-01-01T00:00:00Z" |}].

(** A world that knows the user id of jack and is about to get a tweets
    response. *)
Definition knows_jack : world :=
  (getUserIdFromUsername "jack"
     (fresh_world (fun k => match k with
                            | O => Some found_user
                            | _ => Some one_tweet
                            end))).2.

(** ** The rate-limited fetch *)

Lemma waited_facts w :
  calls (waited w) = calls w ∧ network (waited w) = network w ∧
  log (waited w) = log w ++ quota_wait w.
Proof.
  unfold waited, quota_wait. destruct (quota_exhausted _ _); simpl.
  - done.
  - by rewrite app_nil_r.
Qed.

Lemma rateLimitedFetch_from_unfold left url n w :
  rateLimitedFetch_from left url n w =
  match network w (calls w) with
  | None => (Thrown (NetError (calls w)), called (logged (Fetch url) (waited w)))
  | Some r =>
      let w1 := answered url (now w) r (waited w) in
      if bool_decide (status r = 429) then
        match left with
        | O => (Thrown rate_limit_exceeded, w1)
        | S left' => rateLimitedFetch_from left' url (S n) (backed_off (retry_delay r n) w1)
        end
      else (Returned r, w1)
  end.
Proof.
  destruct left; unfold waited, answered, backed_off; simpl;
  unfold bind, get, try_catch, modify, sleep, ret, fetch, throw; simpl;
  destruct (quota_exhausted (now w) (rateLimitInfo w)); simpl;
  destruct (network w (calls w)) as [r|]; simpl; try reflexivity;
  destruct (bool_decide (status r = 429)); simpl; try reflexivity.
  all: match goal with |- context [rateLimitedFetch_from ?l ?u ?k ?x] => destruct (rateLimitedFetch_from l u k x) as [[a|e] w'] end; reflexivity.
Qed.

Lemma quota_wait_pause w : quota_pause (quota_wait w).
Proof. unfold quota_wait. destruct (quota_exhausted _ _); [right; eauto | by left]. Qed.

Lemma rateLimitedFetch_unfold url n w :
  rateLimitedFetch url n w =
  match network w (calls w) with
  | None => (Thrown (NetError (calls w)), called (logged (Fetch url) (waited w)))
  | Some r =>
      let w1 := answered url (now w) r (waited w) in
      if bool_decide (status r = 429) then
        if (MAX_RETRIES <=? n)%nat then (Thrown rate_limit_exceeded, w1)
        else rateLimitedFetch url (S n) (backed_off (retry_delay r n) w1)
      else (Returned r, w1)
  end.
Proof.
  unfold rateLimitedFetch. rewrite rateLimitedFetch_from_unfold.
  destruct (network w (calls w)) as [r|]; [|done]. cbv zeta.
  destruct (bool_decide (status r = 429)); [|done].
  destruct (Nat.leb_spec MAX_RETRIES n) as [E|E].
  - by replace (MAX_RETRIES - n)%nat with O by lia.
  - by replace (MAX_RETRIES - n)%nat with (S (MAX_RETRIES - S n)) by lia.
Qed.

Lemma retried_facts url r n w :
  calls (retried url r n w) = S (calls w) ∧ network (retried url r n w) = network w ∧
  log (retried url r n w) = log w ++ quota_wait w ++ [Fetch url; Sleep (retry_delay r n)].
Proof.
  destruct (waited_facts w) as (Hc & Hn & Hl). unfold retried, backed_off, answered. simpl.
  rewrite Hc, Hn, Hl. by rewrite <- !app_assoc.
Qed.

Lemma retry_step url n w r :
  network w (calls w) = Some r → status r = 429 → (n < MAX_RETRIES)%nat →
  rateLimitedFetch url n w = rateLimitedFetch url (S n) (retried url r n w).
Proof.
  intros N St Hn. rewrite rateLimitedFetch_unfold, N. cbv zeta.
  rewrite bool_decide_true by done.
  destruct (Nat.leb_spec MAX_RETRIES n); [lia | done].
Qed.

Lemma last_step url n w r :
  network w (calls w) = Some r → (MAX_RETRIES <= n)%nat →
  rateLimitedFetch url n w =
  (if bool_decide (status r = 429) then Thrown rate_limit_exceeded else Returned r,
   answered url (now w) r (waited w)).
Proof.
  intros N Hn. rewrite rateLimitedFetch_unfold, N. cbv zeta.
  destruct (Nat.leb_spec MAX_RETRIES n); [|lia].
  by destruct (bool_decide (status r = 429)).
Qed.

Theorem rate_limit_backoff (w : world) (url : string) (r1 r2 r3 r4 : response) :
  network w (calls w) = Some r1 → status r1 = 429 →
  network w (1 + calls w)%nat = Some r2 → status r2 = 429 →
  network w (2 + calls w)%nat = Some r3 → status r3 = 429 →
  network w (3 + calls w)%nat = Some r4 →
  ∃ w' q1 q2 q3 q4,
    rateLimitedFetch url 0 w =
      (if bool_decide (status r4 = 429) then Thrown rate_limit_exceeded else Returned r4, w') ∧
    calls w' = (4 + calls w)%nat ∧
    log w' = log w ++ q1 ++ [Fetch url; Sleep (retry_delay r1 0)]
                   ++ q2 ++ [Fetch url; Sleep (retry_delay r2 1)]
                   ++ q3 ++ [Fetch url; Sleep (retry_delay r3 2)]
                   ++ q4 ++ [Fetch url] ∧
    quota_pause q1 ∧ quota_pause q2 ∧ quota_pause q3 ∧ quota_pause q4 ∧
    retry_delay r1 0 = (if present (retry_after r1)
                        then times1000 (JS.parseInt (default "" (retry_after r1)))
                        else Some 5000) ∧
    retry_delay r2 1 = (if present (retry_after r2)
                        then times1000 (JS.parseInt (default "" (retry_after r2)))
                        else Some 10000) ∧
    retry_delay r3 2 = (if present (retry_after r3)
                        then times1000 (JS.parseInt (default "" (retry_after r3)))
                        else Some 20000).
Proof.
  intros N1 S1 N2 S2 N3 S3 N4. simpl in N2, N3, N4.
  destruct (retried_facts url r1 0 w) as (C1 & E1 & L1).
  remember (retried url r1 0 w) as w1 eqn:W1.
  destruct (retried_facts url r2 1 w1) as (C2 & E2 & L2).
  remember (retried url r2 1 w1) as w2 eqn:W2.
  destruct (retried_facts url r3 2 w2) as (C3 & E3 & L3).
  remember (retried url r3 2 w2) as w3 eqn:W3.
  destruct (waited_facts w3) as (C4 & E4 & L4).
  exists (answered url (now w3) r4 (waited w3)),
         (quota_wait w), (quota_wait w1), (quota_wait w2), (quota_wait w3).
  split; [|split; [|split]].
  - rewrite (retry_step url 0 w r1), <- W1; [|done|done|unfold MAX_RETRIES; lia].
    rewrite (retry_step url 1 w1 r2), <- W2;
      [|by rewrite E1, C1|done|unfold MAX_RETRIES; lia].
    rewrite (retry_step url 2 w2 r3), <- W3;
      [|by rewrite E2, C2, E1, C1|done|unfold MAX_RETRIES; lia].
    apply last_step; [by rewrite E3, C3, E2, C2, E1, C1 | done].
  - unfold answered. simpl. rewrite C4, C3, C2, C1. lia.
  - unfold answered. simpl. rewrite L4, L3, L2, L1. by rewrite <- !app_assoc.
  - repeat split; try apply quota_wait_pause; unfold retry_delay;
      destruct (present _); reflexivity.
Qed.

(** ** The cache and its stale fallback *)

Lemma getCachedOrFetch_eq key fetchFn w :
  getCachedOrFetch key fetchFn w =
  match cached (now w) key w with
  | Some item => (Returned (data item), served key item w)
  | None =>
      match fetchFn (marked key w) with
      | (Returned d, w2) => (Returned d, stored key d w2)
      | (Thrown e, w2) =>
          match staleCache w2 !! key with
          | Some staleValue => (Returned (data staleValue), logged (stale_warning key) w2)
          | None => (Thrown e, w2)
          end
      end
  end.
Proof.
  unfold getCachedOrFetch, cached, served, marked, looked_up, bind, get. simpl.
  destruct (lru_get (now w) key (cache w)) as [[item|] c]; simpl; [done|].
  unfold try_catch, bind, emit, modify. simpl.
  destruct (fetchFn _) as [[d|e] w2]; simpl; [done|].
  unfold get. destruct (staleCache w2 !! key); done.
Qed.

Lemma cached_after_set t t0 k v c w :
  cache w = lru_set t0 k v c →
  cached t k w = if CACHE_TTL <? t - t0 then None else Some v.
Proof.
  intros E. unfold cached, lru_get, lru_find. rewrite E. unfold lru_set. simpl.
  rewrite bool_decide_true by done. unfold is_stale. simpl.
  by destruct (CACHE_TTL <? t - t0).
Qed.

(** C6 *)
Theorem stale_fallback (key : string) (fetchFn : M any) (w w2 : world) (e : error) :
  cached (now w) key w = None →
  fetchFn (marked key w) = (Thrown e, w2) →
  staleCache w2 = staleCache w →
  getCachedOrFetch key fetchFn w =
  match staleCache w !! key with
  | Some staleValue => (Returned (data staleValue), logged (stale_warning key) w2)
  | None => (Thrown e, w2)
  end.
Proof.
  intros Hmiss Hf Hs. rewrite getCachedOrFetch_eq, Hmiss, Hf, Hs. done.
Qed.

(** C7 *)
Theorem get_or_compute (key : string) (f1 f2 : M any) (w : world) :
  (∀ item,
     cached (now w) key w = Some item →
     getCachedOrFetch key f1 w = (Returned (data item), served key item w) ∧
     log (served key item w) = log w) ∧
  (∀ d w2,
     cached (now w) key w = None →
     f1 (marked key w) = (Returned d, w2) →
     getCachedOrFetch key f1 w = (Returned d, stored key d w2) ∧
     log (marked key w) = log w ++ [Compute key] ∧
     log (stored key d w2) = log w2 ∧
     (∀ t, cached t key (stored key d w2) =
           if CACHE_TTL <? t - now w2 then None
           else Some {| data := d; timestamp := now w2 |}) ∧
     (∀ w4,
        cache w4 = cache (stored key d w2) →
        getCachedOrFetch key f2 w4 =
        if CACHE_TTL <? now w4 - now w2
        then match f2 (marked key w4) with
             | (Returned d', w5) => (Returned d', stored key d' w5)
             | (Thrown e, w5) =>
                 match staleCache w5 !! key with
                 | Some staleValue =>
                     (Returned (data staleValue), logged (stale_warning key) w5)
                 | None => (Thrown e, w5)
                 end
             end
        else (Returned d, served key {| data := d; timestamp := now w2 |} w4))).
Proof.
  split.
  - intros item Hhit. by rewrite getCachedOrFetch_eq, Hhit.
  - intros d w2 Hmiss Hf. split; [by rewrite getCachedOrFetch_eq, Hmiss, Hf|].
    split; [done|]. split; [done|]. split.
    + intros t. by apply (cached_after_set t (now w2) key _ (cache w2)).
    + intros w4 Hc. rewrite getCachedOrFetch_eq.
      rewrite (cached_after_set (now w4) (now w2) key
                 {| data := d; timestamp := now w2 |} (cache w2)) by done.
      by destruct (CACHE_TTL <? now w4 - now w2).
Qed.

(** *** What a computation does to the two stores *)

Section Keeps.
Context (R : world → world → Prop) `{!PreOrder R}.

Lemma keeps_ret {A} (a : A) : keeps R (ret a).
Proof. intros w. simpl. reflexivity. Qed.

Lemma keeps_throw {A} (e : error) : keeps R (@throw A e).
Proof. intros w. simpl. reflexivity. Qed.

Lemma keeps_get : keeps R get.
Proof. intros w. simpl. reflexivity. Qed.

Lemma keeps_modify f : (∀ w, R w (f w)) → keeps R (modify f).
Proof. intros H w. apply H. Qed.

Lemma keeps_bind {A B} (m : M A) (k : A → M B) :
  keeps R m → (∀ a, keeps R (k a)) → keeps R (bind m k).
Proof.
  intros Hm Hk w. unfold bind. specialize (Hm w).
  destruct (m w) as [[a|e] w']; simpl in *; [|done].
  etrans; [exact Hm | apply Hk].
Qed.

Lemma keeps_try_catch {A} (m : M A) (h : error → M A) :
  keeps R m → (∀ e, keeps R (h e)) → keeps R (try_catch m h).
Proof.
  intros Hm Hh w. unfold try_catch. specialize (Hm w).
  destruct (m w) as [[a|e] w']; simpl in *; [done|].
  etrans; [exact Hm | apply Hh].
Qed.

Lemma keeps_finally {A} (m : M A) f :
  keeps R m → (∀ w, R w (f w)) → keeps R (finally m f).
Proof.
  intros Hm Hf w. unfold finally. specialize (Hm w).
  destruct (m w) as [r w']; simpl in *. etrans; [exact Hm | apply Hf].
Qed.
Lemma keeps_weaken {A} (R' : world → world → Prop) (m : M A) :
  (∀ w w', R' w w' → R w w') → keeps R' m → keeps R m.
Proof. intros H Hm w. apply H, Hm. Qed.
End Keeps.

Global Instance same_stores_preorder : PreOrder same_stores.
Proof.
  split.
  - by intros w.
  - intros a b c [C1 S1] [C2 S2]. split; congruence.
Qed.

Global Instance shrinks_preorder : PreOrder shrinks.
Proof.
  split.
  - intros w. split; [done | set_solver].
  - intros a b c [S1 C1] [S2 C2]. split; [congruence | set_solver].
Qed.

Lemma same_stores_shrinks w w' : same_stores w w' → shrinks w w'.
Proof. intros [Hc Hs]. split; [done | by rewrite Hc]. Qed.

Lemma statement_stores {A} q (f : database → A * database) :
  keeps same_stores (statement q f).
Proof.
  intros w. unfold statement. destruct (db_fails w (stmts w)); simpl; [done|].
  by destruct (f (committed w)).
Qed.

Lemma rejected_stores {A} q : keeps same_stores (@rejected A q).
Proof. by intros w. Qed.

Lemma query_stores {A} q (f : database → A * database) : keeps same_stores (query q f).
Proof.
  intros w. unfold query. destruct (db_fails w (stmts w)); simpl; [done|].
  destruct (tx w) as [t|]; [by destruct (f t) | by destruct (f (committed w))].
Qed.

Lemma getClient_stores : keeps same_stores getClient.
Proof. intros w. unfold getClient. by destruct (db_fails w (stmts w)). Qed.

Lemma begin_stores : keeps same_stores begin.
Proof. intros w. unfold begin. destruct (db_fails w (stmts w)); [|destruct (tx w)]; done. Qed.

Lemma commit_stores : keeps same_stores commit.
Proof. intros w. unfold commit. destruct (db_fails w (stmts w)); [|destruct (tx w)]; done. Qed.

Lemma rollback_stores : keeps same_stores rollback.
Proof. intros w. unfold rollback. by destruct (db_fails w (stmts w)). Qed.

Lemma emit_stores e : keeps same_stores (emit e).
Proof. by intros w. Qed.

Lemma sleep_stores ms : keeps same_stores (sleep ms).
Proof. by intros w. Qed.

Lemma fetch_stores url : keeps same_stores (fetch url).
Proof. intros w. unfold fetch. by destruct (network w (calls w)). Qed.

Lemma json_stores r : keeps same_stores (json r).
Proof. intros w. unfold json. by destruct (body r). Qed.

Lemma lru_without_subseteq k c : lru_without k c ⊆ c.
Proof. intros e. unfold lru_without. rewrite list_elem_of_filter. tauto. Qed.

Lemma delete_shrinks k w :
  shrinks w (set_caches (lru_delete k (cache w)) (staleCache w) w).
Proof. split; [done | apply lru_without_subseteq]. Qed.

(** Walks through a computation built from [bind], [try_catch] and
    [finally] down to its primitive steps. *)
Ltac keeps_walk :=
  repeat first
    [ apply keeps_ret; apply _
    | apply keeps_throw; apply _
    | apply keeps_get; apply _
    | apply keeps_bind; [apply _ | | intros ?]
    | apply keeps_try_catch; [apply _ | | intros ?]
    | apply keeps_finally; [apply _ | | intros ?]
    | match goal with |- keeps _ (match ?x with _ => _ end) => destruct x end
    | match goal with |- keeps _ (if ?x then _ else _) => destruct x end ].

Ltac keeps_stores :=
  keeps_walk;
  try first
    [ apply statement_stores | apply rejected_stores | apply query_stores
    | apply getClient_stores | apply begin_stores | apply commit_stores
    | apply rollback_stores | apply emit_stores | apply sleep_stores
    | apply fetch_stores | apply json_stores
    | by (apply keeps_modify; intros ?) | done ].

Ltac keeps_shrinks :=
  keeps_walk;
  try first
    [ apply (keeps_weaken _ same_stores); [apply same_stores_shrinks|];
      first [ apply statement_stores | apply query_stores | apply getClient_stores
            | apply begin_stores | apply commit_stores | apply rollback_stores ]
    | by apply same_stores_shrinks ].

Lemma saveTweetsToDatabase_shrinks tweetData politicianId :
  keeps shrinks (saveTweetsToDatabase tweetData politicianId).
Proof.
  unfold saveTweetsToDatabase. keeps_shrinks.
  apply keeps_modify. intros w.
  etrans; [apply (delete_shrinks "recent_tweets_10") |].
  split; [done | simpl; apply lru_without_subseteq].
Qed.

Lemma checkAndFixTwitterHandles_shrinks : keeps shrinks checkAndFixTwitterHandles.
Proof.
  unfold checkAndFixTwitterHandles. keeps_shrinks.
  all: try (apply keeps_modify; intros w; apply delete_shrinks).
Qed.

Lemma shrinks_inv w w' : shrinks w w' → cache_inv w → cache_inv w'.
Proof. intros [Hs Hc] Hi e He. rewrite Hs. apply Hi. set_solver. Qed.

Lemma lru_find_Some k c e : lru_find k c = Some e → e ∈ c ∧ l_key e = k.
Proof.
  unfold lru_find. intros H. apply find_some in H as [Hin Hk].
  split; [by apply list_elem_of_In | by apply bool_decide_eq_true in Hk].
Qed.

Lemma lru_get_subseteq t k c : (lru_get t k c).2 ⊆ c.
Proof.
  unfold lru_get. destruct (lru_find k c) as [e|] eqn:E; [|done].
  apply lru_find_Some in E as [Hin _].
  destruct (is_stale t e); simpl; [apply lru_without_subseteq|].
  intros x. rewrite elem_of_cons. intros [->|Hx]; [done | by apply lru_without_subseteq in Hx].
Qed.

Lemma lru_get_Some t k c item :
  (lru_get t k c).1 = Some item → ∃ e, e ∈ c ∧ l_key e = k ∧ l_value e = item.
Proof.
  unfold lru_get. destruct (lru_find k c) as [e|] eqn:E; [|done].
  apply lru_find_Some in E as [Hin Hk].
  destruct (is_stale t e); simpl; [done|]. intros [= <-]. eauto.
Qed.

Lemma looked_up_shrinks key w : shrinks w (looked_up key w).
Proof. split; [done | apply lru_get_subseteq]. Qed.

Lemma removelast_subseteq {A} (l : list A) : removelast l ⊆ l.
Proof.
  induction l as [|x l IH]; [done|]. simpl. destruct l; [set_solver|].
  intros y. rewrite elem_of_cons. intros [->|Hy]; [by left|right]. by apply IH.
Qed.

Lemma stored_inv key d w : cache_inv w → cache_inv (stored key d w).
Proof.
  intros Hi e. unfold stored. simpl. unfold lru_set. rewrite elem_of_cons.
  intros [->|He]; simpl; [by rewrite lookup_insert_eq|].
  assert (e ∈ lru_without key (cache w)) as He'.
  { destruct (CACHE_MAX <=? _)%nat; [by apply removelast_subseteq in He | done]. }
  unfold lru_without in He'. apply list_elem_of_filter in He' as [Hk Hin].
  rewrite lookup_insert_ne by done. by apply Hi.
Qed.

Lemma served_inv key item w :
  cached (now w) key w = Some item → cache_inv w → cache_inv (served key item w).
Proof.
  intros Hc Hi. apply lru_get_Some in Hc as (e0 & Hin0 & Hk0 & Hv0).
  pose proof (Hi e0 Hin0) as H0. rewrite Hk0, Hv0 in H0.
  intros e He. unfold served in *. simpl in *.
  rewrite insert_id by done. apply Hi. by apply lru_get_subseteq in He.
Qed.

Lemma cache_inv_ext w w' :
  cache w' = cache w → staleCache w' = staleCache w → cache_inv w → cache_inv w'.
Proof. intros Hc Hs Hi e. rewrite Hc, Hs. apply Hi. Qed.

Lemma marked_inv key w : cache_inv w → cache_inv (marked key w).
Proof.
  intros Hi. apply (cache_inv_ext (looked_up key w)); [done | done |].
  eapply shrinks_inv; [apply looked_up_shrinks | done].
Qed.

(** C10 *)
Theorem stale_store_tracks_cache (w : world) (L : gmap string any) :
  run w L →
  cache_inv w ∧ ∀ k, data <$> staleCache w !! k = L !! k.
Proof.
  induction 1 as [w Hc Hs | w L key fetchFn Hrun [Hi HL] Hn
                 | w L tweetData politicianId Hrun [Hi HL]
                 | w L Hrun [Hi HL] | w w' L Hrun [Hi HL] Hc Hs].
  - split; [intros e; rewrite Hc; set_solver | intros k; by rewrite Hs, !lookup_empty].
  - rewrite getCachedOrFetch_eq.
    destruct (cached (now w) key w) as [item|] eqn:Hhit.
    + simpl. split; [by apply served_inv|]. intros k. unfold served. simpl.
      destruct (decide (k = key)) as [->|Hk].
      * by rewrite !lookup_insert_eq.
      * rewrite !lookup_insert_ne by done. apply HL.
    + destruct (Hn (marked key w)) as [Hc2 Hs2].
      assert (cache_inv (fetchFn (marked key w)).2) as Hi2
        by (apply (cache_inv_ext (marked key w)); [done | done | by apply marked_inv]).
      simpl in Hc2, Hs2.
      destruct (fetchFn (marked key w)) as [[d|e] w2]; simpl in *.
      * split; [by apply stored_inv|]. intros k.
        destruct (decide (k = key)) as [->|Hk].
        -- by rewrite !lookup_insert_eq.
        -- rewrite !lookup_insert_ne by done. rewrite Hs2. apply HL.
      * destruct (staleCache w2 !! key) as [s|] eqn:Hst; simpl.
        -- split; [by eapply cache_inv_ext|]. intros k. rewrite Hs2.
           destruct (decide (k = key)) as [->|Hk].
           ++ rewrite lookup_insert_eq. rewrite Hs2 in Hst. simpl in Hst. by rewrite Hst.
           ++ rewrite lookup_insert_ne by done. apply HL.
        -- split; [done|]. intros k. rewrite Hs2. apply HL.
  - pose proof (saveTweetsToDatabase_shrinks tweetData politicianId w) as Hsh.
    split; [by eapply shrinks_inv|]. intros k. destruct Hsh as [-> _]. apply HL.
  - pose proof (checkAndFixTwitterHandles_shrinks w) as Hsh.
    split; [by eapply shrinks_inv|]. intros k. destruct Hsh as [-> _]. apply HL.
  - split; [by eapply cache_inv_ext|]. intros k. rewrite Hs. apply HL.
Qed.

Lemma rateLimitedFetch_from_stores left url n :
  keeps same_stores (rateLimitedFetch_from left url n).
Proof.
  revert n. induction left as [|left IH]; intros n; simpl; keeps_stores.
Qed.

Lemma lookupUserId_stores cleanUsername : keeps same_stores (lookupUserId cleanUsername).
Proof.
  unfold lookupUserId. keeps_stores.
Qed.

(** ** The user lookup *)

Lemma lookupUserId_returns cu w : ∃ v w', lookupUserId cu w = (Returned v, w').
Proof.
  unfold lookupUserId, try_catch.
  match goal with |- context [match ?m w with _ => _ end] => destruct (m w) as [[v|e] w'] end;
    eauto.
Qed.

Lemma classify_errors_null l v : classify_errors l = Some (Returned v) → v = Null.
Proof.
  induction l as [|e l IH]; simpl; [done|].
  destruct (_ || _); [done|]. destruct (_ || _); [by intros [= <-] | done].
Qed.

Lemma lookupUserId_failure cu w r :
  present (TWITTER_API_KEY w) = true →
  network w (calls w) = Some r → status r ≠ 429 → ok r = false →
  lookupUserId cu w =
  (Returned Null,
   answered (TWITTER_API_BASE ++ "/users/by/username/" ++ cu) (now w) r (waited w)).
Proof.
  intros Hk Hn Hs Hok. unfold lookupUserId, try_catch, bind, get. rewrite Hk. cbn [negb].
  rewrite rateLimitedFetch_unfold, Hn. cbv zeta. rewrite bool_decide_false by done.
  rewrite Hok. cbn [negb]. unfold json, ret, throw.
  destruct (body r) as [p|]; [|done].
  destruct (errors p) as [[|e l]|]; [done| |done].
  destruct (classify_errors (e :: l)) as [[v|err]|] eqn:E; [|done|done].
  by rewrite (classify_errors_null _ _ E).
Qed.

Lemma marked_env key w :
  network (marked key w) = network w ∧ calls (marked key w) = calls w ∧
  TWITTER_API_KEY (marked key w) = TWITTER_API_KEY w.
Proof. done. Qed.

(** C5, as the code has it *)
Theorem user_lookup_failure_yields_null (w : world) (username : string) (r : response) :
  JS.truthy (cleanUsername username) = true →
  cached (now w) (user_key username) w = None →
  present (TWITTER_API_KEY w) = true →
  network w (calls w) = Some r → status r ≠ 429 → ok r = false →
  ∃ w', getUserIdFromUsername username w = (Returned Null, w') ∧
        calls w' = S (calls w) ∧
        log w' = log w ++ [Compute (user_key username)] ++ quota_wait w
                       ++ [Fetch (user_url username)].
Proof.
  intros Hu Hmiss Hk Hn Hs Hok. unfold getUserIdFromUsername. rewrite Hu. cbn [negb].
  fold (user_key username). rewrite getCachedOrFetch_eq, Hmiss.
  rewrite (lookupUserId_failure _ _ r) by done.
  eexists. split; [reflexivity|].
  destruct (waited_facts (marked (user_key username) w)) as (Hc & _ & Hl).
  unfold stored, answered. simpl. rewrite Hc, Hl. split; [done|].
  unfold user_url, quota_wait. simpl. by rewrite <- !app_assoc.
Qed.

Lemma getUserIdFromUsername_returns username w :
  ∃ v w', getUserIdFromUsername username w = (Returned v, w').
Proof.
  unfold getUserIdFromUsername. destruct (negb _); [by eexists _, _|].
  rewrite getCachedOrFetch_eq. destruct (cached _ _ _); [by eexists _, _|].
  destruct (lookupUserId_returns (cleanUsername username)
              (marked ("twitter_user_" ++ JS.toLowerCase (cleanUsername username)) w))
    as (v & w' & ->).
  by eexists _, _.
Qed.

Lemma authorization_failure_is_swallowed :
  let r := getUserIdFromUsername "@Jack" (fresh_world (fun _ => Some unauthorized)) in
  r.1 = Returned Null ∧ (∀ e, r.1 ≠ Thrown e) ∧ calls r.2 = 1%nat.
Proof. vm_compute. repeat split; congruence. Qed.


(** ** Transactions and upserts *)

Ltac fault_cases w Htx :=
  repeat (first [ rewrite Htx
                | match goal with
                  | |- context [db_fails w ?k] => destruct (db_fails w k) eqn:?
                  end ]; simpl).

Lemma saveTweetsToDatabase_atomic tweetData politicianId w e w' :
  tx w = None →
  saveTweetsToDatabase tweetData politicianId w = (Thrown e, w') →
  committed w' = committed w ∧ tx w' = None ∧ ∃ k, e = DbError k.
Proof.
  intros Htx. unfold saveTweetsToDatabase. destruct tweetData as [|t l]; [done|].
  unfold bind, finally, try_catch, getClient, begin, query, commit, rollback, ret, throw, modify.
  simpl. fault_cases w Htx; try (intros [= <- <-]; eauto).
  all: destruct (new_values _ _ _); simpl; fault_cases w Htx; try (intros [= <- <-]; eauto).
Qed.

Lemma insert_tweets_nil d : insert_tweets [] d = d.
Proof.
  destruct d. unfold insert_tweets, with_tweets. simpl. f_equal; [apply app_nil_r | lia].
Qed.

Lemma saveTweetsToDatabase_ok tweetData politicianId w :
  no_faults w → tx w = None → tweetData ≠ [] →
  let values := tweets_to_insert tweetData politicianId (committed w) in
  ∃ w', saveTweetsToDatabase tweetData politicianId w =
          (Returned (Z.of_nat (length values)), w') ∧
        committed w' = insert_tweets values (committed w) ∧
        tx w' = None ∧ db_fails w' = db_fails w ∧ now w' = now w ∧
        log w' = log w ++ saved_tweets_log (length values).
Proof.
  intros Hf Htx Hne values. unfold saveTweetsToDatabase.
  destruct tweetData as [|t l]; [done|].
  unfold bind, finally, try_catch, getClient, begin, query, commit, rollback, ret, throw,
    modify, release, round_trip, logged, set_store, set_caches.
  simpl. repeat (progress (rewrite ?Hf, ?Htx; simpl)).
  fold (tweets_to_insert (t :: l) politicianId (committed w)). fold values.
  destruct values as [|v vs] eqn:E; repeat (progress (rewrite ?Hf, ?Htx; simpl)).
  - eexists. split; [reflexivity|]. simpl. rewrite insert_tweets_nil.
    repeat split; try done. unfold saved_tweets_log. simpl. by rewrite <- !app_assoc.
  - eexists. split; [reflexivity|]. simpl.
    repeat split; try done. unfold saved_tweets_log. simpl. by rewrite <- !app_assoc.
Qed.

Lemma update_handles_nil d : update_handles [] d = d.
Proof.
  destruct d as [ps q ss vs vq ts tq]. unfold update_handles, with_politicians. simpl. f_equal.
  induction ps as [|p l IH]; [done|]. rewrite fmap_cons, IH. by destruct p.
Qed.

Lemma checkAndFixTwitterHandles_atomic w e w' :
  tx w = None →
  checkAndFixTwitterHandles w = (Thrown e, w') →
  committed w' = committed w ∧ tx w' = None ∧ ∃ k, e = DbError k.
Proof.
  intros Htx. unfold checkAndFixTwitterHandles.
  unfold bind, finally, try_catch, getClient, begin, query, commit, rollback, ret, throw,
    modify, release, round_trip, logged, set_store, set_caches.
  simpl. fault_cases w Htx; try (intros [= <- <-]; eauto).
  all: destruct (fold_left check_row _ _) as [[|u us] ds]; simpl;
    fault_cases w Htx; try (intros [= <- <-]; eauto); try done.
Qed.

Lemma checkAndFixTwitterHandles_ok w :
  no_faults w → tx w = None →
  let '(updates, details) := handle_fixes (committed w) in
  ∃ w', checkAndFixTwitterHandles w =
          (Returned {| r_total := length (select_handles (committed w));
                       r_fixed := length updates; r_errors := 0;
                       r_details := details |}, w') ∧
        committed w' = update_handles updates (committed w) ∧
        tx w' = None ∧
        log w' = log w ++ fixed_handles_log (length updates).
Proof.
  intros Hf Htx. unfold checkAndFixTwitterHandles.
  unfold bind, finally, try_catch, getClient, begin, query, commit, rollback, ret, throw,
    modify, release, round_trip, logged, set_store, set_caches.
  simpl. repeat (progress (rewrite ?Hf, ?Htx; simpl)).
  fold (handle_fixes (committed w)).
  destruct (handle_fixes (committed w)) as [[|u us] ds];
    repeat (progress (rewrite ?Hf, ?Htx; simpl)).
  - eexists. split; [reflexivity|]. simpl. rewrite update_handles_nil.
    repeat split; try done. unfold fixed_handles_log. simpl. by rewrite <- !app_assoc.
  - eexists. split; [reflexivity|]. simpl.
    repeat split; try done. unfold fixed_handles_log. simpl. by rewrite <- !app_assoc.
Qed.

Ltac run_statements Hf :=
  unfold saveVote, saveVotingSession, sessionExists, bind, try_catch, statement, rejected,
    get, ret, throw, reading, writing, round_trip, logged, set_store;
  simpl; repeat (progress (rewrite ?Hf; simpl)).

Lemma saveVote_ok sessionId name party value w :
  no_faults w →
  ∃ w', saveVote sessionId name party value w = (Returned true, w') ∧
        committed w' = saveVote_db sessionId name party value (now w) (committed w) ∧
        tx w' = tx w ∧ db_fails w' = db_fails w ∧ now w' = now w ∧
        cache w' = cache w ∧ staleCache w' = staleCache w.
Proof.
  intros Hf. unfold saveVote_db, upsert_politician. run_statements Hf.
  destruct (select_politician_by_name name (committed w)) as [|pid ?];
    run_statements Hf.
  - destruct (select_vote sessionId _ _) as [|vid ?]; run_statements Hf;
      eexists; (split; [reflexivity|done]).
  - destruct (select_vote sessionId _ _) as [|vid ?]; run_statements Hf;
      eexists; (split; [reflexivity|done]).
Qed.

Lemma saveVotingSession_ok sessionId title date w :
  no_faults w →
  ∃ r w', saveVotingSession sessionId title date w = (r, w') ∧
        committed w' = saveVotingSession_db sessionId title date (now w) (committed w) ∧
        tx w' = tx w ∧ db_fails w' = db_fails w ∧ now w' = now w ∧
        cache w' = cache w ∧ staleCache w' = staleCache w.
Proof.
  intros Hf. unfold saveVotingSession_db. run_statements Hf.
  destruct (JS.parseInt sessionId) as [id|]; run_statements Hf.
  - destruct (select_session id (committed w)) as [|sid ?] eqn:E; run_statements Hf;
      rewrite ?E; simpl; eexists _, _; (split; [reflexivity|done]).
  - eexists _, _; (split; [reflexivity|done]).
Qed.

Lemma select_vote_rows sessionId politicianId d :
  select_vote sessionId politicianId d = take 1 (v_id <$> vote_rows sessionId politicianId d).
Proof. done. Qed.

Lemma upsert_politician_votes name party ts d :
  votes (upsert_politician name party ts d).2 = votes d ∧
  votes_seq (upsert_politician name party ts d).2 = votes_seq d ∧
  voting_sessions (upsert_politician name party ts d).2 = voting_sessions d.
Proof. unfold upsert_politician. by destruct (select_politician_by_name name d). Qed.

Lemma set_vote_key id value v :
  (v_politician_id (set_vote id value v), v_session_id (set_vote id value v)) =
  (v_politician_id v, v_session_id v).
Proof. unfold set_vote. by destruct (bool_decide _). Qed.

Lemma unique_votes_update id value d :
  unique_votes d → unique_votes (update_vote id value d).
Proof.
  unfold unique_votes, update_vote. simpl. rewrite <- list_fmap_compose.
  intros H. erewrite list_fmap_ext; [exact H|]. intros _ v _. apply set_vote_key.
Qed.

Lemma unique_votes_insert sessionId politicianId value ts d :
  vote_rows sessionId politicianId d = [] →
  unique_votes d → unique_votes (insert_vote sessionId politicianId value ts d).
Proof.
  unfold unique_votes, insert_vote, vote_rows. simpl. intros Hnone Hu.
  rewrite fmap_app. simpl. apply NoDup_app. split; [done|]. split; [|apply NoDup_singleton].
  intros k Hk. rewrite list_elem_of_singleton. intros ->.
  apply list_elem_of_fmap in Hk as (v & Hv & Hin). injection Hv as Hp Hs.
  assert (v ∈ filter (fun v => vote_matches sessionId politicianId v = true) (votes d)) as Hf.
  { apply list_elem_of_filter. split; [|done]. unfold vote_matches.
    by rewrite !bool_decide_true. }
  rewrite Hnone in Hf. by apply elem_of_nil in Hf.
Qed.

Lemma unique_votes_ext d d' : votes d' = votes d → unique_votes d → unique_votes d'.
Proof. unfold unique_votes. by intros ->. Qed.

Lemma take1_nil {A} (l : list A) : take 1 l = [] → l = [].
Proof. by destruct l. Qed.

Lemma saveVote_unique sessionId name party value w :
  unique_votes (committed w) →
  unique_votes (committed (saveVote sessionId name party value w).2).
Proof.
  intros Hu.
  unfold saveVote, bind, try_catch, statement, get, ret, throw, reading, writing,
    round_trip, logged, set_store. simpl.
  destruct (db_fails w (stmts w)); simpl; [done|].
  destruct (select_politician_by_name name (committed w)) as [|pid ?]; simpl.
  - destruct (db_fails w (S (stmts w))); simpl; [done|].
    destruct (db_fails w (S (S (stmts w)))); simpl; [done|].
    set (d1 := with_politicians _ _ _).
    assert (unique_votes d1) as Hu1 by done.
    rewrite select_vote_rows.
    destruct (vote_rows sessionId (politicians_seq (committed w)) d1) as [|r rs] eqn:E; simpl.
    + destruct (db_fails w (S (S (S (stmts w))))); simpl; [done|].
      destruct (db_fails w (S (S (S (S (stmts w)))))); simpl;
        by apply (unique_votes_insert sessionId (politicians_seq (committed w)) value (now w) d1).
    + destruct (db_fails w (S (S (S (stmts w))))); simpl; [done|].
      by apply unique_votes_update.
  - destruct (db_fails w (S (stmts w))); simpl; [done|].
    destruct (db_fails w (S (S (stmts w)))); simpl; [done|].
    set (d1 := update_party pid party (committed w)).
    assert (unique_votes d1) as Hu1 by done.
    rewrite select_vote_rows.
    destruct (vote_rows sessionId pid d1) as [|r rs] eqn:E; simpl.
    + destruct (db_fails w (S (S (S (stmts w))))); simpl; [done|].
      destruct (db_fails w (S (S (S (S (stmts w)))))); simpl;
        by apply (unique_votes_insert sessionId pid value (now w) d1).
    + destruct (db_fails w (S (S (S (stmts w))))); simpl; [done|].
      by apply unique_votes_update.
Qed.

Lemma saveVotingSession_votes sessionId title date w :
  votes (committed (saveVotingSession sessionId title date w).2) = votes (committed w).
Proof.
  unfold saveVotingSession, sessionExists, bind, try_catch, statement, rejected,
    get, ret, throw, reading, writing, round_trip, logged, set_store. simpl.
  destruct (JS.parseInt sessionId) as [id|]; simpl; [|done].
  destruct (db_fails w (stmts w)); simpl.
  - by destruct (db_fails w (S (stmts w))).
  - destruct (select_session id (committed w)) as [|s ?]; simpl.
    + by destruct (db_fails w (S (stmts w))).
    + destruct (db_fails w (S (stmts w))); simpl; [done|].
      by destruct (select_session id (committed w)).
Qed.

Lemma unique_votes_reachable w : reachable w → unique_votes (committed w).
Proof.
  induction 1 as [w He | w sessionId name party value _ IH
                 | w sessionId title date _ IH | w w' _ IH He].
  - unfold unique_votes. rewrite He. apply NoDup_nil_2.
  - by apply saveVote_unique.
  - eapply unique_votes_ext; [apply saveVotingSession_votes | done].
  - by eapply unique_votes_ext.
Qed.



Lemma saveVote_increment_fails sessionId name party value w :
  db_fails w (stmts w) = false → db_fails w (1 + stmts w)%nat = false →
  db_fails w (2 + stmts w)%nat = false → db_fails w (3 + stmts w)%nat = false →
  db_fails w (4 + stmts w)%nat = true →
  vote_rows sessionId (upsert_politician name party (now w) (committed w)).1
    (committed w) = [] →
  ∃ w', saveVote sessionId name party value w = (Thrown (JsError "Failed to save vote"), w') ∧
        committed w' =
          insert_vote sessionId (upsert_politician name party (now w) (committed w)).1
            value (now w) (upsert_politician name party (now w) (committed w)).2.
Proof.
  intros H0 H1 H2 H3 H4. simpl in H1, H2, H3, H4.
  destruct (upsert_politician_votes name party (now w) (committed w)) as (Hv & _ & _).
  unfold vote_rows, upsert_politician in *.
  unfold saveVote, bind, try_catch, statement, get, ret, throw, reading, writing,
    round_trip, logged, set_store. simpl. rewrite H0. simpl.
  destruct (select_politician_by_name name (committed w)) as [|pid ?]; simpl in *;
    rewrite H1; simpl; rewrite H2; simpl; rewrite select_vote_rows; unfold vote_rows;
    simpl; intros ->; simpl; rewrite H3; simpl; rewrite H4; simpl; by eexists.
Qed.

(** C1, as the code has it *)
Theorem ingestion_atomicity :
  (∀ tweetData politicianId w e w',
     tx w = None →
     saveTweetsToDatabase tweetData politicianId w = (Thrown e, w') →
     committed w' = committed w ∧ tx w' = None ∧ ∃ k, e = DbError k) ∧
  (∀ w e w',
     tx w = None →
     checkAndFixTwitterHandles w = (Thrown e, w') →
     committed w' = committed w ∧ tx w' = None ∧ ∃ k, e = DbError k) ∧
  (∀ tweetData politicianId w,
     no_faults w → tx w = None → tweetData ≠ [] →
     ∃ n w', saveTweetsToDatabase tweetData politicianId w = (Returned n, w') ∧
             log w' = log w ++ saved_tweets_log (Z.to_nat n)) ∧
  (∀ w,
     no_faults w → tx w = None →
     ∃ r w', checkAndFixTwitterHandles w = (Returned r, w') ∧
             log w' = log w ++ fixed_handles_log (r_fixed r)) ∧
  (∀ sessionId name party value w,
     db_fails w (stmts w) = false → db_fails w (1 + stmts w)%nat = false →
     db_fails w (2 + stmts w)%nat = false → db_fails w (3 + stmts w)%nat = false →
     db_fails w (4 + stmts w)%nat = true →
     let politicianId := (upsert_politician name party (now w) (committed w)).1 in
     vote_rows sessionId politicianId (committed w) = [] →
     ∃ w', saveVote sessionId name party value w =
             (Thrown (JsError "Failed to save vote"), w') ∧
           votes (committed w') =
             votes (committed w) ++
             [{| v_id := votes_seq (committed w); v_session_id := sessionId;
                 v_politician_id := politicianId; v_vote := value;
                 v_created_at := now w |}] ∧
           voting_sessions (committed w') = voting_sessions (committed w)).
Proof.
  split; [|split; [|split; [|split]]].
  - intros. by eapply saveTweetsToDatabase_atomic.
  - intros. by eapply checkAndFixTwitterHandles_atomic.
  - intros tweetData politicianId w Hf Htx Hne.
    destruct (saveTweetsToDatabase_ok tweetData politicianId w Hf Htx Hne)
      as (w' & Hs & _ & _ & _ & _ & Hl).
    eexists _, w'. split; [exact Hs|]. by rewrite Nat2Z.id.
  - intros w Hf Htx. pose proof (checkAndFixTwitterHandles_ok w Hf Htx) as H.
    destruct (handle_fixes (committed w)) as [updates details].
    destruct H as (w' & Hs & _ & _ & Hl). by eexists _, w'.
  - intros sessionId name party value w H0 H1 H2 H3 H4 politicianId Hnone.
    destruct (saveVote_increment_fails sessionId name party value w H0 H1 H2 H3 H4 Hnone)
      as (w' & Hs & Hc).
    exists w'. split; [done|]. rewrite Hc.
    destruct (upsert_politician_votes name party (now w) (committed w)) as (Hv & Hq & Hss).
    simpl. by rewrite Hv, Hq, Hss.
Qed.

(** The increment of [vote_count] fails after the vote row went in. *)
Lemma saveVote_partial_write :
  let w := failing_at 4 session_12 in
  let r := saveVote 12 "Alice" "ODS" "yes" w in
  tx w = None ∧
  r.1 = Thrown (JsError "Failed to save vote") ∧
  votes (committed w) = [] ∧
  votes (committed r.2) =
    [{| v_id := 1; v_session_id := 12; v_politician_id := 1; v_vote := "yes";
        v_created_at := 1000 |}] ∧
  s_vote_count <$> voting_sessions (committed r.2) = [0] ∧
  committed r.2 ≠ committed w.
Proof. vm_compute. repeat split; congruence. Qed.

(** ** The tweet ingestion *)

Lemma number_tweets_columns q values : tweet_columns <$> number_tweets q values = values.
Proof.
  revert q. induction values as [|[[[tid pid] text] created] vs IH]; intros q; [done|].
  simpl. by rewrite IH.
Qed.

Lemma length_number_tweets q values : length (number_tweets q values) = length values.
Proof. by rewrite <- (number_tweets_columns q values) at 2; rewrite length_fmap. Qed.

Lemma elem_of_id_set (i : string) ids : i ∈ id_set ids ↔ i ∈ ids.
Proof. unfold id_set. apply elem_of_list_to_set. Qed.

Lemma new_values_spec stored politicianId tweetData :
  new_values (id_set stored) politicianId tweetData =
  (fun t => (a_id t, politicianId, a_text t, a_created_at t)) <$>
  filter (fun t => a_id t ∉ stored) tweetData.
Proof.
  unfold new_values. f_equal. apply list_filter_iff. intros t.
  by rewrite elem_of_id_set.
Qed.

Lemma new_values_stored stored politicianId tweetData v :
  v ∈ new_values (id_set stored) politicianId tweetData →
  ¬ (fst (fst (fst v)) ∈ stored) ∧ snd (fst (fst v)) = politicianId.
Proof.
  rewrite new_values_spec. intros (t & -> & Ht)%list_elem_of_fmap.
  apply list_elem_of_filter in Ht as [Ht _]. done.
Qed.

Lemma filter_none {A} (P : A → Prop) `{!∀ x, Decision (P x)} (l : list A) :
  (∀ x, x ∈ l → ¬ P x) → filter P l = [].
Proof.
  induction l as [|a l IH]; intros Hall; [done|].
  rewrite filter_cons_False by (apply Hall; by left).
  apply IH. intros x Hx. apply Hall. by right.
Qed.

Lemma number_tweets_elem q values t :
  t ∈ number_tweets q values → tweet_columns t ∈ values.
Proof.
  intros Ht. rewrite <- (number_tweets_columns q values). by apply list_elem_of_fmap_2.
Qed.

(** What is already stored gains no row, whatever the batch. *)
Lemma insert_tweets_keeps_stored tweetData politicianId d tweetId :
  tweetId ∈ select_tweet_ids politicianId d →
  tweet_rows politicianId tweetId
    (insert_tweets (tweets_to_insert tweetData politicianId d) d) =
  tweet_rows politicianId tweetId d.
Proof.
  intros Hin. unfold tweet_rows, insert_tweets. simpl. rewrite filter_app.
  rewrite <- (app_nil_r (filter _ (tweets d))) at 2. f_equal.
  apply filter_none. intros t Ht [Hp Hi].
  apply number_tweets_elem, new_values_stored in Ht as [Hns _].
  simpl in Hns. by rewrite Hi in Hns.
Qed.

(** Once a batch went in, the same batch has nothing left to insert. *)
Lemma tweets_to_insert_again tweetData politicianId d :
  tweets_to_insert tweetData politicianId
    (insert_tweets (tweets_to_insert tweetData politicianId d) d) = [].
Proof.
  unfold tweets_to_insert at 1. rewrite new_values_spec.
  rewrite filter_none; [done|]. intros t Ht Hns. apply Hns. clear Hns.
  unfold select_tweet_ids, insert_tweets. simpl. rewrite filter_app, fmap_app.
  apply elem_of_app.
  destruct (decide (a_id t ∈ select_tweet_ids politicianId d)) as [Hs|Hs]; [by left|right].
  apply list_elem_of_fmap.
  assert ((a_id t, politicianId, a_text t, a_created_at t)
          ∈ tweets_to_insert tweetData politicianId d) as Hv.
  { unfold tweets_to_insert. rewrite new_values_spec. apply list_elem_of_fmap.
    exists t. split; [done|]. by apply list_elem_of_filter. }
  rewrite <- (number_tweets_columns (tweets_seq d)) in Hv.
  apply list_elem_of_fmap in Hv as (row & Hrow & Hin).
  exists row. split; [by injection Hrow|].
  apply list_elem_of_filter. split; [by injection Hrow | done].
Qed.

Lemma sum_of_snoc l x : sum_of (l ++ [x]) = sum_of l + x.
Proof. unfold sum_of. induction l as [|y l IH]; simpl; lia. Qed.

Lemma without_error_snoc l d :
  without_error (l ++ [d]) =
  without_error l + (if decide (TwitterScraper.error_ d = None) then 1 else 0).
Proof.
  unfold without_error. rewrite filter_app, length_app, filter_singleton; [|exact []].
  destruct (decide _); simpl; lia.
Qed.

Section BatchReport.
Variable fetchUserTweets : string → Z → M (list api_tweet).
Variable saveTweetsToDatabase : list api_tweet → Z → M Z.

Lemma ingest_one_consistent maxTweets results politician w :
  report_consistent results →
  ∃ results' w',
    TwitterScraper.ingest_one fetchUserTweets saveTweetsToDatabase maxTweets
      results politician w = (Returned results', w') ∧
    report_consistent results'.
Proof.
  intros (Hb & Hs & Hn & Hp). unfold TwitterScraper.ingest_one, try_catch.
  match goal with |- context [match ?m w with _ => _ end] =>
    destruct (m w) as [[r|e] w1] eqn:E end.
  - eexists _, _. split; [reflexivity|].
    destruct (negb _); [done|]. destruct (negb _); [done|].
    unfold bind in E. destruct (fetchUserTweets _ _ w) as [[tw|?] w2]; [|done].
    destruct (saveTweetsToDatabase tw _ w2) as [[n|?] w3]; [|done].
    injection E as <- <-. unfold report_consistent.
    cbn [TwitterScraper.fetch_details TwitterScraper.totalSkippedTweets
         TwitterScraper.totalNewTweets TwitterScraper.processedPoliticians].
    rewrite !fmap_snoc, !sum_of_snoc, without_error_snoc. simpl.
    split; [|split; [|split]]; try lia.
    apply Forall_app. split; [done|]. by apply Forall_singleton.
  - eexists _, _. split; [reflexivity|]. unfold report_consistent.
    cbn [TwitterScraper.fetch_details TwitterScraper.totalSkippedTweets
         TwitterScraper.totalNewTweets TwitterScraper.processedPoliticians].
    rewrite !fmap_snoc, !sum_of_snoc, without_error_snoc. simpl.
    split; [|split; [|split]]; try lia.
    apply Forall_app. split; [done|]. by apply Forall_singleton.
Qed.

Lemma for_each_consistent maxTweets l results w :
  report_consistent results →
  ∃ results' w',
    TwitterScraper.for_each l
      (TwitterScraper.ingest_one fetchUserTweets saveTweetsToDatabase maxTweets)
      results w = (Returned results', w') ∧
    report_consistent results'.
Proof.
  revert results w. induction l as [|p l IH]; intros results w Hc.
  - by eexists _, _.
  - simpl. unfold bind.
    destruct (ingest_one_consistent maxTweets results p w Hc) as (r1 & w1 & -> & Hc1).
    apply IH, Hc1.
Qed.

Lemma fetchTweetsForAllPoliticians_consistent maxTweets w results w' :
  TwitterScraper.fetchTweetsForAllPoliticians fetchUserTweets saveTweetsToDatabase
    maxTweets w = (Returned results, w') →
  report_consistent results.
Proof.
  unfold TwitterScraper.fetchTweetsForAllPoliticians, try_catch, bind.
  destruct (TwitterScraper.fetchPoliticiansWithTwitter w) as [[ps|?] w1]; [|done].
  match goal with |- context [TwitterScraper.for_each ps ?f ?r0 w1] =>
    assert (report_consistent r0) as Hc0 by (unfold report_consistent; simpl; done);
    destruct (for_each_consistent maxTweets ps r0 w1 Hc0) as (r & w2 & -> & Hc) end.
  by intros [= <- <-].
Qed.
End BatchReport.



(** ** The handle fix-up *)

Lemma prefix_char c s :
  String.prefix (String c EmptyString) s =
  match s with
  | EmptyString => false
  | String d _ => bool_decide (c = d)
  end.
Proof.
  destruct s as [|d s']; [done|]. simpl.
  destruct (ascii_dec c d) as [->|Hne].
  - rewrite bool_decide_true by done. by destruct s'.
  - by rewrite bool_decide_false.
Qed.

Lemma includes_char c s : JS.includes (String c EmptyString) s = has c s.
Proof.
  induction s as [|d s IH]; [done|].
  cbn [JS.includes has]. by rewrite prefix_char, IH.
Qed.

Lemma prefix_has a c b s :
  String.prefix (a ++ String c b) s = true → has c s = true.
Proof.
  revert s. induction a as [|x a IH]; intros [|d s]; simpl; try done.
  - destruct (ascii_dec c d) as [->|]; [|done]. intros _. by rewrite bool_decide_true.
  - destruct (ascii_dec x d); [|done]. intros H%IH. rewrite H. apply orb_true_r.
Qed.

Lemma includes_has a c b s :
  has c s = false → JS.includes (a ++ String c b) s = false.
Proof.
  induction s as [|d s IH]; intros Hc.
  - cbn [JS.includes]. destruct (String.prefix (a ++ String c b) "") eqn:E; [|done].
    by apply prefix_has in E.
  - cbn [JS.includes]. destruct (String.prefix (a ++ String c b) (String d s)) eqn:E.
    + apply prefix_has in E. congruence.
    + simpl in *. apply orb_false_elim in Hc as [_ Hc]. by apply IH.
Qed.

Lemma split_from_absent sep s :
  JS.includes sep s = false → JS.split_from sep 0 s = [s].
Proof.
  induction s as [|d s IH]; [done|]. cbn [JS.includes JS.split_from].
  intros [Hp Hi]%orb_false_elim. rewrite Hp, (IH Hi). done.
Qed.

Lemma first_split_char c s :
  JS.first (JS.split (String c EmptyString) s) =
  match s with
  | EmptyString => EmptyString
  | String d s' =>
      if bool_decide (c = d) then EmptyString
      else String d (JS.first (JS.split (String c EmptyString) s'))
  end.
Proof.
  destruct s as [|d s']; [done|]. unfold JS.split. cbn [JS.split_from].
  rewrite prefix_char. destruct (bool_decide (c = d)); [done|].
  by destruct (JS.split_from _ 0 s').
Qed.

Lemma has_first_split_same c s : has c (JS.first (JS.split (String c EmptyString) s)) = false.
Proof.
  induction s as [|d s IH]; [done|]. rewrite first_split_char.
  destruct (bool_decide (c = d)) eqn:E; [done|]. simpl. by rewrite E, IH.
Qed.

Lemma has_first_split c q s :
  has c s = false → has c (JS.first (JS.split (String q EmptyString) s)) = false.
Proof.
  induction s as [|d s IH]; [done|]. rewrite first_split_char. simpl.
  intros [Hd Hs]%orb_false_elim. destruct (bool_decide (q = d)); [done|].
  simpl. by rewrite Hd, IH.
Qed.

Lemma has_substring1 c s : has c s = false → has c (JS.substring1 s) = false.
Proof. destruct s; [done|]. simpl. by intros [_ ?]%orb_false_elim. Qed.

Lemma has_trimStart c s : has c s = false → has c (JS.trimStart s) = false.
Proof.
  induction s as [|d s IH]; [done|]. simpl. intros H.
  destruct (JS.is_space d); [|done]. apply orb_false_elim in H as [_ H]. by apply IH.
Qed.

Lemma has_trimEnd c s : has c s = false → has c (JS.trimEnd s) = false.
Proof.
  induction s as [|d s IH]; [done|]. simpl. intros [Hd Hs]%orb_false_elim.
  specialize (IH Hs). destruct (JS.trimEnd s); simpl in *.
  - destruct (JS.is_space d); [done|]. simpl. by rewrite Hd.
  - by rewrite Hd, IH.
Qed.

Lemma has_trim c s : has c s = false → has c (JS.trim s) = false.
Proof. intros H. by apply has_trimEnd, has_trimStart. Qed.

Lemma trimEnd_cons d s e t :
  JS.trimEnd s = String e t → JS.trimEnd (String d s) = String d (String e t).
Proof. intros E. cbn [JS.trimEnd]. by rewrite E. Qed.

Lemma trimEnd_idem s : JS.trimEnd (JS.trimEnd s) = JS.trimEnd s.
Proof.
  induction s as [|d s IH]; [done|].
  destruct (JS.trimEnd s) as [|e t] eqn:E.
  - cbn [JS.trimEnd]. rewrite E. destruct (JS.is_space d) eqn:Ed; [done|].
    cbn [JS.trimEnd]. by rewrite Ed.
  - rewrite (trimEnd_cons d s e t E). by apply trimEnd_cons.
Qed.

Lemma trimEnd_trimStart s : JS.trimStart (JS.trimEnd (JS.trimStart s)) = JS.trimEnd (JS.trimStart s).
Proof.
  induction s as [|d s IH]; [done|]. simpl.
  destruct (JS.is_space d) eqn:Ed; [done|]. simpl.
  destruct (JS.trimEnd s); rewrite ?Ed; simpl; by rewrite ?Ed.
Qed.

Lemma trim_idem s : JS.trim (JS.trim s) = JS.trim s.
Proof. unfold JS.trim. by rewrite trimEnd_trimStart, trimEnd_idem. Qed.

Lemma fixHandle_steps h :
  (fixHandle h).1 =
  JS.trim (without_at (before_path (after_prefix "x.com/" (after_prefix "twitter.com/" h)))).
Proof.
  unfold fixHandle, after_prefix, before_path, without_at.
  destruct (JS.includes "twitter.com/" h);
  match goal with |- context [JS.includes "x.com/" ?s] =>
    destruct (JS.includes "x.com/" s) end;
  match goal with |- context [JS.includes "/" ?s || JS.includes "?" ?s] =>
    destruct (JS.includes "/" s || JS.includes "?" s) end;
  match goal with |- context [JS.startsWith "@" ?s] =>
    destruct (JS.startsWith "@" s) end;
  match goal with |- context [bool_decide (?s ≠ JS.trim ?s)] =>
    destruct (bool_decide_reflect (s ≠ JS.trim s)) as [Hne|Heq] end;
  cbn [fst]; try done; by apply dec_stable in Heq.
Qed.

Lemma before_path_clean s :
  has "/" (before_path s) = false ∧ has "?" (before_path s) = false.
Proof.
  unfold before_path. rewrite !includes_char.
  destruct (has "/" s || has "?" s) eqn:E.
  - split; [apply has_first_split, has_first_split_same | apply has_first_split_same].
  - by apply orb_false_elim in E.
Qed.

Lemma has_without_at c s : has c s = false → has c (without_at s) = false.
Proof. unfold without_at. destruct (JS.startsWith _ _); [apply has_substring1 | done]. Qed.

Lemma fixHandle_clean h :
  has "/" (fixHandle h).1 = false ∧ has "?" (fixHandle h).1 = false ∧
  JS.trim (fixHandle h).1 = (fixHandle h).1.
Proof.
  rewrite fixHandle_steps.
  destruct (before_path_clean (after_prefix "x.com/" (after_prefix "twitter.com/" h)))
    as [H1 H2].
  split; [by apply has_trim, has_without_at|].
  split; [by apply has_trim, has_without_at | apply trim_idem].
Qed.

Lemma no_twitter_prefix s : has "/" s = false → JS.includes "twitter.com/" s = false.
Proof. exact (includes_has "twitter.com" "/" "" s). Qed.

Lemma no_x_prefix s : has "/" s = false → JS.includes "x.com/" s = false.
Proof. exact (includes_has "x.com" "/" "" s). Qed.

Lemma fixHandle_bare s : bare_handle s → fixHandle s = (s, false).
Proof.
  intros (H1 & H2 & H3 & H4). unfold fixHandle.
  rewrite (no_twitter_prefix s H1), (no_x_prefix s H1).
  rewrite !includes_char, H1, H2. cbn [orb]. rewrite H3, H4.
  by rewrite bool_decide_false by (by intros ?).
Qed.

Lemma startsWith_at s : JS.startsWith "@" (String "@" s) = true.
Proof. unfold JS.startsWith. simpl. by destruct s. Qed.

Lemma fixHandle_at s : bare_handle s → fixHandle (String "@" s) = (s, true).
Proof.
  intros (H1 & H2 & H3 & H4). unfold fixHandle.
  assert (JS.includes "twitter.com/" (String "@" s) = false) as ->.
  { cbn [JS.includes]. by rewrite (no_twitter_prefix s H1). }
  assert (JS.includes "x.com/" (String "@" s) = false) as ->.
  { cbn [JS.includes]. by rewrite (no_x_prefix s H1). }
  rewrite !includes_char. cbn [has]. rewrite H1, H2.
  rewrite !bool_decide_false by done. cbn [orb].
  rewrite startsWith_at. cbn [JS.substring1].
  rewrite H4. by rewrite bool_decide_false by (by intros ?).
Qed.

Lemma includes_cons sep c s :
  String.prefix sep (String c s) = false → JS.includes sep (String c s) = JS.includes sep s.
Proof. intros H. cbn [JS.includes]. by rewrite H. Qed.

Lemma includes_here sep s : String.prefix sep s = true → JS.includes sep s = true.
Proof. intros H. destruct s; cbn [JS.includes]; by rewrite H. Qed.

Lemma split_from_nonempty sep k s : JS.split_from sep k s ≠ [].
Proof.
  revert k. induction s as [|c s IH]; intros k; [done|]. cbn [JS.split_from].
  destruct k; [|apply IH]. destruct (String.prefix _ _); [done|].
  by destruct (JS.split_from sep 0 s).
Qed.

Lemma pop_split_here sep c s :
  String.prefix sep (String c s) = true →
  JS.pop (JS.split_from sep 0 (String c s)) =
  JS.pop (JS.split_from sep (String.length sep - 1) s).
Proof.
  intros H. cbn [JS.split_from]. rewrite H. unfold JS.pop.
  pose proof (split_from_nonempty sep (String.length sep - 1) s).
  by destruct (JS.split_from sep _ s).
Qed.

Lemma pop_split_skip sep k c s :
  JS.pop (JS.split_from sep (S k) (String c s)) = JS.pop (JS.split_from sep k s).
Proof. done. Qed.

Lemma includes_split x sep' s :
  let sep := String x sep' in
  JS.includes sep s = true → ∃ a b l, JS.split_from sep 0 s = a :: b :: l.
Proof.
  intros sep. induction s as [|c s IH].
  - done.
  - cbn [JS.includes JS.split_from]. destruct (String.prefix sep (String c s)) eqn:E.
    + intros _. pose proof (split_from_nonempty sep (String.length sep - 1) s) as Hne.
      destruct (JS.split_from sep (String.length sep - 1) s) as [|b l]; [done|].
      by eexists _, _, _.
    + cbn [orb]. intros (a & b & l & ->)%IH. by eexists _, _, _.
Qed.

Lemma pop_split_cons x sep' c s :
  let sep := String x sep' in
  String.prefix sep (String c s) = false → JS.includes sep s = true →
  JS.pop (JS.split_from sep 0 (String c s)) = JS.pop (JS.split_from sep 0 s).
Proof.
  intros sep H (a & b & l & E)%includes_split. subst sep.
  cbn [JS.split_from]. by rewrite H, E.
Qed.

Lemma fixHandle_x_url s : bare_handle s → fixHandle ("https://x.com/" ++ s) = (s, true).
Proof.
  intros (H1 & H2 & H3 & H4). unfold fixHandle.
  let t := eval cbv in ("https://x.com/" +:+ s) in change ("https://x.com/" +:+ s) with t.
  assert (JS.includes "x.com/" (String "x" (String "." (String "c" (String "o"
            (String "m" (String "/" s)))))) = true) as Hx
    by (apply includes_here; simpl; by destruct s).
  rewrite !(includes_cons "twitter.com/") by reflexivity.
  rewrite (no_twitter_prefix s H1).
  rewrite !(includes_cons "x.com/") by reflexivity. rewrite Hx.
  unfold JS.split. rewrite !(pop_split_cons "x" ".com/") by (reflexivity || done).
  rewrite pop_split_here by (simpl; by destruct s). simpl String.length. simpl Nat.sub.
  rewrite !pop_split_skip, (split_from_absent "x.com/" s (no_x_prefix s H1)).
  change (JS.pop [s]) with s.
  rewrite !includes_char, H1, H2. cbn [orb]. rewrite H3, H4.
  by rewrite bool_decide_false by (by intros ?).
Qed.

Lemma fixHandle_twitter_url s :
  bare_handle s → fixHandle ("https://twitter.com/" ++ s) = (s, true).
Proof.
  intros (H1 & H2 & H3 & H4). unfold fixHandle.
  let t := eval cbv in ("https://twitter.com/" +:+ s) in
    change ("https://twitter.com/" +:+ s) with t.
  assert (JS.includes "twitter.com/"
            (String "t" (String "w" (String "i" (String "t" (String "t" (String "e"
            (String "r" (String "." (String "c" (String "o" (String "m"
            (String "/" s)))))))))))) = true) as Ht
    by (apply includes_here; simpl; by destruct s).
  rewrite !(includes_cons "twitter.com/") by reflexivity. rewrite Ht.
  unfold JS.split. rewrite !(pop_split_cons "t" "witter.com/") by (reflexivity || done).
  rewrite pop_split_here by (simpl; by destruct s). simpl String.length. simpl Nat.sub.
  rewrite !pop_split_skip, (split_from_absent "twitter.com/" s (no_twitter_prefix s H1)).
  change (JS.pop [s]) with s. rewrite (no_x_prefix s H1).
  rewrite !includes_char, H1, H2. cbn [orb]. rewrite H3, H4.
  by rewrite bool_decide_false by (by intros ?).
Qed.

Lemma fold_check_row (rows : list handle_row) updates details :
  fold_left check_row rows (updates, details) =
  (updates ++ omap queued rows, details ++ (reported <$> rows)).
Proof.
  revert updates details. induction rows as [|row rows IH]; intros updates details.
  - simpl. by rewrite !app_nil_r.
  - cbn [fold_left]. unfold check_row at 2, queued, reported. cbn [omap list_omap fmap list_fmap].
    unfold queued, reported.
    destruct (fixHandle (h_twitter_handle row)) as [h' f].
    rewrite IH. destruct (f && JS.truthy h'); by rewrite <- !app_assoc.
Qed.

Lemma handle_fixes_eq d :
  handle_fixes d = (omap queued (select_handles d), reported <$> select_handles d).
Proof. unfold handle_fixes. by rewrite fold_check_row. Qed.

Lemma queued_select (ps : list politician) :
  omap queued
    (omap (fun p => match p_twitter_handle p with
                    | Some h => Some {| h_id := p_id p; h_name := p_name p;
                                        h_twitter_handle := h |}
                    | None => None
                    end) ps) = omap own_update ps.
Proof.
  induction ps as [|p ps IH]; [done|]. cbn [omap list_omap]. unfold own_update at 1.
  destruct (p_twitter_handle p) as [h|]; [|done].
  cbn [omap list_omap]. rewrite <- IH. done.
Qed.

Lemma own_update_id p u : own_update p = Some u → u_id u = p_id p.
Proof.
  unfold own_update, queued. destruct (p_twitter_handle p) as [h|]; [|done]. simpl.
  destruct (fixHandle h) as [h' f]. destruct (f && JS.truthy h'); [|done].
  by intros [= <-].
Qed.

Lemma find_own_update (ps : list politician) p :
  (∀ q, q ∈ ps → p_id q ≠ p_id p) →
  List.find (fun u => bool_decide (u_id u = p_id p)) (omap own_update ps) = None.
Proof.
  induction ps as [|q ps IH]; intros Hne; [done|]. cbn [omap list_omap].
  destruct (own_update q) as [u|] eqn:E.
  - cbn [List.find]. rewrite bool_decide_false.
    + apply IH. intros r Hr. apply Hne. by right.
    + rewrite (own_update_id q u E). apply Hne. by left.
  - apply IH. intros r Hr. apply Hne. by right.
Qed.

Lemma set_handle_own p u : own_update p = Some u → set_handle [u] p = fixed_row p.
Proof.
  intros E. unfold set_handle. cbn [List.find].
  rewrite bool_decide_true by (by apply own_update_id).
  unfold own_update, queued, fixed_row in *. destruct (p_twitter_handle p) as [h|]; [|done].
  simpl in E. destruct (fixHandle h) as [h' f]. destruct (f && JS.truthy h'); [|done].
  by injection E as <-.
Qed.

Lemma fixed_row_none p : own_update p = None → fixed_row p = p.
Proof.
  unfold own_update, queued, fixed_row. destruct (p_twitter_handle p) as [h|]; [|done].
  simpl. destruct (fixHandle h) as [h' f]. by destruct (f && JS.truthy h').
Qed.

Lemma set_handle_rows (ps front : list politician) :
  NoDup (p_id <$> (front ++ ps)) →
  Forall (fun p => set_handle (omap own_update (front ++ ps)) p = fixed_row p) ps.
Proof.
  revert front. induction ps as [|p ps IH]; intros front Hnd; [done|].
  apply Forall_cons. split.
  - unfold set_handle. rewrite omap_app. cbn [omap list_omap].
    rewrite fmap_app, fmap_cons in Hnd. apply NoDup_app in Hnd as (_ & Hfront & Hrest).
    apply NoDup_cons in Hrest as [Hp _].
    assert (∀ us, List.find (fun u => bool_decide (u_id u = p_id p))
                    (omap own_update front ++ us) =
                  List.find (fun u => bool_decide (u_id u = p_id p)) us) as Hskip.
    { intros us. pose proof (find_own_update front p) as Hf.
      induction (omap own_update front) as [|u l IHl]; [done|].
      cbn [List.find app] in *. destruct (bool_decide (u_id u = p_id p)).
      - exfalso. assert (Some u = None) as Habs; [|done].
        apply Hf. intros q Hq Heq. apply (Hfront (p_id p)); [|by left].
        apply list_elem_of_fmap. eauto.
      - apply IHl. intros Hall. by apply Hf in Hall. }
    rewrite Hskip. destruct (own_update p) as [u|] eqn:E.
    + cbn [List.find]. rewrite bool_decide_true by (by apply own_update_id).
      pose proof (set_handle_own p u E) as Hown. unfold set_handle in Hown.
      cbn [List.find] in Hown. by rewrite bool_decide_true in Hown by (by apply own_update_id).
    + rewrite find_own_update; [by rewrite fixed_row_none|].
      intros q Hq Heq. apply Hp. apply list_elem_of_fmap. eauto.
  - specialize (IH (front ++ [p])). rewrite <- app_assoc in IH. by apply IH.
Qed.

Lemma update_handles_rows d :
  NoDup (p_id <$> politicians d) →
  politicians (update_handles (handle_fixes d).1 d) = fixed_row <$> politicians d.
Proof.
  intros Hnd. rewrite handle_fixes_eq. cbn [fst]. unfold select_handles.
  rewrite queued_select. unfold update_handles. cbn [politicians with_politicians].
  apply Forall_fmap_ext. by apply (set_handle_rows (politicians d) []).
Qed.

Lemma length_omap_filter {A B} (f : A → option B) (l : list A) :
  length l = (length (omap f l) + length (filter (fun x => f x = None) l))%nat.
Proof.
  induction l as [|x l IH]; [done|]. cbn [omap list_omap].
  destruct (f x) eqn:E.
  - rewrite filter_cons_False by (by rewrite E). simpl. lia.
  - rewrite filter_cons_True by done. simpl. lia.
Qed.



(** The fix-up of the twitter scraper module on the same store: the same two
    answers, with one update statement per changed row and only the changed
    row reported. *)
Example lib_handle_fix_up :
  TwitterScraper.fixHandle "https://x.com/JohnDoe/status/123?x=1" = ("JohnDoe", true) ∧
  TwitterScraper.fixHandle "janedoe" = ("janedoe", false) ∧
  let r := TwitterScraper.checkAndFixTwitterHandles three_politicians in
  r.1 = Returned {| TwitterScraper.total := 2; TwitterScraper.fixed := 1;
                    TwitterScraper.details :=
                      [{| TwitterScraper.f_id := 1; TwitterScraper.f_name := "John Doe";
                          TwitterScraper.f_original := "https://x.com/JohnDoe/status/123?x=1";
                          TwitterScraper.f_fixed := "JohnDoe" |}] |} ∧
  p_twitter_handle <$> politicians (committed r.2) = [Some "JohnDoe"; Some "janedoe"; None] ∧
  log r.2 = [Query (SELECT Politicians); Query (UPDATE Politicians)].
Proof. vm_compute. done. Qed.

(** ** Instances *)

Lemma rate_limit_backoff_witness :
  (rateLimitedFetch "https://api.twitter.com/2/users/by/username/jack" 0 throttled).1 =
    Returned found_user ∧
  retry_delay (too_many_requests (Some "2")) 0 = Some 2000 ∧
  retry_delay (too_many_requests None) 1 = Some 10000 ∧
  retry_delay (too_many_requests None) 2 = Some 20000.
Proof.
  destruct (rate_limit_backoff throttled "https://api.twitter.com/2/users/by/username/jack"
              (too_many_requests (Some "2")) (too_many_requests None)
              (too_many_requests None) found_user
              eq_refl eq_refl eq_refl eq_refl eq_refl eq_refl eq_refl)
    as (w' & q1 & q2 & q3 & q4 & Hr & _ & _ & _ & _ & _ & _ & H1 & H2 & H3).
  split; [by rewrite Hr|]. by rewrite H1, H2, H3.
Defined.

Lemma stale_fallback_witness :
  getCachedOrFetch "tweet_stats" (throw (NetError 0)) stale_only =
  (Returned (Str "last known good"),
   logged (stale_warning "tweet_stats") (marked "tweet_stats" stale_only)).
Proof.
  exact (stale_fallback "tweet_stats" (throw (NetError 0)) stale_only
           (marked "tweet_stats" stale_only) (NetError 0) eq_refl eq_refl eq_refl).
Defined.

Lemma user_lookup_failure_witness :
  ∃ w', getUserIdFromUsername "@Jack" (fresh_world (fun _ => Some unauthorized)) =
          (Returned Null, w') ∧
        calls w' = 1%nat.
Proof.
  destruct (user_lookup_failure_yields_null (fresh_world (fun _ => Some unauthorized))
              "@Jack" unauthorized eq_refl eq_refl eq_refl eq_refl
              ltac:(discriminate) eq_refl)
    as (w' & Hr & Hc & _).
  by exists w'.
Defined.

Lemma stale_store_tracks_cache_witness :
  let w := (getCachedOrFetch "tweet_stats" (ret (Str "fresh"))
              (fresh_world (fun _ => None))).2 in
  cache_inv w ∧ data <$> staleCache w !! "tweet_stats" = Some (Str "fresh").
Proof.
  assert (run (fresh_world (fun _ => None)) ∅) as H0 by (by apply run_start).
  assert (keeps same_stores (ret (Str "fresh"))) as Hk by (by intros w).
  pose proof (run_getCachedOrFetch _ _ "tweet_stats" (ret (Str "fresh")) H0 Hk) as Hrun.
  destruct (stale_store_tracks_cache _ _ Hrun) as [Hi HL].
  split; [exact Hi|]. rewrite (HL "tweet_stats"). by vm_compute.
Defined.

Lemma ingestion_atomicity_witness :
  let w := failing_at 3 one_stored in
  ∃ e w', saveTweetsToDatabase two_tweets 1 w = (Thrown e, w') ∧
          committed w' = committed w.
Proof.
  destruct ingestion_atomicity as (Hsave & _).
  destruct (saveTweetsToDatabase two_tweets 1 (failing_at 3 one_stored)) as [[n|e] w'] eqn:E;
    [by vm_compute in E|].
  exists e, w'. split; [done|].
  by destruct (Hsave two_tweets 1 (failing_at 3 one_stored) e w' eq_refl E) as (Hc & _).
Defined.

Lemma get_or_compute_witness :
  let w0 := fresh_world (fun _ => None) in
  let w1 := (getCachedOrFetch "tweet_stats" (ret (Str "7 tweets")) w0).2 in
  (getCachedOrFetch "tweet_stats" (throw (NetError 0)) (later CACHE_TTL w1)).1 =
    Returned (Str "7 tweets") ∧
  log (getCachedOrFetch "tweet_stats" (throw (NetError 0)) (later CACHE_TTL w1)).2 =
    [Compute "tweet_stats"] ∧
  (getCachedOrFetch "tweet_stats" (ret (Str "8 tweets")) (later (CACHE_TTL + 1) w1)).1 =
    Returned (Str "8 tweets").
Proof.
  intros w0 w1.
  destruct (get_or_compute "tweet_stats" (ret (Str "7 tweets")) (throw (NetError 0)) w0)
    as [_ Hmiss].
  destruct (Hmiss (Str "7 tweets") (marked "tweet_stats" w0) eq_refl eq_refl)
    as (H1 & _ & _ & _ & H2).
  destruct (get_or_compute "tweet_stats" (ret (Str "7 tweets")) (ret (Str "8 tweets")) w0)
    as [_ Hmiss'].
  destruct (Hmiss' (Str "7 tweets") (marked "tweet_stats" w0) eq_refl eq_refl)
    as (_ & _ & _ & _ & H3).
  assert (w1 = stored "tweet_stats" (Str "7 tweets") (marked "tweet_stats" w0)) as Hw1
    by (subst w1; by rewrite H1).
  rewrite (H2 (later CACHE_TTL w1)) by (by rewrite Hw1).
  rewrite (H3 (later (CACHE_TTL + 1) w1)) by (by rewrite Hw1).
  by vm_compute.
Defined.

(** ** Idempotence of the ingestion *)

Section RowFacts.
Context {A K V : Type} (skel : A → K) (ident : A → Z) (field : A → V).
Hypothesis ident_skel : ∀ a b, skel a = skel b → ident a = ident b.
Hypothesis row_ext : ∀ a b, skel a = skel b → field a = field b → a = b.

Local Abbreviation kept := (kept skel ident field).
Local Abbreviation close := (close skel ident field).
Local Abbreviation extends := (extends skel ident field).
Local Abbreviation sel := (sel skel ident).

Lemma extends_refl T q l : extends T q l l.
Proof.
  induction l as [|a l IH]; [by apply extends_new|].
  apply extends_row; [|done]. split; [done | by right].
Qed.

Lemma extends_app T q D F N :
  extends T q D F → Forall (fun f => q ≤ ident f) N → extends T q D (F ++ N).
Proof.
  induction 1 as [l Hl | d f ds fs Hk _ IH]; intros HN.
  - apply extends_new. by apply Forall_app.
  - simpl. apply extends_row; [done | by apply IH].
Qed.

Lemma extends_update T q t (g : A → A) l :
  (∀ a, skel (g a) = skel a) → (∀ a, ident a ≠ t → g a = a) →
  extends (t :: T) q l (g <$> l).
Proof.
  intros Hs Hg. induction l as [|a l IH]; [by apply extends_new|].
  rewrite fmap_cons. apply extends_row; [|done]. split; [by rewrite Hs|].
  destruct (decide (ident a = t)) as [->|Hne]; [left; by left | right; by rewrite Hg].
Qed.

Lemma extends_weaken T T' q D F :
  T ⊆ T' → extends T q D F → extends T' q D F.
Proof.
  intros Hsub. induction 1 as [l Hl | d f ds fs [Hs Hk] _ IH].
  - by apply extends_new.
  - apply extends_row; [|done]. split; [done|]. destruct Hk; [left; by apply Hsub | by right].
Qed.

Lemma extends_bound T q D F :
  extends T q D F → Forall (fun d => q ≤ ident d) D → Forall (fun f => q ≤ ident f) F.
Proof.
  induction 1 as [l Hl | d f ds fs [Hs Hk] _ IH]; intros HD; [done|].
  apply Forall_cons in HD as [Hd HD]. apply Forall_cons.
  split; [by rewrite <- (ident_skel d f Hs) | by apply IH].
Qed.

Lemma extends_trans T T' q q1 D D1 F :
  q ≤ q1 → extends T q D D1 → extends T' q1 D1 F → extends (T ++ T') q D F.
Proof.
  intros Hq H1. revert F. induction H1 as [l Hl | d d1 ds ds1 [Hs Hk] _ IH]; intros F H2.
  - apply extends_new. apply (extends_bound T' q l F).
    + clear Hl. induction H2 as [l' Hl' | a f l1 l2 Hk' _ IH'].
      * apply extends_new. eapply Forall_impl; [exact Hl'|]. simpl. lia.
      * by apply extends_row.
    + done.
  - inversion H2 as [|? f ? fs [Hs' Hk'] Hrest]; subst.
    apply extends_row; [|by apply IH]. split; [congruence|].
    destruct Hk as [Hin|Hf]; [left; apply elem_of_app; by left|].
    destruct Hk' as [Hin|Hf'].
    + left. apply elem_of_app. right. by rewrite (ident_skel d d1 Hs).
    + right. congruence.
Qed.

Lemma extends_less T q D F :
  extends T q D F → Forall (fun d => ident d < q) D →
  ∀ f, f ∈ F → (∃ d, d ∈ D ∧ kept T d f) ∨ q ≤ ident f.
Proof.
  induction 1 as [l Hl | d f0 ds fs Hk _ IH]; intros HD f Hf.
  - right. by apply (proj1 (Forall_forall _ _) Hl).
  - apply Forall_cons in HD as [_ HD]. apply elem_of_cons in Hf as [->|Hf].
    + left. exists d. split; [by left | done].
    + destruct (IH HD f Hf) as [(d' & Hd' & Hk')|Hq]; [|by right].
      left. exists d'. split; [by right | done].
Qed.

(** A field written before stays as written unless a later call targets
    the row. *)
Lemma extends_field T q D F t v :
  extends T q D F → Forall (fun d => ident d < q) D →
  (∀ d, d ∈ D → ident d = t → field d = v) → t < q →
  ∀ f, f ∈ F → ident f = t → t ∈ T ∨ field f = v.
Proof.
  intros He HD Hv Ht f Hf Hid.
  destruct (extends_less T q D F He HD f Hf) as [(d & Hd & Hs & Hk)|Hq]; [|lia].
  assert (ident d = t) as Hd' by (by rewrite (ident_skel d f Hs)).
  destruct Hk as [Hin|Hfield]; [left; by rewrite <- Hd'|].
  right. rewrite Hfield. by apply Hv.
Qed.

Lemma sel_cons m a l :
  sel m (a :: l) = if m (skel a) then [ident a] else sel m l.
Proof.
  unfold sel. rewrite filter_cons. destruct (m (skel a)) eqn:E.
  - by rewrite decide_True.
  - by rewrite decide_False.
Qed.

Lemma sel_extends T q m D F t :
  extends T q D F → sel m D = [t] → sel m F = [t].
Proof.
  induction 1 as [l Hl | d f ds fs [Hs Hk] _ IH]; [done|].
  rewrite !sel_cons, <- Hs, (ident_skel d f Hs). by destruct (m (skel d)).
Qed.

Lemma sel_close T m X F : Forall2 (close T) X F → sel m X = sel m F.
Proof.
  induction 1 as [|x f X F [Hs _] _ IH]; [done|].
  by rewrite !sel_cons, Hs, (ident_skel x f Hs), IH.
Qed.

Lemma sel_elem m l t : sel m l = [t] → ∃ a, a ∈ l ∧ ident a = t.
Proof.
  induction l as [|a l IH]; [done|]. rewrite sel_cons.
  destruct (m (skel a)).
  - intros [= <-]. exists a. split; [by left | done].
  - intros (a' & Ha & Hid)%IH. exists a'. split; [by right | done].
Qed.

Lemma close_refl T l : Forall2 (close T) l l.
Proof. apply Forall_Forall2_diag, Forall_forall. intros a _. split; [done | by right]. Qed.

Lemma close_nil_eq X F : Forall2 (close []) X F → X = F.
Proof.
  induction 1 as [|x f X F [Hs Hk] _ IH]; [done|]. f_equal; [|done].
  apply row_ext; [done|]. destruct Hk as [Hin|]; [|done]. by apply elem_of_nil in Hin.
Qed.

(** Writing [v] to the rows [t] of [X] settles them, when [F] holds [v]
    there or a later call targets [t]. *)
Lemma close_update T t v (g : A → A) X F :
  (∀ a, skel (g a) = skel a) → (∀ a, ident a = t → field (g a) = v) →
  (∀ a, ident a ≠ t → g a = a) →
  Forall2 (close (t :: T)) X F →
  (∀ f, f ∈ F → ident f = t → t ∈ T ∨ field f = v) →
  Forall2 (close T) (g <$> X) F.
Proof.
  intros Hs Hv Hg H. induction H as [|x f X F [Hsk Hk] _ IH]; intros HF; [done|].
  rewrite fmap_cons. apply Forall2_cons. split.
  - split; [by rewrite Hs|].
    destruct (decide (ident f = t)) as [Hid|Hne].
    + assert (ident x = t) as Hx by (by rewrite (ident_skel x f Hsk)).
      rewrite (Hv x Hx). destruct (HF f) as [Hin|Hf]; [by left | done | | by right].
      left. by rewrite Hid.
    + assert (ident x ≠ t) as Hx by (by rewrite (ident_skel x f Hsk)).
      rewrite (Hg x Hx). destruct Hk as [Hin|Hf]; [|by right].
      apply elem_of_cons in Hin as [Heq|Hin]; [done | by left].
  - apply IH. intros f' Hf'. apply HF. by right.
Qed.

Lemma close_weaken T T' X F :
  T ⊆ T' → Forall2 (close T) X F → Forall2 (close T') X F.
Proof.
  intros Hsub H. eapply Forall2_impl; [exact H|]. intros x f [Hs Hk].
  split; [done|]. destruct Hk; [left; by apply Hsub | by right].
Qed.

Lemma sel_short m l : (length (sel m l) ≤ 1)%nat.
Proof. unfold sel. rewrite length_take. lia. Qed.

Lemma sel_found m l t rest : sel m l = t :: rest → sel m l = [t].
Proof.
  intros E. pose proof (sel_short m l) as H. rewrite E in *.
  destruct rest; [done | simpl in H; lia].
Qed.

Lemma sel_app_nil m l1 l2 : sel m l1 = [] → sel m (l1 ++ l2) = sel m l2.
Proof.
  induction l1 as [|a l1 IH]; [done|]. simpl. rewrite !sel_cons.
  by destruct (m (skel a)).
Qed.

Lemma sel_fmap m (g : A → A) (l : list A) :
  (∀ a, skel (g a) = skel a) → sel m (g <$> l) = sel m l.
Proof.
  intros Hs. induction l as [|a l IH]; [done|].
  by rewrite fmap_cons, !sel_cons, Hs, (ident_skel (g a) a (Hs a)), IH.
Qed.

Lemma field_after_update t v (g : A → A) (l : list A) :
  (∀ a, skel (g a) = skel a) → (∀ a, ident a = t → field (g a) = v) →
  ∀ p, p ∈ g <$> l → ident p = t → field p = v.
Proof.
  intros Hs Hv p (a & -> & _)%list_elem_of_fmap Hid. apply Hv.
  by rewrite <- (ident_skel (g a) a (Hs a)).
Qed.

End RowFacts.

Lemma ident_skel_p a b : skel_p a = skel_p b → p_id a = p_id b.
Proof. by intros [= -> _ _ _]. Qed.

Lemma ident_skel_v a b : skel_v a = skel_v b → v_id a = v_id b.
Proof. by intros [= -> _ _ _]. Qed.

Lemma row_ext_p a b : skel_p a = skel_p b → p_party a = p_party b → a = b.
Proof. destruct a, b. unfold skel_p. simpl. by intros [= -> -> -> ->] ->. Qed.

Lemma row_ext_v a b : skel_v a = skel_v b → v_vote a = v_vote b → a = b.
Proof. destruct a, b. unfold skel_v. simpl. by intros [= -> -> -> ->] ->. Qed.

Lemma select_politician_sel name d :
  select_politician_by_name name d = sel skel_p p_id (m_name name) (politicians d).
Proof. done. Qed.

Lemma select_vote_sel sessionId politicianId d :
  select_vote sessionId politicianId d =
  sel skel_v v_id (m_vote sessionId politicianId) (votes d).
Proof. done. Qed.

Lemma skel_set_party id party p : skel_p (set_party id party p) = skel_p p.
Proof. unfold set_party. by destruct (bool_decide _). Qed.

Lemma skel_set_vote id value v : skel_v (set_vote id value v) = skel_v v.
Proof. unfold set_vote. by destruct (bool_decide _). Qed.

Lemma set_party_hit id party p : p_id p = id → p_party (set_party id party p) = Some party.
Proof. intros H. unfold set_party. by rewrite bool_decide_true. Qed.

Lemma set_party_miss id party p : p_id p ≠ id → set_party id party p = p.
Proof. intros H. unfold set_party. by rewrite bool_decide_false. Qed.

Lemma set_vote_hit id value v : v_id v = id → v_vote (set_vote id value v) = value.
Proof. intros H. unfold set_vote. by rewrite bool_decide_true. Qed.

Lemma set_vote_miss id value v : v_id v ≠ id → set_vote id value v = v.
Proof. intros H. unfold set_vote. by rewrite bool_decide_false. Qed.

Lemma upsert_politician_facts name party ts D :
  sequences_ahead D →
  let pid := (upsert_politician name party ts D).1 in
  let Da := (upsert_politician name party ts D).2 in
  extends skel_p p_id p_party [pid] (politicians_seq D) (politicians D) (politicians Da) ∧
  politicians_seq D ≤ politicians_seq Da ∧
  Forall (fun p => p_id p < politicians_seq Da) (politicians Da) ∧
  sel skel_p p_id (m_name name) (politicians Da) = [pid] ∧
  (∀ p, p ∈ politicians Da → p_id p = pid → p_party p = Some party) ∧
  pid < politicians_seq Da.
Proof.
  intros [Hp _]. unfold upsert_politician. rewrite select_politician_sel.
  destruct (sel skel_p p_id (m_name name) (politicians D)) as [|id rest] eqn:E; cbn [fst snd].
  - unfold insert_politician. cbn [fst snd politicians politicians_seq with_politicians].
    split; [|split; [|split; [|split; [|split]]]].
    + apply extends_app; [apply extends_refl|]. apply Forall_singleton. simpl. lia.
    + lia.
    + apply Forall_app. split.
      * eapply Forall_impl; [exact Hp|]. simpl. lia.
      * apply Forall_singleton. simpl. lia.
    + rewrite (sel_app_nil skel_p p_id) by done.
      rewrite sel_cons. unfold m_name. simpl. by rewrite bool_decide_true.
    + intros p [Hin| ->%list_elem_of_singleton]%elem_of_app Hid; [|done].
      apply (proj1 (Forall_forall _ _) Hp) in Hin. lia.
    + lia.
  - apply (sel_found skel_p p_id) in E.
    cbn [politicians politicians_seq update_party with_politicians].
    split; [|split; [|split; [|split; [|split]]]].
    + apply (extends_update skel_p p_id p_party [] _ id).
      * apply skel_set_party.
      * intros a. apply set_party_miss.
    + lia.
    + apply Forall_fmap. eapply Forall_impl; [exact Hp|]. intros p Hlt. simpl.
      by rewrite (ident_skel_p _ _ (skel_set_party id party p)).
    + rewrite (sel_fmap skel_p p_id ident_skel_p); [done | apply skel_set_party].
    + apply (field_after_update skel_p p_id p_party ident_skel_p id (Some party)).
      * apply skel_set_party.
      * intros a. apply set_party_hit.
    + apply (sel_elem skel_p p_id) in E as (a & Ha & <-).
      by apply (proj1 (Forall_forall _ _) Hp).
Qed.

Lemma saveVote_db_eq sessionId name party value ts D :
  saveVote_db sessionId name party value ts D =
  let pid := (upsert_politician name party ts D).1 in
  let Da := (upsert_politician name party ts D).2 in
  match select_vote sessionId pid Da with
  | id :: _ => update_vote id value Da
  | [] => increment_vote_count sessionId (insert_vote sessionId pid value ts Da)
  end.
Proof. unfold saveVote_db. by destruct (upsert_politician name party ts D). Qed.

Lemma bump_vote_count_id id s : s_id (bump_vote_count id s) = s_id s.
Proof. unfold bump_vote_count. by destruct (bool_decide _). Qed.

Lemma file_vote_facts sessionId pid value ts Da :
  Forall (fun v => v_id v < votes_seq Da) (votes Da) →
  let vid := vote_target sessionId pid Da in
  let D1 := match select_vote sessionId pid Da with
            | id :: _ => update_vote id value Da
            | [] => increment_vote_count sessionId (insert_vote sessionId pid value ts Da)
            end in
  politicians D1 = politicians Da ∧ politicians_seq D1 = politicians_seq Da ∧
  tweets D1 = tweets Da ∧ tweets_seq D1 = tweets_seq Da ∧
  s_id <$> voting_sessions D1 = s_id <$> voting_sessions Da ∧
  extends skel_v v_id v_vote [vid] (votes_seq Da) (votes Da) (votes D1) ∧
  votes_seq Da ≤ votes_seq D1 ∧
  Forall (fun v => v_id v < votes_seq D1) (votes D1) ∧
  sel skel_v v_id (m_vote sessionId pid) (votes D1) = [vid] ∧
  (∀ v, v ∈ votes D1 → v_id v = vid → v_vote v = value) ∧
  vid < votes_seq D1.
Proof.
  intros Hv. unfold vote_target. rewrite select_vote_sel.
  destruct (sel skel_v v_id (m_vote sessionId pid) (votes Da)) as [|id rest] eqn:E.
  - cbn [politicians politicians_seq tweets tweets_seq voting_sessions votes votes_seq
         increment_vote_count insert_vote with_voting_sessions with_votes].
    split; [done|]. split; [done|]. split; [done|]. split; [done|].
    split.
    { rewrite <- list_fmap_compose. apply list_fmap_ext. intros _ s _. apply bump_vote_count_id. }
    split; [|split; [|split; [|split; [|split]]]].
    + apply extends_app; [apply extends_refl|]. apply Forall_singleton. simpl. lia.
    + lia.
    + apply Forall_app. split.
      * eapply Forall_impl; [exact Hv|]. simpl. lia.
      * apply Forall_singleton. simpl. lia.
    + rewrite (sel_app_nil skel_v v_id) by done.
      rewrite sel_cons. unfold m_vote. simpl. by rewrite !bool_decide_true.
    + intros v [Hin| ->%list_elem_of_singleton]%elem_of_app Hid; [|done].
      apply (proj1 (Forall_forall _ _) Hv) in Hin. lia.
    + lia.
  - apply (sel_found skel_v v_id) in E.
    cbn [politicians politicians_seq tweets tweets_seq voting_sessions votes votes_seq
         update_vote with_votes].
    split; [done|]. split; [done|]. split; [done|]. split; [done|]. split; [done|].
    split; [|split; [|split; [|split; [|split]]]].
    + apply (extends_update skel_v v_id v_vote [] _ id).
      * apply skel_set_vote.
      * intros a. apply set_vote_miss.
    + lia.
    + apply Forall_fmap. eapply Forall_impl; [exact Hv|]. intros v Hlt. simpl.
      by rewrite (ident_skel_v _ _ (skel_set_vote id value v)).
    + rewrite (sel_fmap skel_v v_id ident_skel_v); [done | apply skel_set_vote].
    + apply (field_after_update skel_v v_id v_vote ident_skel_v id value).
      * apply skel_set_vote.
      * intros a. apply set_vote_hit.
    + apply (sel_elem skel_v v_id) in E as (a & Ha & <-).
      by apply (proj1 (Forall_forall _ _) Hv).
Qed.

Lemma upsert_politician_rest name party ts D :
  let Da := (upsert_politician name party ts D).2 in
  votes Da = votes D ∧ votes_seq Da = votes_seq D ∧
  voting_sessions Da = voting_sessions D ∧
  tweets Da = tweets D ∧ tweets_seq Da = tweets_seq D.
Proof.
  unfold upsert_politician. by destruct (select_politician_by_name name D).
Qed.

Lemma db_extends_refl Tp Tv D : db_extends Tp Tv D D.
Proof.
  repeat split; try done; try lia; apply extends_refl.
Qed.

Lemma db_extends_trans Tp Tv Tp' Tv' D D1 F :
  db_extends Tp Tv D D1 → db_extends Tp' Tv' D1 F →
  db_extends (Tp ++ Tp') (Tv ++ Tv') D F.
Proof.
  intros (Hp & Hv & Hpq & Hvq & Hs & Ht) (Hp' & Hv' & Hpq' & Hvq' & Hs' & Ht').
  split; [by apply (extends_trans skel_p p_id p_party ident_skel_p Tp Tp' _
                      (politicians_seq D1) _ (politicians D1))|].
  split; [by apply (extends_trans skel_v v_id v_vote ident_skel_v Tv Tv' _
                      (votes_seq D1) _ (votes D1))|].
  split; [lia|]. split; [lia|]. split; [naive_solver | naive_solver].
Qed.

Lemma saveVotingSession_db_facts sessionId title date ts D :
  let D1 := saveVotingSession_db sessionId title date ts D in
  politicians D1 = politicians D ∧ politicians_seq D1 = politicians_seq D ∧
  votes D1 = votes D ∧ votes_seq D1 = votes_seq D ∧
  tweets D1 = tweets D ∧ tweets_seq D1 = tweets_seq D ∧
  (∀ id, id ∈ s_id <$> voting_sessions D → id ∈ s_id <$> voting_sessions D1) ∧
  (∀ id, JS.parseInt sessionId = Some id → id ∈ s_id <$> voting_sessions D1).
Proof.
  unfold saveVotingSession_db. destruct (JS.parseInt sessionId) as [id|]; [|done].
  unfold select_session.
  destruct (filter (fun s => s_id s = id) (voting_sessions D)) as [|s rest] eqn:E; simpl.
  - repeat split; try done.
    + intros i Hi. rewrite fmap_app. apply elem_of_app. by left.
    + intros i [= <-]. rewrite fmap_app. apply elem_of_app. right. by left.
  - repeat split; try done. intros i [= <-].
    assert (s ∈ filter (fun s => s_id s = id) (voting_sessions D)) as Hs
      by (rewrite E; by left).
    apply list_elem_of_filter in Hs as [<- Hs]. by apply list_elem_of_fmap_2.
Qed.

Lemma apply_call_extends ts c D :
  sequences_ahead D →
  db_extends (targets_p ts c D) (targets_v ts c D) D (apply_call ts c D) ∧
  sequences_ahead (apply_call ts c D).
Proof.
  intros Hw. destruct c as [sessionId title date | sessionId name party value
                           | tweetData politicianId];
    cbn [apply_call targets_p targets_v].
  - destruct (saveVotingSession_db_facts sessionId title date ts D)
      as (Hp & Hpq & Hv & Hvq & Ht & Htq & Hs & _).
    split.
    + unfold db_extends. rewrite Hp, Hpq, Hv, Hvq, Ht.
      repeat split; try done; try lia; apply extends_refl.
    + unfold sequences_ahead. by rewrite Hp, Hpq, Hv, Hvq.
  - rewrite saveVote_db_eq. cbv zeta.
    destruct (upsert_politician_facts name party ts D Hw) as (Hp & Hpq & Hpw & _).
    destruct (upsert_politician_rest name party ts D) as (Hv & Hvq & Hs & Ht & Htq).
    set (pid := (upsert_politician name party ts D).1) in *.
    set (Da := (upsert_politician name party ts D).2) in *.
    assert (Forall (fun v => v_id v < votes_seq Da) (votes Da)) as Hvw
      by (rewrite Hv, Hvq; apply Hw).
    destruct (file_vote_facts sessionId pid value ts Da Hvw)
      as (Hp1 & Hpq1 & Ht1 & Htq1 & Hs1 & Hv1 & Hvq1 & Hvw1 & _).
    split.
    + unfold db_extends. rewrite Hp1, Hpq1, Ht1. rewrite <- Hv, <- Hvq.
      split; [done|]. split; [done|]. split; [lia|]. split; [lia|].
      split; [by rewrite Hs1, Hs | by rewrite Ht].
    + unfold sequences_ahead. rewrite Hp1, Hpq1. done.
  - split.
    + unfold db_extends, insert_tweets.
      cbn [politicians politicians_seq votes votes_seq voting_sessions tweets with_tweets].
      repeat split; try done; try lia; try apply extends_refl.
      intros t Ht. apply elem_of_app. by left.
    + done.
Qed.

Lemma apply_batch_extends ts batch D :
  sequences_ahead D →
  db_extends (batch_targets_p ts batch D) (batch_targets_v ts batch D) D
    (apply_batch ts batch D) ∧
  sequences_ahead (apply_batch ts batch D).
Proof.
  revert D. induction batch as [|c rest IH]; intros D Hw.
  - split; [apply db_extends_refl | done].
  - cbn [apply_batch batch_targets_p batch_targets_v].
    destruct (apply_call_extends ts c D Hw) as [He Hw1].
    destruct (IH _ Hw1) as [He' Hw'].
    split; [by eapply db_extends_trans | done].
Qed.

Lemma select_session_found id d :
  id ∈ s_id <$> voting_sessions d → select_session id d ≠ [].
Proof.
  intros (s & -> & Hs)%list_elem_of_fmap. unfold select_session.
  assert (s ∈ filter (fun s' => s_id s' = s_id s) (voting_sessions d)) as Hf
    by (by apply list_elem_of_filter).
  by destruct (filter _ (voting_sessions d)); [apply elem_of_nil in Hf|].
Qed.

Lemma batch_stored tweetData politicianId d t :
  t ∈ tweetData →
  a_id t ∈ select_tweet_ids politicianId
             (insert_tweets (tweets_to_insert tweetData politicianId d) d).
Proof.
  intros Ht. unfold select_tweet_ids, insert_tweets. simpl. rewrite filter_app, fmap_app.
  apply elem_of_app.
  destruct (decide (a_id t ∈ select_tweet_ids politicianId d)) as [Hs|Hs]; [by left|right].
  apply list_elem_of_fmap.
  assert ((a_id t, politicianId, a_text t, a_created_at t)
          ∈ tweets_to_insert tweetData politicianId d) as Hv.
  { unfold tweets_to_insert. rewrite new_values_spec. apply list_elem_of_fmap.
    exists t. split; [done|]. by apply list_elem_of_filter. }
  rewrite <- (number_tweets_columns (tweets_seq d)) in Hv.
  apply list_elem_of_fmap in Hv as (row & Hrow & Hin).
  exists row. split; [by injection Hrow|].
  apply list_elem_of_filter. split; [by injection Hrow | done].
Qed.

Lemma nothing_to_insert tweetData politicianId d :
  (∀ t, t ∈ tweetData → a_id t ∈ select_tweet_ids politicianId d) →
  tweets_to_insert tweetData politicianId d = [].
Proof.
  intros H. unfold tweets_to_insert. rewrite new_values_spec.
  rewrite filter_none; [done|]. intros t Ht Hns. by apply Hns, H.
Qed.

Lemma select_tweet_ids_mono politicianId d d' i :
  (∀ t, t ∈ tweets d → t ∈ tweets d') →
  i ∈ select_tweet_ids politicianId d → i ∈ select_tweet_ids politicianId d'.
Proof.
  intros Hsub (t & -> & Ht)%list_elem_of_fmap. apply list_elem_of_fmap.
  exists t. split; [done|]. apply list_elem_of_filter in Ht as [Hp Ht].
  apply list_elem_of_filter. split; [done | by apply Hsub].
Qed.

Lemma database_eq (a b : database) :
  politicians a = politicians b → politicians_seq a = politicians_seq b →
  voting_sessions a = voting_sessions b → votes a = votes b → votes_seq a = votes_seq b →
  tweets a = tweets b → tweets_seq a = tweets_seq b → a = b.
Proof. destruct a, b. simpl. by intros -> -> -> -> -> -> ->. Qed.

(** A call that went in before is absorbed: applied again, it writes its own
    rows and nothing else. *)
Lemma call_absorbed ts ts' c D X F Tp Tv :
  sequences_ahead D →
  db_extends Tp Tv (apply_call ts c D) F →
  db_agree (targets_p ts c D ++ Tp) (targets_v ts c D ++ Tv) X F →
  db_agree Tp Tv (apply_call ts' c X) F.
Proof.
  intros Hw (Hep & Hev & Hpq & Hvq & Hes & Het) (Hap & Hav & Hapq & Havq & Has & Hat & Hatq).
  destruct c as [sessionId title date | sessionId name party value
                | tweetData politicianId];
    cbn [apply_call targets_p targets_v app] in *.
  - assert (saveVotingSession_db sessionId title date ts' X = X) as ->; [|done].
    unfold saveVotingSession_db. destruct (JS.parseInt sessionId) as [id|] eqn:E; [|done].
    destruct (saveVotingSession_db_facts sessionId title date ts D) as (_ & _ & _ & _ & _ & _ & _ & Hin).
    rewrite E in Hin. specialize (Hin id eq_refl). apply Hes in Hin. rewrite <- Has in Hin.
    apply select_session_found in Hin. by destruct (select_session id X).
  - rewrite saveVote_db_eq in Hep, Hev, Hpq, Hvq. cbv zeta in *.
    destruct (upsert_politician_facts name party ts D Hw) as (_ & _ & Hpw & Hsel & Hfield & Hlt).
    destruct (upsert_politician_rest name party ts D) as (Hv & Hvq0 & _).
    set (pid := (upsert_politician name party ts D).1) in *.
    set (Da := (upsert_politician name party ts D).2) in *.
    assert (Forall (fun v => v_id v < votes_seq Da) (votes Da)) as Hvw
      by (rewrite Hv, Hvq0; apply Hw).
    destruct (file_vote_facts sessionId pid value ts Da Hvw)
      as (Hp1 & Hpq1 & _ & _ & _ & _ & _ & Hvw1 & Hvsel & Hvfield & Hvlt).
    set (vid := vote_target sessionId pid Da) in *.
    set (D1 := match select_vote sessionId pid Da with
               | [] => increment_vote_count sessionId (insert_vote sessionId pid value ts Da)
               | id :: _ => update_vote id value Da
               end) in *.
    rewrite Hp1, Hpq1 in Hep.
    (* the call finds its politician and its vote in [X] *)
    assert (select_politician_by_name name X = [pid]) as HselX.
    { rewrite select_politician_sel.
      rewrite (sel_close skel_p p_id p_party ident_skel_p _ _ _ _ Hap).
      by apply (sel_extends skel_p p_id p_party ident_skel_p Tp _ _ _ _ _ Hep). }
    assert (select_vote sessionId pid (update_party pid party X) = [vid]) as HvselX.
    { rewrite select_vote_sel. cbn [votes update_party with_politicians].
      rewrite (sel_close skel_v v_id v_vote ident_skel_v _ _ _ _ Hav).
      by apply (sel_extends skel_v v_id v_vote ident_skel_v Tv _ _ _ _ _ Hev). }
    rewrite saveVote_db_eq. cbv zeta. unfold upsert_politician. rewrite HselX.
    cbn [fst snd]. rewrite HvselX.
    unfold db_agree.
    cbn [politicians politicians_seq votes votes_seq voting_sessions tweets tweets_seq
         update_vote update_party with_votes with_politicians].
    split; [|split; [|done]].
    + apply (close_update skel_p p_id p_party ident_skel_p Tp pid (Some party)).
      * apply skel_set_party.
      * intros a. apply set_party_hit.
      * intros a. apply set_party_miss.
      * done.
      * by apply (extends_field skel_p p_id p_party ident_skel_p Tp
                    (politicians_seq Da) (politicians Da)).
    + apply (close_update skel_v v_id v_vote ident_skel_v Tv vid value).
      * apply skel_set_vote.
      * intros a. apply set_vote_hit.
      * intros a. apply set_vote_miss.
      * done.
      * by apply (extends_field skel_v v_id v_vote ident_skel_v Tv
                    (votes_seq D1) (votes D1)).
  - rewrite nothing_to_insert, insert_tweets_nil; [done|].
    intros t Ht. apply (select_tweet_ids_mono politicianId F).
    + intros t'. by rewrite Hat.
    + eapply select_tweet_ids_mono; [exact Het|]. by apply batch_stored.
Qed.

Lemma db_agree_refl Tp Tv F : db_agree Tp Tv F F.
Proof. repeat split; try done; apply close_refl. Qed.

Lemma db_agree_eq X F : db_agree [] [] X F → X = F.
Proof.
  intros (Hp & Hv & Hpq & Hvq & Hs & Ht & Htq).
  apply database_eq; try done.
  - by apply (close_nil_eq skel_p p_id p_party row_ext_p).
  - by apply (close_nil_eq skel_v v_id v_vote row_ext_v).
Qed.

Lemma batch_absorbed ts ts' batch D X :
  sequences_ahead D →
  db_agree (batch_targets_p ts batch D) (batch_targets_v ts batch D) X
    (apply_batch ts batch D) →
  apply_batch ts' batch X = apply_batch ts batch D.
Proof.
  revert D X. induction batch as [|c rest IH]; intros D X Hw Ha.
  - by apply db_agree_eq.
  - cbn [apply_batch batch_targets_p batch_targets_v] in *.
    destruct (apply_call_extends ts c D Hw) as [_ Hw1].
    destruct (apply_batch_extends ts rest _ Hw1) as [He _].
    apply (IH _ _ Hw1). exact (call_absorbed ts ts' c D X _ _ _ Hw He Ha).
Qed.

Lemma apply_batch_idempotent ts ts' batch D :
  sequences_ahead D →
  apply_batch ts' batch (apply_batch ts batch D) = apply_batch ts batch D.
Proof. intros Hw. apply batch_absorbed; [done | apply db_agree_refl]. Qed.

Lemma perform_ok c w :
  no_faults w → tx w = None →
  ∃ w', perform c w = (Returned tt, w') ∧
        committed w' = apply_call (now w) c (committed w) ∧
        tx w' = None ∧ db_fails w' = db_fails w ∧ now w' = now w.
Proof.
  intros Hf Htx. unfold perform, try_catch, bind.
  destruct c as [sessionId title date | sessionId name party value
                | tweetData politicianId]; cbn [apply_call].
  - destruct (saveVotingSession_ok sessionId title date w Hf)
      as (r & w' & -> & Hc & Ht & Hd & Hn & _).
    exists w'. rewrite Ht. by destruct r.
  - destruct (saveVote_ok sessionId name party value w Hf)
      as (w' & -> & Hc & Ht & Hd & Hn & _).
    exists w'. by rewrite Ht.
  - destruct tweetData as [|t l].
    + exists w. by rewrite insert_tweets_nil.
    + destruct (saveTweetsToDatabase_ok (t :: l) politicianId w Hf Htx ltac:(done))
        as (w' & -> & Hc & Ht & Hd & Hn & _).
      by exists w'.
Qed.

Lemma ingest_ok batch w :
  no_faults w → tx w = None →
  ∃ w', ingest batch w = (Returned tt, w') ∧
        committed w' = apply_batch (now w) batch (committed w) ∧
        tx w' = None ∧ db_fails w' = db_fails w ∧ now w' = now w.
Proof.
  revert w. induction batch as [|c rest IH]; intros w Hf Htx.
  - by exists w.
  - cbn [ingest apply_batch]. unfold bind.
    destruct (perform_ok c w Hf Htx) as (w1 & -> & Hc & Ht & Hd & Hn).
    destruct (IH w1) as (w' & -> & Hc' & Ht' & Hd' & Hn'); [by intros k; rewrite Hd | done |].
    exists w'. rewrite Hc', Hc, Hn. repeat split; try done; congruence.
Qed.



(** ** Further properties *)

(** ** The rate-limited fetch, for any network *)

Lemma waited_now w : now w ≤ now (waited w).
Proof.
  unfold waited. destruct (quota_exhausted _ _); simpl; lia.
Qed.

Lemma step_facts url t r ms w :
  let w1 := backed_off ms (answered url t r (waited w)) in
  calls w1 = S (calls w) ∧ network w1 = network w ∧ now w ≤ now w1.
Proof.
  pose proof (waited_facts w) as (Hc & Hn & _). pose proof (waited_now w).
  unfold backed_off, answered. simpl. rewrite Hc, Hn. repeat split. lia.
Qed.

Lemma rateLimitedFetch_from_requests left url n w :
  let r := rateLimitedFetch_from left url n w in
  (calls w < calls r.2 ≤ calls w + left + 1)%nat ∧
  now w ≤ now r.2 ∧
  (r.1 = Thrown rate_limit_exceeded →
   calls r.2 = (calls w + left + 1)%nat ∧
   ∀ i, (i ≤ left)%nat →
        ∃ resp, network w (calls w + i)%nat = Some resp ∧ status resp = 429).
Proof.
  revert n w. induction left as [|left IH]; intros n w; cbv zeta;
    rewrite rateLimitedFetch_from_unfold;
    pose proof (waited_facts w) as (Hc & Hn & _); pose proof (waited_now w) as Ht;
    destruct (network w (calls w)) as [resp|] eqn:E; simpl; rewrite ?Hc;
    try (split; [lia|split; [lia|discriminate]]).
  - destruct (bool_decide_reflect (status resp = 429)) as [Hs|Hs]; simpl; rewrite ?Hc.
    + split; [lia|]. split; [lia|]. intros _. split; [lia|].
      intros i Hi. assert (i = 0%nat) as -> by lia. rewrite Nat.add_0_r. eauto.
    + split; [lia|]. split; [lia|]. discriminate.
  - destruct (bool_decide_reflect (status resp = 429)) as [Hs|Hs]; simpl; rewrite ?Hc.
    + pose proof (step_facts url (now w) resp (retry_delay resp n) w) as (Sc & Sn & St).
      cbv zeta in Sc, Sn, St.
      specialize (IH (S n)
                    (backed_off (retry_delay resp n) (answered url (now w) resp (waited w)))).
      cbv zeta in IH. rewrite Sc, Sn in IH. destruct IH as (IH1 & IH2 & IH3).
      split; [lia|]. split; [lia|]. intros Hr. destruct (IH3 Hr) as (IH4 & IH5).
      split; [lia|]. intros [|i] Hi.
      * rewrite Nat.add_0_r. eauto.
      * destruct (IH5 i) as (resp' & R1 & R2); [lia|].
        exists resp'. split; [|done]. rewrite <- R1. f_equal. lia.
    + split; [lia|]. split; [lia|]. discriminate.
Qed.

(** X1 [rateLimitedFetch]: whatever the network answers, a call makes at
    least one request and at most one per retry that is left plus one; the
    clock never goes back; and the rate-limit error is thrown only after
    the whole budget of requests was answered with a 429. *)
Theorem rateLimitedFetch_request_bound (url : string) (n : nat) (w : world) :
  let r := rateLimitedFetch url n w in
  (calls w < calls r.2 ≤ calls w + (MAX_RETRIES - n) + 1)%nat ∧
  now w ≤ now r.2 ∧
  (r.1 = Thrown rate_limit_exceeded →
   calls r.2 = (calls w + (MAX_RETRIES - n) + 1)%nat ∧
   ∀ i, (i ≤ MAX_RETRIES - n)%nat →
        ∃ resp, network w (calls w + i)%nat = Some resp ∧ status resp = 429).
Proof. apply rateLimitedFetch_from_requests. Qed.

Lemma rateLimitedFetch_from_first left url n j w :
  (j ≤ left)%nat →
  (∀ i, (i < j)%nat → ∃ r, network w (calls w + i)%nat = Some r ∧ status r = 429) →
  (∀ r, network w (calls w + j)%nat = Some r → status r ≠ 429) →
  ∃ w', rateLimitedFetch_from left url n w =
          (match network w (calls w + j)%nat with
           | Some r => Returned r
           | None => Thrown (NetError (calls w + j))
           end, w') ∧
        calls w' = (calls w + j + 1)%nat.
Proof.
  revert left n w. induction j as [|j IH]; intros left n w Hj Hbusy Hlast;
    rewrite rateLimitedFetch_from_unfold;
    pose proof (waited_facts w) as (Hc & Hn & _).
  - rewrite Nat.add_0_r in *. destruct (network w (calls w)) as [r|] eqn:E.
    + cbv zeta. rewrite bool_decide_eq_false_2 by by apply Hlast.
      eexists. split; [done|]. simpl. rewrite Hc. lia.
    + eexists. split; [done|]. simpl. rewrite Hc. lia.
  - destruct (Hbusy 0%nat) as (r & E & Hs); [lia|]. rewrite Nat.add_0_r in E.
    rewrite E. cbv zeta. rewrite bool_decide_eq_true_2 by done.
    destruct left as [|left]; [lia|].
    pose proof (step_facts url (now w) r (retry_delay r n) w) as (Sc & Sn & _).
    cbv zeta in Sc, Sn.
    destruct (IH left (S n)
                (backed_off (retry_delay r n) (answered url (now w) r (waited w))))
      as (w' & R & C).
    + lia.
    + intros i Hi. rewrite Sc, Sn. destruct (Hbusy (S i)) as (r' & E' & Hs'); [lia|].
      exists r'. split; [|done]. rewrite <- E'. f_equal. lia.
    + intros r'. rewrite Sc, Sn. replace (S (calls w) + j)%nat
        with (calls w + S j)%nat by lia. apply Hlast.
    + exists w'. rewrite R, Sc, Sn in *.
      replace (S (calls w) + j)%nat with (calls w + S j)%nat by lia.
      split; [done|]. lia.
Qed.

(** X2 [rateLimitedFetch]: when the next [j] requests are answered with a
    429 and [j] retries are still allowed, the outcome of the request after
    them ends the call, with [j + 1] requests made: a response that is not a
    429 is returned whatever its status, and a request that fails is
    rethrown as it is, without a retry. *)
Theorem rateLimitedFetch_first_answer (url : string) (n j : nat) (w : world) :
  (n + j ≤ MAX_RETRIES)%nat →
  (∀ i, (i < j)%nat → ∃ r, network w (calls w + i)%nat = Some r ∧ status r = 429) →
  (∀ r, network w (calls w + j)%nat = Some r → status r ≠ 429) →
  ∃ w', rateLimitedFetch url n w =
          (match network w (calls w + j)%nat with
           | Some r => Returned r
           | None => Thrown (NetError (calls w + j))
           end, w') ∧
        calls w' = (calls w + j + 1)%nat.
Proof.
  intros Hn. apply rateLimitedFetch_from_first. lia.
Qed.

Lemma rateLimitedFetch_from_quota left url n w r w' :
  rateLimitedFetch_from left url n w = (Returned r, w') →
  ∃ t old, rateLimitInfo w' = update_rate_limit t r old ∧ now w ≤ t ≤ now w'.
Proof.
  revert n w. induction left as [|left IH]; intros n w;
    rewrite rateLimitedFetch_from_unfold; pose proof (waited_now w) as Ht;
    (destruct (network w (calls w)) as [resp|]; [|done]); cbv zeta;
    destruct (bool_decide (status resp = 429)); try done.
  - intros [= <- <-]. eexists _, _. split; [reflexivity|]. simpl. lia.
  - intros E. destruct (IH _ _ E) as (t & old & Hq & Hle).
    exists t, old. split; [done|].
    pose proof (step_facts url (now w) resp (retry_delay resp n) w) as (_ & _ & St).
    cbv zeta in St. lia.
  - intros [= <- <-]. eexists _, _. split; [reflexivity|]. simpl. lia.
Qed.


Lemma rateLimitedFetch_from_log left url n w :
  ∃ rest, log (rateLimitedFetch_from left url n w).2 =
          log w ++ quota_wait w ++ Fetch url :: rest.
Proof.
  revert n w. induction left as [|left IH]; intros n w;
    rewrite rateLimitedFetch_from_unfold;
    pose proof (waited_facts w) as (_ & _ & Hl);
    (destruct (network w (calls w)) as [resp|];
       [|exists []; simpl; by rewrite Hl, <- app_assoc]);
    cbv zeta; destruct (bool_decide (status resp = 429));
    try (exists []; simpl; by rewrite Hl, <- app_assoc).
  destruct (IH (S n) (backed_off (retry_delay resp n) (answered url (now w) resp (waited w))))
    as (rest & ->).
  eexists. simpl. rewrite Hl, <- !app_assoc. simpl. reflexivity.
Qed.


(** ** Invalidation *)

Lemma lru_find_without_same k (c : lru) : lru_find k (lru_without k c) = None.
Proof.
  unfold lru_find, lru_without, lru in *. induction c as [|e c IH]; [done|].
  rewrite filter_cons. destruct (decide (l_key e ≠ k)) as [H|H]; [|done].
  simpl. by rewrite bool_decide_eq_false_2.
Qed.

Lemma lru_find_without_other k k' (c : lru) :
  k' ≠ k → lru_find k' (lru_without k c) = lru_find k' c.
Proof.
  intros Hk. unfold lru_find, lru_without, lru in *. induction c as [|e c IH]; [done|].
  rewrite filter_cons. destruct (decide (l_key e ≠ k)) as [H|H]; simpl.
  - by rewrite IH.
  - rewrite bool_decide_eq_false_2; [done|]. intros E. apply H. congruence.
Qed.

Lemma cached_deleted t k c w : cache w = lru_delete k c → cached t k w = None.
Proof.
  intros E. unfold cached, lru_get. rewrite E. unfold lru_delete.
  by rewrite lru_find_without_same.
Qed.

Lemma lru_get_find t k c c' :
  lru_find k c' = lru_find k c → (lru_get t k c').1 = (lru_get t k c).1.
Proof.
  intros E. unfold lru_get. rewrite E. destruct (lru_find k c) as [e|]; [|done].
  by destruct (is_stale t e).
Qed.

Lemma lru_without_comm k k' (c : lru) :
  lru_without k (lru_without k' c) = lru_without k' (lru_without k c).
Proof.
  unfold lru_without, lru in *. induction c as [|e c IH]; [done|].
  rewrite !filter_cons.
  destruct (decide (l_key e ≠ k')), (decide (l_key e ≠ k)); rewrite ?filter_cons;
    repeat case_decide; try done; by rewrite IH.
Qed.

Lemma saveTweetsToDatabase_caches tweetData politicianId w :
  let r := saveTweetsToDatabase tweetData politicianId w in
  staleCache r.2 = staleCache w ∧
  match r.1 with
  | Returned _ =>
      match tweetData with
      | [] => r.2 = w
      | _ => cache r.2 = lru_delete "tweet_stats" (lru_delete "recent_tweets_10" (cache w))
      end
  | Thrown _ => cache r.2 = cache w
  end.
Proof.
  cbv zeta. unfold saveTweetsToDatabase. destruct tweetData as [|a l]; [done|].
  unfold bind, finally, try_catch, getClient, begin, query, commit, rollback, ret, throw, modify.
  simpl.
  destruct (tx w) eqn:Htx;
    fault_cases w Htx; try done;
    destruct (new_values _ _ _); simpl; fault_cases w Htx; done.
Qed.

Lemma checkAndFixTwitterHandles_caches w :
  let r := checkAndFixTwitterHandles w in
  staleCache r.2 = staleCache w ∧
  match r.1 with
  | Returned _ => cache r.2 = lru_delete "politicians_with_twitter" (cache w)
  | Thrown _ => cache r.2 = cache w
  end.
Proof.
  cbv zeta. unfold checkAndFixTwitterHandles.
  unfold bind, finally, try_catch, getClient, begin, query, commit, rollback, ret, throw, modify.
  simpl.
  destruct (tx w) eqn:Htx;
    fault_cases w Htx; try done;
    destruct (fold_left check_row _ _) as [[|u us] ds]; simpl; fault_cases w Htx; done.
Qed.

(** X5 [saveTweetsToDatabase]: what a call does to the two stores of the
    fetch layer. The stale store is never touched. A call that returns for
    a batch that is not empty has removed exactly the keys [tweet_stats] and
    [recent_tweets_10] from the primary cache: both read as absent at any
    time, every other key reads as before. An empty batch changes nothing at
    all, and a call that throws leaves the primary cache as it was. *)
Theorem saveTweetsToDatabase_invalidates (tweetData : list api_tweet) (politicianId : Z)
    (w : world) :
  let r := saveTweetsToDatabase tweetData politicianId w in
  staleCache r.2 = staleCache w ∧
  match r.1 with
  | Returned _ =>
      match tweetData with
      | [] => r.2 = w
      | _ =>
          cache r.2 = lru_delete "tweet_stats" (lru_delete "recent_tweets_10" (cache w)) ∧
          (∀ t, cached t "tweet_stats" r.2 = None ∧ cached t "recent_tweets_10" r.2 = None) ∧
          (∀ t k, k ≠ "tweet_stats" → k ≠ "recent_tweets_10" →
                  cached t k r.2 = cached t k w)
      end
  | Thrown _ => cache r.2 = cache w
  end.
Proof.
  cbv zeta. pose proof (saveTweetsToDatabase_caches tweetData politicianId w) as [Hs Hc].
  cbv zeta in Hc. split; [done|].
  destruct (saveTweetsToDatabase tweetData politicianId w) as [[n|e] w']; simpl in *; [|done].
  destruct tweetData as [|a l]; [done|]. split; [done|]. split.
  - intros t. split; [by eapply cached_deleted|].
    unfold lru_delete in Hc. rewrite lru_without_comm in Hc. by eapply cached_deleted.
  - intros t k H1 H2. unfold cached. apply lru_get_find. rewrite Hc. unfold lru_delete.
    by rewrite !lru_find_without_other.
Qed.

(** X6 [saveTweetsToDatabase], [getCachedOrFetch]: the invalidation does not
    reach the stale store. When statistics were cached before a save, and
    the recomputation after the save fails, the reader gets the statistics
    from before the save, with the stale-data warning. *)
Theorem stale_stats_after_save (tweetData : list api_tweet) (politicianId : Z)
    (w w' w2 : world) (n : Z) (item : CacheItem) (fetchFn : M any) (e : error) :
  tweetData ≠ [] →
  cache_inv w →
  cached (now w) "tweet_stats" w = Some item →
  saveTweetsToDatabase tweetData politicianId w = (Returned n, w') →
  fetchFn (marked "tweet_stats" w') = (Thrown e, w2) →
  staleCache w2 = staleCache w' →
  getCachedOrFetch "tweet_stats" fetchFn w' =
  (Returned (data item), logged (stale_warning "tweet_stats") w2).
Proof.
  intros Hne Hinv Hhit Hsave Hfail Hstale.
  pose proof (saveTweetsToDatabase_caches tweetData politicianId w) as [Hs Hc].
  rewrite Hsave in Hs, Hc. simpl in Hs, Hc.
  destruct tweetData as [|a l]; [done|].
  rewrite getCachedOrFetch_eq, (cached_deleted _ _ _ _ Hc), Hfail, Hstale, Hs.
  destruct (lru_get_Some _ _ _ _ Hhit) as (en & Hin & Hk & Hv).
  specialize (Hinv en Hin). rewrite Hk, Hv in Hinv. by rewrite Hinv.
Qed.

(** X7 [checkAndFixTwitterHandles]: a run that returns has removed the key
    [politicians_with_twitter] from the primary cache, whether or not a
    handle was fixed, and no other key; the stale store is never touched,
    and a run that throws leaves the primary cache as it was. *)
Theorem checkAndFixTwitterHandles_invalidates (w : world) :
  let r := checkAndFixTwitterHandles w in
  staleCache r.2 = staleCache w ∧
  match r.1 with
  | Returned _ =>
      cache r.2 = lru_delete "politicians_with_twitter" (cache w) ∧
      (∀ t, cached t "politicians_with_twitter" r.2 = None) ∧
      (∀ t k, k ≠ "politicians_with_twitter" → cached t k r.2 = cached t k w)
  | Thrown _ => cache r.2 = cache w
  end.
Proof.
  cbv zeta. pose proof (checkAndFixTwitterHandles_caches w) as [Hs Hc].
  cbv zeta in Hc. split; [done|].
  destruct (checkAndFixTwitterHandles w) as [[n|e] w']; simpl in *; [|done].
  split; [done|]. split.
  - intros t. by eapply cached_deleted.
  - intros t k H1. unfold cached. apply lru_get_find. rewrite Hc. unfold lru_delete.
    by rewrite lru_find_without_other.
Qed.

(** ** The user lookup, further *)

Lemma lookupUserId_value cu w :
  ∃ v w', lookupUserId cu w = (Returned v, w') ∧
          (v = Null ∨ ∃ id, v = Str id ∧ JS.truthy id = true).
Proof.
  unfold lookupUserId, try_catch, bind, get.
  destruct (negb (present (TWITTER_API_KEY w))); [eexists _, _; eauto|].
  destruct (rateLimitedFetch _ 0 w) as [[r|e] w1]; [|eexists _, _; eauto].
  unfold json, ret, throw.
  destruct (negb (ok r)); (destruct (body r) as [p|]; [|eexists _, _; eauto]).
  - destruct (errors p) as [[|e l]|]; [eexists _, _; eauto| |eexists _, _; eauto].
    destruct (classify_errors (e :: l)) as [[v|err]|] eqn:E; [|eexists _, _; eauto..].
    rewrite (classify_errors_null _ _ E). eexists _, _; eauto.
  - destruct (data_id p) as [id|]; [|eexists _, _; eauto].
    destruct (JS.truthy id) eqn:T; eexists _, _; eauto.
Qed.

(** X8 [getUserIdFromUsername]: the lookup never throws, whatever the
    network, the API key and the stores are; and what it returns on a cache
    miss is null or a user id that is not empty. *)
Theorem getUserIdFromUsername_never_throws (username : string) (w : world) :
  ∃ v w', getUserIdFromUsername username w = (Returned v, w') ∧
          (cached (now w) (user_key username) w = None →
           v = Null ∨ ∃ id, v = Str id ∧ JS.truthy id = true).
Proof.
  unfold getUserIdFromUsername. destruct (negb _); [eexists _, _; eauto|].
  fold (user_key username). rewrite getCachedOrFetch_eq.
  destruct (cached _ _ _); [by eexists _, _|].
  destruct (lookupUserId_value (cleanUsername username) (marked (user_key username) w))
    as (v & w' & -> & Hv).
  eexists _, _; eauto.
Qed.

Lemma user_key_truthy u u' :
  user_key u' = user_key u →
  JS.truthy (cleanUsername u) = true → JS.truthy (cleanUsername u') = true.
Proof.
  unfold user_key. intros E. cbn in E. injection E as E.
  destruct (cleanUsername u), (cleanUsername u'); done.
Qed.

(** X9 [getUserIdFromUsername], [getCachedOrFetch]: what a lookup returns on
    a miss, the null of a failed lookup included, is kept for the time to
    live: until then a lookup of the same name, in whatever letter case and
    with or without the [@], returns it again without any request. *)
Theorem getUserIdFromUsername_caches_result (username : string) (w : world) :
  JS.truthy (cleanUsername username) = true →
  cached (now w) (user_key username) w = None →
  ∃ v w',
    getUserIdFromUsername username w = (Returned v, w') ∧
    ∀ username' w2,
      user_key username' = user_key username →
      cache w2 = cache w' → now w2 - now w' ≤ CACHE_TTL →
      ∃ w3, getUserIdFromUsername username' w2 = (Returned v, w3) ∧
            calls w3 = calls w2 ∧ log w3 = log w2.
Proof.
  intros Hu Hmiss. unfold getUserIdFromUsername at 1. rewrite Hu. cbn [negb].
  fold (user_key username). rewrite getCachedOrFetch_eq, Hmiss.
  destruct (lookupUserId_value (cleanUsername username) (marked (user_key username) w))
    as (v & w1 & -> & _).
  eexists _, _. split; [reflexivity|].
  intros username' w2 Hk Hc Ht. unfold getUserIdFromUsername.
  rewrite (user_key_truthy _ _ Hk Hu). cbn [negb]. fold (user_key username'). rewrite Hk.
  rewrite getCachedOrFetch_eq.
  rewrite (cached_after_set (now w2) (now w1) (user_key username)
             {| data := v; timestamp := now w1 |} (cache w1)) by done.
  simpl in Ht. destruct (Z.ltb_spec CACHE_TTL (now w2 - now w1)) as [Hlt|_]; [lia|].
  by eexists.
Qed.

Lemma lookupUserId_ok cu w r :
  present (TWITTER_API_KEY w) = true →
  network w (calls w) = Some r → ok r = true →
  lookupUserId cu w =
  (Returned match body r with
            | Some p => match data_id p with
                        | Some id => if JS.truthy id then Str id else Null
                        | None => Null
                        end
            | None => Null
            end,
   answered (TWITTER_API_BASE ++ "/users/by/username/" ++ cu) (now w) r (waited w)).
Proof.
  intros Hk Hn Hok. unfold lookupUserId, try_catch, bind, get. rewrite Hk. cbn [negb].
  rewrite rateLimitedFetch_unfold, Hn. cbv zeta.
  assert (status r ≠ 429) as Hs.
  { unfold ok in Hok. apply andb_true_iff in Hok as [_ H]. lia. }
  rewrite bool_decide_false by done.
  rewrite Hok. cbn [negb]. unfold json, ret, throw.
  by destruct (body r) as [p|].
Qed.

(** X10 [getUserIdFromUsername]: a lookup that misses the cache and gets a
    response with a success status makes that one request and returns the
    [data.id] of the body; null when the body has none, an empty one, or
    cannot be read. *)
Theorem getUserIdFromUsername_found (username : string) (w : world) (r : response) :
  JS.truthy (cleanUsername username) = true →
  cached (now w) (user_key username) w = None →
  present (TWITTER_API_KEY w) = true →
  network w (calls w) = Some r → ok r = true →
  ∃ w', getUserIdFromUsername username w =
          (Returned match body r with
                    | Some p => match data_id p with
                                | Some id => if JS.truthy id then Str id else Null
                                | None => Null
                                end
                    | None => Null
                    end, w') ∧
        calls w' = S (calls w) ∧
        log w' = log w ++ [Compute (user_key username)] ++ quota_wait w
                       ++ [Fetch (user_url username)].
Proof.
  intros Hu Hmiss Hk Hn Hok. unfold getUserIdFromUsername. rewrite Hu. cbn [negb].
  fold (user_key username). rewrite getCachedOrFetch_eq, Hmiss.
  rewrite (lookupUserId_ok _ _ r) by done.
  eexists. split; [reflexivity|].
  destruct (waited_facts (marked (user_key username) w)) as (Hc & _ & Hl).
  unfold stored, answered. simpl. rewrite Hc, Hl. split; [done|].
  unfold user_url, quota_wait. simpl. by rewrite <- !app_assoc.
Qed.

(** X11 [getUserIdFromUsername]: without an API key a lookup that misses the
    cache returns null without any request, and the null is cached like any
    other result. *)
Theorem getUserIdFromUsername_without_key (username : string) (w : world) :
  JS.truthy (cleanUsername username) = true →
  cached (now w) (user_key username) w = None →
  present (TWITTER_API_KEY w) = false →
  getUserIdFromUsername username w =
    (Returned Null, stored (user_key username) Null (marked (user_key username) w)) ∧
  calls (stored (user_key username) Null (marked (user_key username) w)) = calls w ∧
  log (stored (user_key username) Null (marked (user_key username) w)) =
    log w ++ [Compute (user_key username)].
Proof.
  intros Hu Hmiss Hk. unfold getUserIdFromUsername. rewrite Hu. cbn [negb].
  fold (user_key username). rewrite getCachedOrFetch_eq, Hmiss.
  unfold lookupUserId, try_catch, bind, get.
  replace (TWITTER_API_KEY (marked (user_key username) w)) with (TWITTER_API_KEY w) by done.
  by rewrite Hk.
Qed.

(** ** The cleaned user name *)

Lemma has_pop_split_same c s :
  has c (JS.pop (JS.split (String c EmptyString) s)) = false.
Proof.
  unfold JS.split, JS.pop. induction s as [|d s IH]; [done|].
  cbn [JS.split_from]. rewrite prefix_char.
  destruct (bool_decide_reflect (c = d)) as [->|Hcd].
  - cbn [String.length Nat.sub].
    destruct (JS.split_from (String d "") 0 s) as [|h t] eqn:E;
      [by apply split_from_nonempty in E|].
    exact IH.
  - destruct (JS.split_from (String c "") 0 s) as [|h t] eqn:E;
      [by apply split_from_nonempty in E|].
    destruct t as [|h' t].
    + change (has c h = false) in IH. change (has c (String d h) = false).
      cbn [has]. rewrite IH. by rewrite bool_decide_false.
    + exact IH.
Qed.

(** X12 [getUserIdFromUsername]: the cleaned user name, which the lookup
    puts into the address of its request, holds neither a slash nor a
    question mark, whatever the user name was. *)
Theorem cleanUsername_single_segment (username : string) :
  has "/" (cleanUsername username) = false ∧ has "?" (cleanUsername username) = false.
Proof.
  unfold cleanUsername. split.
  - apply has_first_split. apply has_pop_split_same.
  - apply has_first_split_same.
Qed.

Lemma trimStart_snoc u c :
  JS.is_space c = false →
  JS.trimStart (u ++ String c "") = (JS.trimStart u ++ String c "")%string.
Proof.
  intros Hc. induction u as [|d u IH]; simpl.
  - by rewrite Hc.
  - by destruct (JS.is_space d).
Qed.

Lemma trimEnd_snoc u c :
  JS.is_space c = false → JS.trimEnd (u ++ String c "") = (u ++ String c "")%string.
Proof.
  intros Hc. induction u as [|d u IH]; simpl.
  - by rewrite Hc.
  - rewrite IH. by destruct u.
Qed.

Lemma remove_first_snoc a u c :
  a ≠ c → ∃ u', JS.remove_first a (u ++ String c "") = (u' ++ String c "")%string.
Proof.
  intros Hac. induction u as [|d u [u' IH]]; simpl.
  - exists "". by rewrite (proj2 (Ascii.eqb_neq _ _)).
  - destruct (Ascii.eqb a d); [by exists u|]. exists (String d u'). by rewrite IH.
Qed.

Lemma split_snoc_pieces c s :
  JS.split_from (String c "") 0 (s ++ String c "") ≠ [""].
Proof.
  induction s as [|x s IHs].
  - change (("" ++ String c "")%string) with (String c ""). cbn [JS.split_from].
    by rewrite prefix_char, bool_decide_true.
  - change ((String x s ++ String c "")%string) with (String x (s ++ String c "")).
    cbn [JS.split_from]. rewrite prefix_char.
    destruct (bool_decide (c = x)); cbn [String.length Nat.sub].
    + destruct (JS.split_from (String c "") 0 (s ++ String c "")) eqn:E;
        [by apply split_from_nonempty in E | done].
    + by destruct (JS.split_from (String c "") 0 (s ++ String c "")).
Qed.

Lemma pop_split_snoc c u :
  JS.pop (JS.split (String c "") (u ++ String c "")) = "".
Proof.
  unfold JS.split, JS.pop. induction u as [|d u IH].
  - change (("" ++ String c "")%string) with (String c ""). cbn [JS.split_from].
    by rewrite prefix_char, bool_decide_true.
  - change ((String d u ++ String c "")%string) with (String d (u ++ String c "")).
    cbn [JS.split_from]. rewrite prefix_char.
    destruct (JS.split_from (String c "") 0 (u ++ String c "")) as [|h t] eqn:E;
      [by apply split_from_nonempty in E|].
    destruct (bool_decide (c = d)); cbn [String.length Nat.sub]; rewrite ?E; [exact IH|].
    destruct t as [|h' t]; [|exact IH].
    simpl in IH. subst h. by apply split_snoc_pieces in E.
Qed.

(** X13 [getUserIdFromUsername]: a user name that ends in a slash, as the
    address of a profile page may, cleans to the empty string: the lookup
    returns null at once, with no request and no entry in the cache. *)
Theorem getUserIdFromUsername_trailing_slash (username : string) (w : world) :
  cleanUsername (username ++ "/") = "" ∧
  getUserIdFromUsername (username ++ "/") w = (Returned Null, w).
Proof.
  assert (cleanUsername (username ++ "/") = "") as E.
  { unfold cleanUsername, JS.trim.
    rewrite trimStart_snoc by done. rewrite trimEnd_snoc by done.
    destruct (remove_first_snoc "@" (JS.trimStart username) "/") as (u' & ->); [done|].
    by rewrite pop_split_snoc. }
  split; [done|]. unfold getUserIdFromUsername. by rewrite E.
Qed.

(** ** The vote scraper, further *)

Lemma select_session_cases id d :
  select_session id d = [] ∧ id ∉ s_id <$> voting_sessions d ∨
  select_session id d = [id] ∧ id ∈ s_id <$> voting_sessions d.
Proof.
  unfold select_session.
  destruct (filter (fun s => s_id s = id) (voting_sessions d)) as [|s l] eqn:E.
  - left. split; [done|]. intros (s & -> & Hs)%list_elem_of_fmap.
    assert (s ∈ filter (fun s' => s_id s' = s_id s) (voting_sessions d)) as Hf
      by (by apply list_elem_of_filter).
    rewrite E in Hf. by apply elem_of_nil in Hf.
  - right. assert (s ∈ filter (fun s' => s_id s' = id) (voting_sessions d)) as Hf
      by (rewrite E; by left).
    apply list_elem_of_filter in Hf as [Hid Hin]. simpl. rewrite take_0, Hid.
    split; [done|]. rewrite <- Hid. apply list_elem_of_fmap. eauto.
Qed.

(** X14 [saveVotingSession]: a session id that does not start with a number
    cannot be saved. The existence check asks the database with NaN, which
    the database rejects and the check reads as "no such session"; the
    insert that follows is rejected as well, and the call throws 'Failed to
    save voting session' with the store as it was. *)
Theorem saveVotingSession_not_a_number (sessionId title date : string) (w : world) :
  JS.parseInt sessionId = None →
  ∃ w', saveVotingSession sessionId title date w =
          (Thrown (JsError "Failed to save voting session"), w') ∧
        committed w' = committed w ∧
        log w' = log w ++ [Query (SELECT VotingSessions); Query (INSERT VotingSessions 1)].
Proof.
  intros Hn. unfold saveVotingSession, sessionExists. rewrite Hn.
  unfold bind, try_catch, rejected, ret, throw, get. simpl.
  eexists. split; [reflexivity|]. split; [done|]. simpl. by rewrite <- app_assoc.
Qed.

(** X15 [saveVotingSession]: for a session that is stored already the call
    returns the stored id after two reads and writes nothing: the title and
    the date it was called with are dropped, the stored ones stay. *)
Theorem saveVotingSession_existing (sessionId title date : string) (id : Z) (w : world) :
  JS.parseInt sessionId = Some id →
  id ∈ s_id <$> voting_sessions (committed w) →
  db_fails w (stmts w) = false → db_fails w (S (stmts w)) = false →
  ∃ w', saveVotingSession sessionId title date w = (Returned id, w') ∧
        committed w' = committed w ∧
        log w' = log w ++ [Query (SELECT VotingSessions); Query (SELECT VotingSessions)].
Proof.
  intros Hn Hin H0 H1. unfold saveVotingSession, sessionExists. rewrite Hn.
  destruct (select_session_cases id (committed w)) as [[_ Hno]|[Hsel _]]; [done|].
  unfold bind, try_catch, statement, reading, ret, throw, get. simpl.
  rewrite H0. simpl. rewrite Hsel. simpl. rewrite H1. simpl. rewrite Hsel. simpl.
  eexists. split; [reflexivity|]. split; [done|]. simpl. by rewrite <- app_assoc.
Qed.


(** X17 [sessionExists], [saveVotingSession]: the existence check never
    throws and never writes. When its query fails it answers "no", so that
    [saveVotingSession] goes on to the insert also for a session that is
    stored; when the query succeeds it answers whether a session with that
    id is stored. *)
Theorem sessionExists_swallows_errors (sessionId : JS.num) (w : world) :
  ∃ b w',
    sessionExists sessionId w = (Returned b, w') ∧
    committed w' = committed w ∧
    log w' = log w ++ [Query (SELECT VotingSessions)] ∧
    (db_fails w (stmts w) = true → b = false) ∧
    (db_fails w (stmts w) = false →
     (b = true ↔ ∃ id, sessionId = Some id ∧ id ∈ s_id <$> voting_sessions (committed w))) ∧
    (db_fails w (stmts w) = true →
     ∀ text title date,
       JS.parseInt text = sessionId → sessionId ≠ None →
       log (saveVotingSession text title date w).2 =
       log w ++ [Query (SELECT VotingSessions); Query (INSERT VotingSessions 1)]).
Proof.
  unfold sessionExists, bind, try_catch, statement, rejected, reading, ret. simpl.
  destruct sessionId as [id|].
  - destruct (db_fails w (stmts w)) eqn:F; simpl.
    + eexists _, _. split; [reflexivity|]. repeat split; try done.
      intros _ text title date Hp _. unfold saveVotingSession, sessionExists. rewrite Hp.
      unfold bind, try_catch, statement, reading, ret, throw, get. simpl. rewrite F. simpl.
      destruct (db_fails w (S (stmts w))); simpl; by rewrite <- app_assoc.
    + eexists _, _. split; [reflexivity|]. repeat split; try done.
      * intros Hb. exists id. split; [done|].
        destruct (select_session_cases id (committed w)) as [[Hsel _]|[_ Hin]]; [|done].
        by rewrite Hsel in Hb.
      * intros (id' & [= <-] & Hin).
        destruct (select_session_cases id (committed w)) as [[_ Hno]|[Hsel _]]; [done|].
        by rewrite Hsel.
  - eexists _, _. split; [reflexivity|]. repeat split; try done.
    by intros (id & ? & _).
Qed.

(** X18 [saveVote]: the statements of a call. A call that returns has
    issued four statements (the vote was there) or five (it was not), none
    of which failed; a call that throws has stopped at the first statement
    that failed, which is one of the first five, and throws 'Failed to save
    vote' whatever the failure was. *)
Theorem saveVote_statements (sessionId : Z) (name party value : string) (w : world) :
  let r := saveVote sessionId name party value w in
  match r.1 with
  | Returned b =>
      b = true ∧
      (stmts r.2 = (stmts w + 4)%nat ∨ stmts r.2 = (stmts w + 5)%nat) ∧
      ∀ k, (stmts w ≤ k < stmts r.2)%nat → db_fails w k = false
  | Thrown e =>
      e = JsError "Failed to save vote" ∧
      (stmts w < stmts r.2 ≤ stmts w + 5)%nat ∧
      db_fails w (Nat.pred (stmts r.2)) = true ∧
      ∀ k, (stmts w ≤ k < Nat.pred (stmts r.2))%nat → db_fails w k = false
  end.
Proof.
  cbv zeta.
  unfold saveVote, bind, try_catch, statement, get, ret, throw, reading, writing.
  simpl.
  destruct (db_fails w (stmts w)) eqn:F0; simpl.
  { split; [done|]. split; [lia|]. split; [done|]. intros; lia. }
  destruct (select_politician_by_name name (committed w)) as [|pid ?]; simpl;
    (destruct (db_fails w (S (stmts w))) eqn:F1; simpl;
     [ split; [done|]; split; [lia|]; split; [done|];
       intros k Hk; by replace k with (stmts w) by lia |]);
    (destruct (db_fails w (S (S (stmts w)))) eqn:F2; simpl;
     [ split; [done|]; split; [lia|]; split; [done|];
       intros k Hk; assert (k = stmts w ∨ k = S (stmts w)) as [->| ->] by lia; done |]);
    match goal with
    | |- context [select_vote ?a ?b ?c] => destruct (select_vote a b c) as [|vid ?]
    end; simpl;
    (destruct (db_fails w (S (S (S (stmts w))))) eqn:F3; simpl;
     [ split; [done|]; split; [lia|]; split; [done|];
       intros k Hk;
       assert (k = stmts w ∨ k = S (stmts w) ∨ k = S (S (stmts w))) as [->|[->| ->]] by lia;
       done |]);
    try (destruct (db_fails w (S (S (S (S (stmts w)))))) eqn:F4; simpl;
         [ split; [done|]; split; [lia|]; split; [done|];
           intros k Hk;
           assert (k = stmts w ∨ k = S (stmts w) ∨ k = S (S (stmts w)) ∨
                   k = S (S (S (stmts w)))) as [->|[->|[->| ->]]] by lia;
           done |]);
    (split; [done|]; split; [lia|]);
    intros k Hk;
    first
      [ assert (k = stmts w ∨ k = S (stmts w) ∨ k = S (S (stmts w)) ∨
                k = S (S (S (stmts w)))) as [->|[->|[->| ->]]] by lia; done
      | assert (k = stmts w ∨ k = S (stmts w) ∨ k = S (S (stmts w)) ∨
                k = S (S (S (stmts w))) ∨ k = S (S (S (S (stmts w)))))
          as [->|[->|[->|[->| ->]]]] by lia; done ].
Qed.

Lemma saveVote_db_politicians sessionId name party value ts d :
  politicians (saveVote_db sessionId name party value ts d) =
  politicians (upsert_politician name party ts d).2.
Proof.
  rewrite saveVote_db_eq. cbv zeta.
  by destruct (select_vote _ _ _).
Qed.

(** X19 [saveVote]: the politician of a vote. The name is looked up with the
    letter case folded. When a politician matches, the first one is taken:
    no row is added, no name is changed, and the party of that row is
    overwritten with the party of the call; when none matches, one row is
    added with the name and the party as given and no handle. *)
Theorem saveVote_politician (sessionId : Z) (name party value : string) (w : world) :
  no_faults w →
  ∃ w', saveVote sessionId name party value w = (Returned true, w') ∧
        let d := committed w in
        match filter (fun p => name_matches name p = true) (politicians d) with
        | [] =>
            politicians (committed w') =
              politicians d ++
              [{| p_id := politicians_seq d; p_name := name; p_party := Some party;
                  p_twitter_handle := None; p_created_at := now w |}]
        | p :: _ =>
            politicians (committed w') = set_party (p_id p) party <$> politicians d ∧
            p_name <$> politicians (committed w') = p_name <$> politicians d ∧
            p_twitter_handle <$> politicians (committed w') =
              p_twitter_handle <$> politicians d ∧
            ∀ q, q ∈ politicians (committed w') → p_id q = p_id p → p_party q = Some party
        end.
Proof.
  intros Hf. destruct (saveVote_ok sessionId name party value w Hf) as (w' & Hr & Hc & _).
  exists w'. split; [done|]. cbv zeta. rewrite Hc, saveVote_db_politicians.
  unfold upsert_politician, select_politician_by_name.
  destruct (filter _ (politicians (committed w))) as [|p l]; [done|].
  simpl. rewrite ?take_0. simpl. split; [done|].
  rewrite <- !list_fmap_compose. split; [|split].
  - apply list_fmap_ext. intros _ q _. simpl. unfold set_party. by destruct (bool_decide _).
  - apply list_fmap_ext. intros _ q _. simpl. unfold set_party. by destruct (bool_decide _).
  - intros q (q0 & -> & _)%list_elem_of_fmap. unfold set_party.
    destruct (bool_decide_reflect (p_id q0 = p_id p)); [done|]. simpl. done.
Qed.

(** ** The module's fix-up *)

Lemma checkAndFixTwitterHandles_body :
  TwitterScraper.checkAndFixTwitterHandles =
  try_catch
    (let* politiciansWithTwitter := TwitterScraper.fetchPoliticiansWithTwitter in
     TwitterScraper.for_each politiciansWithTwitter lib_fix_body
       {| TwitterScraper.total := length politiciansWithTwitter;
          TwitterScraper.fixed := 0; TwitterScraper.details := [] |})
    (fun _ => throw (JsError "Failed to check and fix Twitter handles")).
Proof. reflexivity. Qed.

Lemma lib_fix_body_skip results p w :
  lib_queued p = None → lib_fix_body results p w = (Returned results, w).
Proof.
  unfold lib_queued, lib_fix_body.
  destruct (TwitterScraper.fixHandle _) as [h f]. by destruct (_ && _).
Qed.

Lemma lib_fix_body_update results p u w :
  lib_queued p = Some u →
  lib_fix_body results p w =
  (statement (UPDATE Politicians) (writing (TwitterScraper.update_twitter u.1 u.2));;
   ret {| TwitterScraper.total := TwitterScraper.total results;
          TwitterScraper.fixed := S (TwitterScraper.fixed results);
          TwitterScraper.details := TwitterScraper.details results ++
            [{| TwitterScraper.f_id := TwitterScraper.id p;
                TwitterScraper.f_name := TwitterScraper.name p;
                TwitterScraper.f_original := TwitterScraper.twitter p;
                TwitterScraper.f_fixed := u.2 |}] |}) w.
Proof.
  unfold lib_queued, lib_fix_body.
  destruct (TwitterScraper.fixHandle _) as [h f]. destruct (_ && _); [|done].
  by intros [= <-].
Qed.

Lemma lib_loop_ok rows results w :
  (∀ k, (k < length (omap lib_queued rows))%nat → db_fails w (stmts w + k) = false) →
  ∃ w',
    TwitterScraper.for_each rows lib_fix_body results w =
      (Returned {| TwitterScraper.total := TwitterScraper.total results;
                   TwitterScraper.fixed :=
                     (TwitterScraper.fixed results + length (omap lib_queued rows))%nat;
                   TwitterScraper.details :=
                     TwitterScraper.details results ++ omap lib_reported rows |}, w') ∧
    committed w' = apply_updates (omap lib_queued rows) (committed w) ∧
    log w' = log w ++ replicate (length (omap lib_queued rows)) (Query (UPDATE Politicians)).
Proof.
  revert results w. induction rows as [|p rows IH]; intros results w Hok.
  - simpl. unfold ret. eexists. split; [|by rewrite app_nil_r].
    destruct results. simpl. by rewrite Nat.add_0_r, app_nil_r.
  - cbn [TwitterScraper.for_each]. unfold bind at 1.
    destruct (lib_queued p) as [u|] eqn:Q.
    + rewrite (lib_fix_body_update _ _ _ _ Q).
      assert (omap lib_queued (p :: rows) = u :: omap lib_queued rows) as Hu
        by (simpl; by rewrite Q).
      assert (omap lib_reported (p :: rows) =
              {| TwitterScraper.f_id := TwitterScraper.id p;
                 TwitterScraper.f_name := TwitterScraper.name p;
                 TwitterScraper.f_original := TwitterScraper.twitter p;
                 TwitterScraper.f_fixed := u.2 |} :: omap lib_reported rows) as Hr
        by (simpl; unfold lib_reported at 1; by rewrite Q).
      rewrite Hu in Hok |- *. rewrite Hr.
      unfold bind, statement, writing, ret. 
      pose proof (Hok 0%nat ltac:(simpl; lia)) as H0. rewrite Nat.add_0_r in H0.
      rewrite H0.
      match goal with
      | |- context [TwitterScraper.for_each rows lib_fix_body ?r ?x] =>
          destruct (IH r x) as (w' & E & Hc & Hl)
      end.
      { intros k Hk. simpl. specialize (Hok (S k) ltac:(simpl; lia)).
        rewrite <- Hok. f_equal. lia. }
      exists w'. rewrite E. simpl in *. split; [|split].
      * do 2 f_equal. f_equal; [lia | by rewrite <- app_assoc].
      * done.
      * rewrite Hl. by rewrite <- app_assoc.
    + rewrite (lib_fix_body_skip _ _ _ Q).
      assert (omap lib_queued (p :: rows) = omap lib_queued rows) as Hu
        by (simpl; by rewrite Q).
      assert (omap lib_reported (p :: rows) = omap lib_reported rows) as Hr
        by (simpl; unfold lib_reported at 1; by rewrite Q).
      rewrite Hu in Hok |- *. rewrite Hr. by apply IH.
Qed.

Lemma lib_loop_fails rows results w j :
  (j < length (omap lib_queued rows))%nat →
  (∀ k, (k < j)%nat → db_fails w (stmts w + k) = false) →
  db_fails w (stmts w + j) = true →
  ∃ w',
    TwitterScraper.for_each rows lib_fix_body results w = (Thrown (DbError (stmts w + j)), w') ∧
    committed w' = apply_updates (take j (omap lib_queued rows)) (committed w) ∧
    log w' = log w ++ replicate (S j) (Query (UPDATE Politicians)).
Proof.
  revert results w j. induction rows as [|p rows IH]; intros results w j Hj Hok Hbad.
  - simpl in Hj. lia.
  - cbn [TwitterScraper.for_each]. unfold bind at 1.
    destruct (lib_queued p) as [u|] eqn:Q.
    + rewrite (lib_fix_body_update _ _ _ _ Q).
      assert (omap lib_queued (p :: rows) = u :: omap lib_queued rows) as Hu
        by (simpl; by rewrite Q).
      rewrite Hu in Hj |- *.
      unfold bind, statement, writing, ret.
      destruct j as [|j].
      * rewrite Nat.add_0_r in Hbad |- *. rewrite Hbad. eexists. split; [reflexivity|done].
      * pose proof (Hok 0%nat ltac:(lia)) as H0. rewrite Nat.add_0_r in H0. rewrite H0.
        match goal with
        | |- context [TwitterScraper.for_each rows lib_fix_body ?r ?x] =>
            destruct (IH r x j) as (w' & E & Hc & Hl)
        end.
        { simpl in Hj. lia. }
        { intros k Hk. simpl. specialize (Hok (S k) ltac:(lia)).
          rewrite <- Hok. f_equal. lia. }
        { simpl. rewrite <- Hbad. f_equal. lia. }
        exists w'. rewrite E. simpl in *. split; [|split].
        -- do 3 f_equal. lia.
        -- done.
        -- rewrite Hl. by rewrite <- app_assoc.
    + rewrite (lib_fix_body_skip _ _ _ Q).
      assert (omap lib_queued (p :: rows) = omap lib_queued rows) as Hu
        by (simpl; by rewrite Q).
      rewrite Hu in Hj |- *. by apply IH.
Qed.

Lemma lib_queued_select (ps : list politician) :
  omap lib_queued
    (omap (fun p => match p_twitter_handle p with
                    | Some h => if JS.truthy h
                                then Some {| TwitterScraper.id := p_id p;
                                             TwitterScraper.name := p_name p;
                                             TwitterScraper.twitter := h |}
                                else None
                    | None => None
                    end) ps) = omap lib_own_update ps.
Proof.
  induction ps as [|p ps IH]; [done|]. cbn [omap list_omap]. unfold lib_own_update at 1.
  destruct (p_twitter_handle p) as [h|]; [|done].
  destruct (JS.truthy h); [|done].
  cbn [omap list_omap]. rewrite <- IH. done.
Qed.

Lemma lib_own_update_id p u : lib_own_update p = Some u → u.1 = p_id p.
Proof.
  unfold lib_own_update, lib_queued. destruct (p_twitter_handle p) as [h|]; [|done].
  destruct (JS.truthy h); [|done]. simpl.
  destruct (TwitterScraper.fixHandle h) as [h' f]. destruct (_ && _); [|done].
  by intros [= <-].
Qed.

Lemma set_twitter_own p u :
  lib_own_update p = Some u → TwitterScraper.set_twitter u.1 u.2 p = lib_fixed_row p.
Proof.
  intros Hu. pose proof (lib_own_update_id _ _ Hu) as Hid. revert Hu.
  unfold lib_own_update, lib_queued, lib_fixed_row, TwitterScraper.set_twitter.
  rewrite bool_decide_true by done.
  destruct (p_twitter_handle p) as [h|]; [|done].
  destruct (JS.truthy h); [|done]. simpl.
  destruct (TwitterScraper.fixHandle h) as [h' f]. destruct (_ && _); [|done].
  by intros [= <-].
Qed.

Lemma lib_fixed_row_none p : lib_own_update p = None → lib_fixed_row p = p.
Proof.
  unfold lib_own_update, lib_queued, lib_fixed_row.
  destruct (p_twitter_handle p) as [h|]; [|done].
  destruct (JS.truthy h); [|by destruct (TwitterScraper.fixHandle h)]. simpl.
  destruct (TwitterScraper.fixHandle h) as [h' f]. by destruct (_ && _).
Qed.

Lemma lib_fixed_row_id p : p_id (lib_fixed_row p) = p_id p.
Proof.
  unfold lib_fixed_row. destruct (p_twitter_handle p) as [h|]; [|done].
  destruct (TwitterScraper.fixHandle h) as [h' f]. by destruct (_ && _).
Qed.

Lemma set_twitter_other pid h p : p_id p ≠ pid → TwitterScraper.set_twitter pid h p = p.
Proof. intros H. unfold TwitterScraper.set_twitter. by rewrite bool_decide_false. Qed.

Lemma apply_updates_politicians us d :
  politicians (apply_updates us d) =
  fold_left (fun l u => TwitterScraper.set_twitter u.1 u.2 <$> l) us (politicians d).
Proof.
  revert d. induction us as [|u us IH]; intros d; [done|].
  simpl. by rewrite IH.
Qed.

Lemma updates_rows (ps front : list politician) :
  NoDup (p_id <$> (front ++ ps)) →
  fold_left (fun l u => TwitterScraper.set_twitter u.1 u.2 <$> l)
    (omap lib_own_update ps) ((lib_fixed_row <$> front) ++ ps) =
  lib_fixed_row <$> (front ++ ps).
Proof.
  revert front. induction ps as [|p ps IH]; intros front Hnd.
  - simpl. by rewrite !app_nil_r.
  - assert (NoDup (p_id <$> ((front ++ [p]) ++ ps))) as Hnd' by by rewrite <- app_assoc.
    specialize (IH (front ++ [p]) Hnd').
    rewrite <- app_assoc in IH. cbn [app] in IH. rewrite <- IH.
    rewrite (fmap_app lib_fixed_row front [p]), <- app_assoc. cbn [fmap list_fmap app].
    cbn [omap list_omap].
    destruct (lib_own_update p) as [u|] eqn:Q.
    + cbn [fold_left]. f_equal. rewrite fmap_app. cbn [fmap list_fmap].
      rewrite (set_twitter_own _ _ Q).
      pose proof (lib_own_update_id _ _ Q) as Hid.
      rewrite fmap_app in Hnd. cbn [fmap list_fmap] in Hnd.
      apply NoDup_app in Hnd as (_ & Hdis & Hnd2).
      apply NoDup_cons in Hnd2 as [Hnot _].
      f_equal; [|f_equal].
      * rewrite <- list_fmap_compose.
        apply list_fmap_ext. intros i q Hq. simpl.
        apply set_twitter_other. rewrite lib_fixed_row_id, Hid. intros E.
        apply (Hdis (p_id q)).
        -- apply list_elem_of_fmap. exists q. split; [done|].
           by eapply list_elem_of_lookup_2.
        -- rewrite E. by left.
      * rewrite <- (list_fmap_id ps) at 2. apply list_fmap_ext. intros i q Hq. simpl.
        apply set_twitter_other. rewrite Hid. intros E. apply Hnot. rewrite <- E.
        apply list_elem_of_fmap. exists q. split; [done|]. by eapply list_elem_of_lookup_2.
    + by rewrite (lib_fixed_row_none _ Q).
Qed.

Lemma length_lib_reported rows :
  length (omap lib_reported rows) = length (omap lib_queued rows).
Proof.
  induction rows as [|p rows IH]; [done|]. cbn [omap list_omap].
  unfold lib_reported at 1. destruct (lib_queued p); simpl; by rewrite ?IH.
Qed.

Lemma lib_reported_changed p d :
  lib_reported p = Some d → TwitterScraper.f_fixed d ≠ TwitterScraper.f_original d.
Proof.
  unfold lib_reported, lib_queued.
  destruct (TwitterScraper.fixHandle (TwitterScraper.twitter p)) as [h f].
  destruct f; simpl; [|done].
  destruct (bool_decide_reflect (h ≠ TwitterScraper.twitter p)); [|done].
  by intros [= <-].
Qed.


(** X21 [checkAndFixTwitterHandles] of [lib/twitter-scraper.ts]: the run is
    not a transaction. When the read and the first [j] updates succeed and
    the next update fails, the run throws 'Failed to check and fix Twitter
    handles' and the first [j] updates stay in the store. *)
Theorem lib_fix_up_partial (w : world) (j : nat) :
  let ups := omap lib_queued (TwitterScraper.select_with_twitter (committed w)) in
  (j < length ups)%nat →
  (∀ k, (k ≤ j)%nat → db_fails w (stmts w + k) = false) →
  db_fails w (stmts w + S j) = true →
  ∃ w',
    TwitterScraper.checkAndFixTwitterHandles w =
      (Thrown (JsError "Failed to check and fix Twitter handles"), w') ∧
    committed w' = apply_updates (take j ups) (committed w) ∧
    log w' = log w ++ Query (SELECT Politicians)
                   :: replicate (S j) (Query (UPDATE Politicians)).
Proof.
  intros ups Hj Hok Hbad. rewrite checkAndFixTwitterHandles_body.
  unfold try_catch, bind, TwitterScraper.fetchPoliticiansWithTwitter, try_catch, statement,
    reading.
  pose proof (Hok 0%nat ltac:(lia)) as H0. rewrite Nat.add_0_r in H0. rewrite H0.
  match goal with
  | |- context [TwitterScraper.for_each ?rows lib_fix_body ?r ?x] =>
      destruct (lib_loop_fails rows r x j) as (w' & E & Hc & Hl)
  end.
  - done.
  - intros k Hk. simpl. rewrite <- (Hok (S k)) by lia. f_equal. lia.
  - simpl. rewrite <- Hbad. f_equal. lia.
  - rewrite E. unfold throw. eexists. split; [reflexivity|]. split; [done|].
    rewrite Hl. simpl. by rewrite <- app_assoc.
Qed.


(** ** The batch run of the module *)

Section BatchEntries.

Variable fetchUserTweets : string → Z → M (list api_tweet).
Variable saveTweetsToDatabase : list api_tweet → Z → M Z.

Lemma ingest_one_entry maxTweets results politician w :
  ∃ results' w' d,
    TwitterScraper.ingest_one fetchUserTweets saveTweetsToDatabase maxTweets
      results politician w = (Returned results', w') ∧
    TwitterScraper.fetch_details results' = TwitterScraper.fetch_details results ++ [d] ∧
    TwitterScraper.politicianId d = TwitterScraper.id politician ∧
    TwitterScraper.politicianName d = TwitterScraper.name politician ∧
    TwitterScraper.totalPoliticians results' = TwitterScraper.totalPoliticians results ∧
    TwitterScraper.processedPoliticians results' =
      TwitterScraper.processedPoliticians results +
      match TwitterScraper.error_ d with Some _ => 0 | None => 1 end ∧
    TwitterScraper.totalNewTweets results' =
      TwitterScraper.totalNewTweets results + TwitterScraper.newTweets d ∧
    TwitterScraper.totalSkippedTweets results' =
      TwitterScraper.totalSkippedTweets results + TwitterScraper.skippedTweets d ∧
    TwitterScraper.rateLimited results' =
      TwitterScraper.rateLimited results || error_includes "rate limit" d.
Proof.
  assert (∀ e,
            (if JS.truthy (TwitterScraper.message e) &&
                JS.includes "rate limit" (TwitterScraper.message e)
             then true else TwitterScraper.rateLimited results) =
            TwitterScraper.rateLimited results ||
            JS.includes "rate limit" (TwitterScraper.message e)) as Hrl.
  { intros e. destruct (TwitterScraper.message e) as [|c m].
    - simpl. by rewrite orb_false_r.
    - cbn [JS.truthy andb].
      destruct (JS.includes _ _); [by rewrite orb_true_r | by rewrite orb_false_r]. }
  unfold TwitterScraper.ingest_one, try_catch, bind, ret, throw.
  destruct (negb (JS.truthy (TwitterScraper.twitter politician)));
    [|destruct (negb (JS.truthy (TwitterScraper.extractHandle _)));
      [|destruct (fetchUserTweets _ _ w) as [[tweets|e] w1];
        [destruct (saveTweetsToDatabase _ _ w1) as [[savedCount|e] w2]|]]];
    eexists _, _, _; (split; [reflexivity|]); (split; [reflexivity|]);
    unfold error_includes; simpl; rewrite ?Z.add_0_r, ?Hrl, ?orb_false_r; done.
Qed.

Lemma for_each_entries maxTweets l results w :
  ∃ results' w' ds,
    TwitterScraper.for_each l
      (TwitterScraper.ingest_one fetchUserTweets saveTweetsToDatabase maxTweets)
      results w = (Returned results', w') ∧
    TwitterScraper.fetch_details results' = TwitterScraper.fetch_details results ++ ds ∧
    TwitterScraper.politicianId <$> ds = TwitterScraper.id <$> l ∧
    TwitterScraper.politicianName <$> ds = TwitterScraper.name <$> l ∧
    TwitterScraper.totalPoliticians results' = TwitterScraper.totalPoliticians results ∧
    TwitterScraper.processedPoliticians results' =
      TwitterScraper.processedPoliticians results + without_error ds ∧
    TwitterScraper.totalNewTweets results' =
      TwitterScraper.totalNewTweets results + sum_of (TwitterScraper.newTweets <$> ds) ∧
    TwitterScraper.totalSkippedTweets results' =
      TwitterScraper.totalSkippedTweets results +
      sum_of (TwitterScraper.skippedTweets <$> ds) ∧
    TwitterScraper.rateLimited results' =
      TwitterScraper.rateLimited results || existsb (error_includes "rate limit") ds.
Proof.
  revert results w. induction l as [|p l IH]; intros results w.
  - exists results, w, []. simpl. unfold ret, without_error, sum_of. simpl.
    by rewrite !Z.add_0_r, app_nil_r, orb_false_r.
  - cbn [TwitterScraper.for_each]. unfold bind.
    destruct (ingest_one_entry maxTweets results p w)
      as (r1 & w1 & d & -> & Hd & Hid & Hname & Ht & Hp & Hn & Hs & Hr).
    destruct (IH r1 w1) as (r2 & w2 & ds & -> & Hd2 & Hids & Hnames & Ht2 & Hp2 & Hn2 & Hs2 & Hr2).
    exists r2, w2, (d :: ds). split; [done|].
    rewrite Hd2, Hd, Ht2, Ht, Hp2, Hp, Hn2, Hn, Hs2, Hs, Hr2, Hr, <- app_assoc, !fmap_cons,
      Hid, Hname, Hids, Hnames.
    assert (without_error (d :: ds) =
            match TwitterScraper.error_ d with Some _ => 0 | None => 1 end +
            without_error ds) as ->.
    { unfold without_error. rewrite filter_cons.
      case_decide as Hnone; destruct (TwitterScraper.error_ d); try done;
        rewrite ?length_cons; lia. }
    unfold sum_of. simpl. rewrite orb_assoc. repeat split; try done; lia.
Qed.

(** X23 [fetchTweetsForAllPoliticians]: an error of a collaborator never
    ends the batch. When the read of the politicians fails the run throws
    'Failed to fetch tweets for all politicians'; otherwise it returns a
    report with exactly one entry for each politician read, in order, the
    counters add up the entries, and [rateLimited] is set exactly when the
    error message of some entry contains "rate limit". *)
Theorem batch_one_entry_each (maxTweets : Z) (w : world) :
  let r := TwitterScraper.fetchTweetsForAllPoliticians fetchUserTweets saveTweetsToDatabase
             maxTweets w in
  if db_fails w (stmts w)
  then r.1 = Thrown (JsError "Failed to fetch tweets for all politicians")
  else ∃ results,
         r.1 = Returned results ∧
         let ds := TwitterScraper.fetch_details results in
         TwitterScraper.politicianId <$> ds =
           TwitterScraper.id <$> TwitterScraper.select_with_twitter (committed w) ∧
         TwitterScraper.politicianName <$> ds =
           TwitterScraper.name <$> TwitterScraper.select_with_twitter (committed w) ∧
         TwitterScraper.totalPoliticians results = Z.of_nat (length ds) ∧
         TwitterScraper.processedPoliticians results = without_error ds ∧
         TwitterScraper.totalNewTweets results = sum_of (TwitterScraper.newTweets <$> ds) ∧
         TwitterScraper.totalSkippedTweets results =
           sum_of (TwitterScraper.skippedTweets <$> ds) ∧
         TwitterScraper.rateLimited results = existsb (error_includes "rate limit") ds.
Proof.
  cbv zeta. unfold TwitterScraper.fetchTweetsForAllPoliticians, try_catch, bind,
    TwitterScraper.fetchPoliticiansWithTwitter, try_catch, statement, reading, throw.
  destruct (db_fails w (stmts w)); [done|].
  match goal with
  | |- context [TwitterScraper.for_each ?l _ ?r ?x] =>
      destruct (for_each_entries maxTweets l r x)
        as (r2 & w2 & ds & -> & Hd & Hids & Hnames & Ht & Hp & Hn & Hs & Hr)
  end.
  exists r2. split; [reflexivity|]. simpl in *. rewrite Hd.
  repeat split; try done.
  rewrite Ht. apply (f_equal length) in Hids. rewrite !length_fmap in Hids. by rewrite Hids.
Qed.

End BatchEntries.

Lemma ingest_one_placeholder maxTweets results p w :
  ∃ results' w',
    TwitterScraper.ingest_one TwitterScraper.placeholder_fetchUserTweets
      TwitterScraper.placeholder_save maxTweets results p w = (Returned results', w') ∧
    committed w' = committed w ∧
    TwitterScraper.totalNewTweets results' = TwitterScraper.totalNewTweets results ∧
    TwitterScraper.totalSkippedTweets results' = TwitterScraper.totalSkippedTweets results ∧
    TwitterScraper.rateLimited results' = TwitterScraper.rateLimited results ∧
    now w' - 500 * TwitterScraper.processedPoliticians results' =
      now w - 500 * TwitterScraper.processedPoliticians results.
Proof.
  unfold TwitterScraper.ingest_one, try_catch, bind, ret, throw,
    TwitterScraper.placeholder_fetchUserTweets, TwitterScraper.placeholder_save, sleep, modify.
  destruct (negb (JS.truthy (TwitterScraper.twitter p)));
    [|destruct (negb (JS.truthy (TwitterScraper.extractHandle (TwitterScraper.twitter p))))];
    eexists _, _; (split; [reflexivity|]); simpl; repeat split; try done; lia.
Qed.

Lemma for_each_placeholder maxTweets l results w :
  ∃ results' w',
    TwitterScraper.for_each l
      (TwitterScraper.ingest_one TwitterScraper.placeholder_fetchUserTweets
         TwitterScraper.placeholder_save maxTweets) results w = (Returned results', w') ∧
    committed w' = committed w ∧
    TwitterScraper.totalNewTweets results' = TwitterScraper.totalNewTweets results ∧
    TwitterScraper.totalSkippedTweets results' = TwitterScraper.totalSkippedTweets results ∧
    TwitterScraper.rateLimited results' = TwitterScraper.rateLimited results ∧
    now w' - 500 * TwitterScraper.processedPoliticians results' =
      now w - 500 * TwitterScraper.processedPoliticians results.
Proof.
  revert results w. induction l as [|p l IH]; intros results w.
  - by exists results, w.
  - cbn [TwitterScraper.for_each]. unfold bind.
    destruct (ingest_one_placeholder maxTweets results p w)
      as (r1 & w1 & -> & Hc & Hn & Hs & Hr & Ht).
    destruct (IH r1 w1) as (r2 & w2 & -> & Hc2 & Hn2 & Hs2 & Hr2 & Ht2).
    exists r2, w2. repeat split; try done; congruence.
Qed.

(** X24 [fetchTweetsForAllPoliticians] with the [fetchUserTweets] and
    [saveTweetsToDatabase] of its own module, which are placeholders: the
    run stores nothing, counts no tweet, never reports a rate limit, and the
    only thing it spends is half a second for each politician it could
    extract a handle for. *)
Theorem batch_of_placeholders (maxTweets : Z) (w : world) :
  db_fails w (stmts w) = false →
  ∃ results w',
    TwitterScraper.fetchTweetsForAllPoliticians TwitterScraper.placeholder_fetchUserTweets
      TwitterScraper.placeholder_save maxTweets w = (Returned results, w') ∧
    committed w' = committed w ∧
    TwitterScraper.totalNewTweets results = 0 ∧
    TwitterScraper.totalSkippedTweets results = 0 ∧
    TwitterScraper.rateLimited results = false ∧
    now w' = now w + 500 * TwitterScraper.processedPoliticians results.
Proof.
  intros H0.
  unfold TwitterScraper.fetchTweetsForAllPoliticians, try_catch, bind,
    TwitterScraper.fetchPoliticiansWithTwitter, try_catch, statement, reading, throw.
  rewrite H0.
  match goal with
  | |- context [TwitterScraper.for_each ?l _ ?r ?x] =>
      destruct (for_each_placeholder maxTweets l r x)
        as (results' & w' & -> & Hc & Hn & Hs & Hr & Ht)
  end.
  exists results', w'. simpl in *. repeat split; try done. lia.
Qed.

(** ** [updateTwitterHandle] *)


(** ** [executeTransaction] *)

Lemma through_client_query {A} q (f : database → A * database) : through_client (query q f).
Proof.
  intros w Htx. unfold query. destruct (db_fails w (stmts w)); [done|].
  destruct (tx w) as [t|]; [|done]. by destruct (f t).
Qed.

Lemma through_client_ret {A} (a : A) : through_client (ret a).
Proof. by intros w Htx. Qed.

Lemma through_client_throw {A} e : through_client (@throw A e).
Proof. by intros w Htx. Qed.

Lemma through_client_bind {A B} (m : M A) (k : A → M B) :
  through_client m → (∀ a, through_client (k a)) → through_client (bind m k).
Proof.
  intros Hm Hk w Htx. unfold bind. destruct (Hm w Htx) as [Hc Ht].
  destruct (m w) as [[a|e] w1]; [|done]. simpl in *.
  destruct (Hk a w1 Ht) as [Hc1 Ht1]. split; [congruence|done].
Qed.

(** X26 [executeTransaction]: for a callback that works through the client
    it is handed, the call is all or nothing. It always ends with no
    transaction left open; when it throws, whether the connection, the
    BEGIN, the callback or the COMMIT failed, the committed state is the one
    it started from; when it returns, the committed state is the working
    copy the callback left. *)
Theorem executeTransaction_atomic {A : Type} (callback : M A) (w : world) :
  through_client callback → tx w = None →
  let r := DbUtils.executeTransaction callback w in
  tx r.2 = None ∧
  match r.1 with
  | Thrown _ => committed r.2 = committed w
  | Returned a =>
      ∃ wc, callback (in_transaction w) = (Returned a, wc) ∧ tx wc = Some (committed r.2)
  end.
Proof.
  intros Hcb Htx. cbv zeta.
  unfold DbUtils.executeTransaction, bind, finally, try_catch, getClient, begin, commit,
    rollback, ret, throw.
  simpl. destruct (db_fails w (stmts w)); simpl; [done|].
  destruct (db_fails w (S (stmts w))); simpl.
  { by destruct (db_fails w (S (S (stmts w)))). }
  rewrite Htx. fold (in_transaction w).
  destruct (Hcb (in_transaction w)) as [Hc Ht]; [done|].
  destruct (callback (in_transaction w)) as [[a|e] wc]; simpl in *.
  - destruct (db_fails wc (stmts wc)); simpl.
    + by destruct (db_fails wc (S (stmts wc))).
    + destruct (tx wc) as [t|] eqn:E; [|done]. simpl. eauto.
  - by destruct (db_fails wc (stmts wc)).
Qed.

(** X27 [executeTransaction]: what the callback writes through the pool
    instead of the client is outside the transaction. A callback that
    issues a statement through the pool and then throws has its error
    rethrown after the ROLLBACK, and its write stays. *)
Theorem executeTransaction_pool_write {A : Type} (q : sql) (f : database → database)
    (e : error) (w : world) :
  no_faults w → tx w = None →
  ∃ w', DbUtils.executeTransaction (A := A) (statement q (writing f);; throw e) w =
          (Thrown e, w') ∧
        committed w' = f (committed w) ∧ tx w' = None ∧
        log w' = log w ++ [Connect; Query BEGIN; Query q; Query ROLLBACK; Release].
Proof.
  intros Hf Htx.
  unfold DbUtils.executeTransaction, bind, finally, try_catch, getClient, begin, commit,
    rollback, ret, throw, statement, writing, release.
  simpl. repeat (progress (rewrite ?Hf, ?Htx; simpl)).
  eexists. split; [reflexivity|]. simpl. split; [done|]. split; [done|].
  by rewrite <- !app_assoc.
Qed.

(** ** The size of the primary cache *)

Lemma lru_without_bounded k (c : lru) :
  (length (lru_without k c) ≤ length c)%nat ∧
  (NoDup (l_key <$> c) → NoDup (l_key <$> lru_without k c)) ∧
  k ∉ l_key <$> lru_without k c.
Proof.
  unfold lru_without, lru. split; [apply length_filter|]. split.
  - intros H. eapply sublist_NoDup; [exact H|]. apply fmap_sublist, sublist_filter.
  - intros (e & -> & He)%list_elem_of_fmap. by apply list_elem_of_filter in He as [? _].
Qed.

Lemma lru_without_ok k c : lru_ok c → lru_ok (lru_without k c).
Proof.
  intros [Hl Hn]. destruct (lru_without_bounded k c) as (Hl' & Hn' & _).
  split; [lia | by apply Hn'].
Qed.

Lemma lru_get_ok t k c : lru_ok c → lru_ok (lru_get t k c).2.
Proof.
  intros Hok. unfold lru_get. destruct (lru_find k c) as [e|] eqn:E; [|done].
  destruct (is_stale t e); [by apply lru_without_ok|]. simpl.
  destruct Hok as [Hl Hn]. apply lru_find_Some in E as [Hin Hk].
  destruct (lru_without_bounded k c) as (_ & Hn' & Hnot).
  split.
  - simpl. assert (length (lru_without k c) < length c)%nat; [|lia].
    unfold lru_without, lru in *. apply (length_filter_lt _ _ e); [done|]. by intros ?.
  - rewrite fmap_cons, Hk. apply NoDup_cons. split; [done | by apply Hn'].
Qed.

Lemma lru_set_ok t k v c : lru_ok c → lru_ok (lru_set t k v c).
Proof.
  intros [Hl Hn]. unfold lru_set. destruct (lru_without_bounded k c) as (Hl' & Hn' & Hnot).
  specialize (Hn' Hn). cbv zeta.
  destruct (Nat.leb_spec CACHE_MAX (length (lru_without k c))) as [Hfull|Hroom].
  - assert (removelast (lru_without k c) `sublist_of` lru_without k c) as Hsub
      by (rewrite removelast_firstn_len; apply sublist_take).
    split.
    + simpl. rewrite removelast_firstn_len, length_take. unfold CACHE_MAX in *. lia.
    + rewrite fmap_cons. simpl. apply NoDup_cons. split.
      * intros Hin. apply Hnot. eapply elem_of_sublist; [exact Hin|].
        by apply fmap_sublist.
      * eapply sublist_NoDup; [exact Hn'|]. by apply fmap_sublist.
  - split; [simpl; lia|]. rewrite fmap_cons. simpl. by apply NoDup_cons.
Qed.

(** X28 [getCachedOrFetch], [saveTweetsToDatabase],
    [checkAndFixTwitterHandles]: in every run of the fetch layer the primary
    cache holds at most the 500 entries it was set up for, and at most one
    entry for a key. *)
Theorem cache_never_exceeds_max (w : world) (L : gmap string any) :
  run w L → (length (cache w) ≤ CACHE_MAX)%nat ∧ NoDup (l_key <$> cache w).
Proof.
  fold (lru_ok (cache w)).
  induction 1 as [w Hc Hs | w L key fetchFn Hrun IH Hn
                 | w L tweetData politicianId Hrun IH
                 | w L Hrun IH | w w' L Hrun IH Hc Hs].
  - rewrite Hc. split; [simpl; lia | apply NoDup_nil_2].
  - rewrite getCachedOrFetch_eq.
    assert (lru_ok (cache (marked key w))) as Hm by (by apply lru_get_ok).
    destruct (cached (now w) key w) as [item|]; [by apply lru_get_ok|].
    destruct (Hn (marked key w)) as [Hc2 _].
    destruct (fetchFn (marked key w)) as [[d|e] w2]; simpl in *.
    + apply lru_set_ok. by rewrite Hc2.
    + destruct (staleCache w2 !! key); simpl; by rewrite Hc2.
  - pose proof (saveTweetsToDatabase_caches tweetData politicianId w) as [_ Hc].
    destruct (saveTweetsToDatabase tweetData politicianId w) as [[n|e] w']; simpl in *.
    + destruct tweetData; [by subst|]. rewrite Hc. by do 2 apply lru_without_ok.
    + by rewrite Hc.
  - pose proof (checkAndFixTwitterHandles_caches w) as [_ Hc].
    destruct (checkAndFixTwitterHandles w) as [[n|e] w']; simpl in *.
    + rewrite Hc. by apply lru_without_ok.
    + by rewrite Hc.
  - by rewrite Hc.
Qed.

(** ** [fetchUserTweets] *)

Section FetchUserTweets.

Variable data_data : payload → option (list raw_tweet).

(** X29 [fetchUserTweets]: what the caller sees when the user id cannot be
    had. Without an API key the call throws at once and touches nothing.
    With a key, a user name that cleans to the empty string, and a lookup
    that misses the cache and is answered with a failure status other than
    429, an authorization failure included, both end in the error 'Could
    not find user ID for username: ...': the request for the tweets is never
    made, and in the second case exactly the lookup request was. *)
Theorem fetchUserTweets_no_user (username : string) (maxResults : Z) (w : world) :
  (present (TWITTER_API_KEY w) = false →
   fetchUserTweets data_data username maxResults w =
   (Thrown (JsError ("Twitter API key is not configured. " ++
                     "Please set the TWITTER_API_KEY environment variable.")), w)) ∧
  (present (TWITTER_API_KEY w) = true → JS.truthy (cleanUsername username) = false →
   fetchUserTweets data_data username maxResults w = (Thrown (no_user_id username), w)) ∧
  (∀ r, present (TWITTER_API_KEY w) = true →
        JS.truthy (cleanUsername username) = true →
        cached (now w) (user_key username) w = None →
        network w (calls w) = Some r → status r ≠ 429 → ok r = false →
        ∃ w', fetchUserTweets data_data username maxResults w =
                (Thrown (no_user_id username), w') ∧
              calls w' = S (calls w) ∧
              log w' = log w ++ [Compute (user_key username)] ++ quota_wait w
                             ++ [Fetch (user_url username)]).
Proof.
  split; [|split].
  - intros Hk. unfold fetchUserTweets, try_catch, bind, get. by rewrite Hk.
  - intros Hk Hu. unfold fetchUserTweets, try_catch, bind, get, getUserIdFromUsername.
    by rewrite Hk, Hu.
  - intros r Hk Hu Hmiss Hn Hs Hok.
    unfold fetchUserTweets, try_catch, bind, get, getUserIdFromUsername.
    rewrite Hk, Hu. cbn [negb]. fold (user_key username).
    rewrite getCachedOrFetch_eq, Hmiss.
    rewrite (lookupUserId_failure _ _ r) by done. cbn [truthy_any negb]. unfold throw.
    eexists. split; [reflexivity|].
    destruct (waited_facts (marked (user_key username) w)) as (Hc & _ & Hl).
    unfold stored, answered. simpl. rewrite Hc, Hl. split; [done|].
    unfold user_url, quota_wait. simpl. by rewrite <- !app_assoc.
Qed.

Lemma fetchTweetsOf_ok username uid maxResults w r :
  network w (calls w) = Some r → ok r = true →
  fetchTweetsOf data_data username (Str uid) maxResults w =
  (match body r with
   | Some p => Returned (TweetList (shaped username <$> default [] (data_data p)))
   | None => Thrown TypeError
   end,
   answered (tweets_url uid maxResults) (now w) r (waited w)).
Proof.
  intros Hn Hok. unfold fetchTweetsOf, bind. cbn [to_string].
  fold (tweets_url uid maxResults).
  rewrite rateLimitedFetch_unfold, Hn. cbv zeta.
  assert (status r ≠ 429) as Hs.
  { unfold ok in Hok. apply andb_true_iff in Hok as [_ H]. lia. }
  rewrite bool_decide_false by done.
  rewrite Hok. cbn [negb]. unfold json, ret, throw.
  destruct (body r) as [p|]; [|done]. by destruct (data_data p).
Qed.

Lemma lru_get_other t k k' (c : lru) :
  k' ≠ k → lru_find k' (lru_get t k c).2 = lru_find k' c.
Proof.
  intros Hk. unfold lru_get. destruct (lru_find k c) as [e|] eqn:E; [|done].
  apply lru_find_Some in E as [_ He].
  destruct (is_stale t e); simpl.
  - by apply lru_find_without_other.
  - unfold lru_find at 1. cbn [List.find]. rewrite bool_decide_false by congruence.
    by apply lru_find_without_other.
Qed.

Lemma cached_served t k k' item w :
  k' ≠ k → cached t k' (served k item w) = cached t k' w.
Proof.
  intros Hk. unfold cached, served, looked_up. simpl. by apply lru_get_find, lru_get_other.
Qed.

Lemma tweets_key_user_key uid maxResults username :
  tweets_key uid maxResults ≠ user_key username.
Proof. unfold tweets_key, user_key. cbn. by intros [=]. Qed.

(** X30 [fetchUserTweets]: with the user id in the cache and the tweets not,
    a response with a success status is turned into the list of its tweets,
    each with the address of its page built from the user name as it was
    given; one request is made, to the tweets of that user id with at most
    100 results asked for, and the list is stored under the key of the user
    id and the number of results. A body without [data] gives the empty
    list. *)
Theorem fetchUserTweets_found (username uid : string) (maxResults : Z) (w : world)
    (item : CacheItem) (r : response) (p : payload) :
  present (TWITTER_API_KEY w) = true →
  JS.truthy (cleanUsername username) = true →
  cached (now w) (user_key username) w = Some item →
  data item = Str uid → JS.truthy uid = true →
  cached (now w) (tweets_key uid maxResults) w = None →
  network w (calls w) = Some r → ok r = true → body r = Some p →
  ∃ w', fetchUserTweets data_data username maxResults w =
          (Returned (TweetList (shaped username <$> default [] (data_data p))), w') ∧
        calls w' = S (calls w) ∧
        (∃ q, quota_pause q ∧
              log w' = log w ++ [Compute (tweets_key uid maxResults)] ++ q
                             ++ [Fetch (tweets_url uid maxResults)]) ∧
        staleCache w' !! tweets_key uid maxResults =
          Some {| data := TweetList (shaped username <$> default [] (data_data p));
                  timestamp := now w' |}.
Proof.
  intros Hk Hu Hhit Hd Hid Hmiss Hn Hok Hb.
  unfold fetchUserTweets, try_catch, bind, get, getUserIdFromUsername.
  rewrite Hk, Hu. cbn [negb]. fold (user_key username).
  rewrite getCachedOrFetch_eq, Hhit, Hd. cbn [truthy_any to_string]. rewrite Hid.
  cbn [negb]. fold (tweets_key uid maxResults).
  rewrite getCachedOrFetch_eq.
  replace (now (served (user_key username) item w)) with (now w) by done.
  rewrite cached_served by apply tweets_key_user_key. rewrite Hmiss.
  rewrite (fetchTweetsOf_ok _ _ _ _ r) by done. rewrite Hb.
  eexists. split; [reflexivity|].
  match goal with
  | |- context [waited ?x] => destruct (waited_facts x) as (Hc & _ & Hl);
                              pose proof (quota_wait_pause x) as Hq
  end.
  unfold stored, answered. simpl. rewrite Hc, Hl. split; [done|]. split.
  - eexists. split; [exact Hq|]. simpl. by rewrite <- !app_assoc.
  - by rewrite lookup_insert_eq.
Qed.

End FetchUserTweets.

(** ** Further instances *)

Lemma rateLimitedFetch_first_answer_witness :
  ∃ w', rateLimitedFetch "https://api.twitter.com/2/users/by/username/jack" 0 throttled =
          (Returned found_user, w') ∧
        calls w' = 4%nat.
Proof.
  destruct (rateLimitedFetch_first_answer
              "https://api.twitter.com/2/users/by/username/jack" 0 3 throttled)
    as (w' & Hr & Hc).
  - unfold MAX_RETRIES. lia.
  - intros [|[|[|i]]] Hi; [eexists; split; reflexivity.. | lia].
  - intros r [= <-]. discriminate.
  - exists w'. split; [exact Hr | exact Hc].
Defined.



Lemma stale_stats_after_save_witness :
  let w' := (saveTweetsToDatabase two_tweets 1 with_stats).2 in
  (getCachedOrFetch "tweet_stats" (throw (NetError 0)) w').1 = Returned (Str "41 tweets").
Proof.
  intros w'.
  assert (cache_inv with_stats) as Hinv.
  { apply stored_inv. intros e He. simpl in He. by apply elem_of_nil in He. }
  assert (cached (now with_stats) "tweet_stats" with_stats =
          Some {| data := Str "41 tweets"; timestamp := 1000 |}) as Hhit
    by (vm_compute; reflexivity).
  assert (saveTweetsToDatabase two_tweets 1 with_stats = (Returned 2, w')) as Hsave
    by (vm_compute; reflexivity).
  rewrite (stale_stats_after_save two_tweets 1 with_stats w'
             (marked "tweet_stats" w') 2 {| data := Str "41 tweets"; timestamp := 1000 |}
             (throw (NetError 0)) (NetError 0)
             ltac:(discriminate) Hinv Hhit Hsave eq_refl eq_refl).
  reflexivity.
Defined.

Lemma getUserIdFromUsername_caches_result_witness :
  ∃ v w',
    getUserIdFromUsername "@Jack" (fresh_world (fun _ => Some unauthorized)) =
      (Returned v, w') ∧
    ∃ w3, getUserIdFromUsername "JACK" (later 1000 w') = (Returned v, w3) ∧
          calls w3 = calls w'.
Proof.
  destruct (getUserIdFromUsername_caches_result "@Jack"
              (fresh_world (fun _ => Some unauthorized)) eq_refl eq_refl)
    as (v & w' & Hr & Hagain).
  exists v, w'. split; [exact Hr|].
  destruct (Hagain "JACK" (later 1000 w') eq_refl eq_refl) as (w3 & H3 & Hc & _).
  - unfold CACHE_TTL. simpl. lia.
  - exists w3. split; [exact H3 | exact Hc].
Defined.

Lemma getUserIdFromUsername_found_witness :
  ∃ w', getUserIdFromUsername "jack" (fresh_world (fun _ => Some found_user)) =
          (Returned (Str "12"), w') ∧
        calls w' = 1%nat.
Proof.
  destruct (getUserIdFromUsername_found "jack" (fresh_world (fun _ => Some found_user))
              found_user eq_refl eq_refl eq_refl eq_refl eq_refl) as (w' & Hr & Hc & _).
  exists w'. split; [exact Hr | exact Hc].
Defined.

Lemma getUserIdFromUsername_without_key_witness :
  (getUserIdFromUsername "jack" no_key).1 = Returned Null ∧
  calls (getUserIdFromUsername "jack" no_key).2 = 0%nat.
Proof.
  destruct (getUserIdFromUsername_without_key "jack" no_key eq_refl eq_refl eq_refl)
    as (Hr & Hc & _).
  rewrite Hr. split; [reflexivity | exact Hc].
Defined.

Lemma saveVotingSession_not_a_number_witness :
  ∃ w', saveVotingSession "G12" "Budget" "2024-01-01" (fresh_world (fun _ => None)) =
          (Thrown (JsError "Failed to save voting session"), w') ∧
        committed w' = empty_database.
Proof.
  destruct (saveVotingSession_not_a_number "G12" "Budget" "2024-01-01"
              (fresh_world (fun _ => None)) eq_refl) as (w' & Hr & Hc & _).
  exists w'. split; [exact Hr | exact Hc].
Defined.

Lemma saveVotingSession_existing_witness :
  ∃ w', saveVotingSession "12" "Another title" "2025-05-05" session_12 = (Returned 12, w') ∧
        s_title <$> voting_sessions (committed w') = ["Budget"].
Proof.
  destruct (saveVotingSession_existing "12" "Another title" "2025-05-05" 12 session_12
              eq_refl ltac:(vm_compute; by left) eq_refl eq_refl) as (w' & Hr & Hc & _).
  exists w'. split; [exact Hr|]. rewrite Hc. reflexivity.
Defined.


Lemma saveVote_politician_witness :
  ∃ w', saveVote 12 "Alice" "ODS" "yes" session_12 = (Returned true, w') ∧
        p_name <$> politicians (committed w') = ["Alice"].
Proof.
  assert (no_faults session_12) as Hf by (by intros k).
  destruct (saveVote_politician 12 "Alice" "ODS" "yes" session_12 Hf) as (w' & Hr & Hp).
  exists w'. split; [exact Hr|]. cbn in Hp. rewrite Hp. reflexivity.
Defined.


Lemma lib_fix_up_partial_witness :
  ∃ w', TwitterScraper.checkAndFixTwitterHandles (failing_at 2 two_links) =
          (Thrown (JsError "Failed to check and fix Twitter handles"), w') ∧
        p_twitter_handle <$> politicians (committed w') =
          [Some "JohnDoe"; Some "https://twitter.com/janedoe"].
Proof.
  destruct (lib_fix_up_partial (failing_at 2 two_links) 1) as (w' & Hr & Hc & _).
  - vm_compute. lia.
  - intros [|[|k]] Hk; [reflexivity | reflexivity | lia].
  - reflexivity.
  - exists w'. split; [exact Hr|]. rewrite Hc. reflexivity.
Defined.

Lemma batch_of_placeholders_witness :
  ∃ results w',
    TwitterScraper.fetchTweetsForAllPoliticians TwitterScraper.placeholder_fetchUserTweets
      TwitterScraper.placeholder_save 100 three_politicians = (Returned results, w') ∧
    committed w' = committed three_politicians ∧
    TwitterScraper.totalNewTweets results = 0.
Proof.
  destruct (batch_of_placeholders 100 three_politicians eq_refl)
    as (results & w' & Hr & Hc & Hn & _).
  exists results, w'. split; [exact Hr|]. split; [exact Hc | exact Hn].
Defined.

Lemma executeTransaction_atomic_witness :
  let r := DbUtils.executeTransaction (A := unit)
             (query (UPDATE Politicians) (writing (update_party 1 "X"));;
              throw (JsError "stop"))%M three_politicians in
  r.1 = Thrown (JsError "stop") ∧ committed r.2 = committed three_politicians.
Proof.
  intros r.
  assert (through_client
            (query (UPDATE Politicians) (writing (update_party 1 "X"));;
             throw (A := unit) (JsError "stop"))%M) as Hcb.
  { apply through_client_bind; [apply through_client_query|].
    intros _. apply through_client_throw. }
  destruct (executeTransaction_atomic _ three_politicians Hcb eq_refl) as [_ Hm].
  fold r in Hm. split; [reflexivity|]. exact Hm.
Defined.

Lemma executeTransaction_pool_write_witness :
  ∃ w', DbUtils.executeTransaction (A := unit)
          (statement (UPDATE Politicians) (writing (update_party 1 "X"));;
           throw (JsError "stop"))%M three_politicians = (Thrown (JsError "stop"), w') ∧
        p_party <$> politicians (committed w') = [Some "X"; Some "B"; None].
Proof.
  assert (no_faults three_politicians) as Hf by (by intros k).
  destruct (executeTransaction_pool_write (A := unit) (UPDATE Politicians)
              (update_party 1 "X") (JsError "stop") three_politicians Hf eq_refl)
    as (w' & Hr & Hc & _).
  exists w'. split; [exact Hr|]. rewrite Hc. reflexivity.
Defined.

Lemma cache_never_exceeds_max_witness :
  (length (cache with_stats) ≤ CACHE_MAX)%nat.
Proof.
  assert (run (fresh_world (fun _ => None)) ∅) as H0 by (by apply run_start).
  assert (keeps same_stores (ret (Str "41 tweets"))) as Hk by (by intros w).
  pose proof (run_getCachedOrFetch _ _ "tweet_stats" (ret (Str "41 tweets")) H0 Hk) as Hrun.
  destruct (cache_never_exceeds_max _ _ Hrun) as [Hl _]. exact Hl.
Defined.

Lemma fetchUserTweets_no_user_witness :
  ∃ w', fetchUserTweets one_tweet_data "@Jack" 100 (fresh_world (fun _ => Some unauthorized)) =
          (Thrown (no_user_id "@Jack"), w') ∧
        calls w' = 1%nat.
Proof.
  destruct (fetchUserTweets_no_user one_tweet_data "@Jack" 100
              (fresh_world (fun _ => Some unauthorized))) as (_ & _ & H).
  destruct (H unauthorized eq_refl eq_refl eq_refl eq_refl ltac:(discriminate) eq_refl)
    as (w' & Hr & Hc & _).
  exists w'. split; [exact Hr | exact Hc].
Defined.

Lemma fetchUserTweets_found_witness :
  ∃ w', fetchUserTweets one_tweet_data "jack" 200 knows_jack =
          (Returned (TweetList
                       [{| a_id := "7"; a_text := "hello";
                           a_created_at := "2024-01-01T00:00:00Z";
                           a_url := "https://twitter.com/jack/status/7" |}]), w') ∧
        calls w' = 2%nat.
Proof.
  destruct (fetchUserTweets_found one_tweet_data "jack" "12" 200 knows_jack
              {| data := Str "12"; timestamp := 1000 |} one_tweet
              {| errors := None; data_id := None |}
              eq_refl eq_refl eq_refl eq_refl eq_refl eq_refl eq_refl eq_refl eq_refl)
    as (w' & Hr & Hc & _).
  exists w'. split; [exact Hr | exact Hc].
Defined.
